(** * Chair-counter: a shallow embedding of [main.py] and its properties

    The floor plan is a rectangular array of characters.  The program
    finds the room names written as [(name)], derives the walkable mask,
    labels the 4-connected walkable regions, and counts the chair glyphs
    of the region each room name sits in.

    Arrays are lists of rows, indices are Python integers ([Z]), Python
    dictionaries are insertion-ordered association lists with unique keys,
    and every operation that can raise returns an [option].  A character
    is an [ascii], a room name a [string]; names are ordered by character
    code, as Python orders [str].  A cell of the character array that
    holds the NUL character stands for the empty string the array reads
    back for it, and the integer arrays of the program hold 64-bit
    integers. *)

From Stdlib Require Import ZArith Lia Ascii String DecimalString.
From stdpp Require Import base option list strings sorting.

Open Scope Z_scope.

(** ** Arrays *)

Module Np.

(** [a.shape] of a two-dimensional array. *)
Definition shape {A} (a : list (list A)) : Z * Z :=
  (Z.of_nat (length a),
   match a with [] => 0 | row :: _ => Z.of_nat (length row) end).

(** Every row has [cols] cells. *)
Definition rectangular {A} (a : list (list A)) (cols : nat) : Prop :=
  Forall (λ row, length row = cols) a.

(** One axis of an index expression: a negative index counts from the
    end, anything still out of range raises [IndexError]. *)
Definition index (n : nat) (i : Z) : option nat :=
  if 0 <=? i then (if i <? Z.of_nat n then Some (Z.to_nat i) else None)
  else if 0 <=? i + Z.of_nat n then Some (Z.to_nat (i + Z.of_nat n))
  else None.

(** [a[r, c]] *)
Definition get {A} (a : list (list A)) (r c : Z) : option A :=
  i ← index (length a) r;
  row ← a !! i;
  j ← index (length row) c;
  row !! j.

(** [a[r, c] = v], used by the program only after a bounds check. *)
Definition set {A} (a : list (list A)) (r c : Z) (v : A) : list (list A) :=
  match a !! Z.to_nat r with
  | Some row => <[Z.to_nat r := <[Z.to_nat c := v]> row]> a
  | None => a
  end.

(** The cell at a position inside the array (no wrap-around): the
    reading of [a[r, c]] that the statements below use. *)
Definition cell {A} (a : list (list A)) (p : Z * Z) : option A :=
  if (0 <=? p.1) && (0 <=? p.2)
  then row ← a !! Z.to_nat p.1; row !! Z.to_nat p.2
  else None.

(** [np.zeros_like] / [astype(int)] style constructors. *)
Definition zeros_like {A} (a : list (list A)) : list (list Z) :=
  map (map (λ _, 0)) a.

Definition astype_int (a : list (list bool)) : list (list Z) :=
  map (map (λ b : bool, if b then 1 else 0)) a.

(** [a == v], elementwise. *)
Definition eq_scalar (a : list (list Z)) (v : Z) : list (list bool) :=
  map (map (λ x, x =? v)) a.

(** [a[mask]] for a boolean mask: the selected cells in row-major order;
    a mask of another shape raises [IndexError]. *)
Definition select_row {A} (row : list A) (mrow : list bool) : list A :=
  (zip row mrow) ≫= (λ xm : A * bool, if xm.2 then [xm.1] else []).

Definition same_shape {A B} (a : list (list A)) (b : list (list B)) : bool :=
  bool_decide (length <$> a = length <$> b).

Definition select {A} (a : list (list A)) (mask : list (list bool))
  : option (list A) :=
  if same_shape a mask
  then Some (mjoin (zip_with select_row a mask))
  else None.

(** [np.sum(xs == ch)] over a one-dimensional array. *)
Definition count_eq (xs : list ascii) (ch : ascii) : Z :=
  Z.of_nat (length (filter (λ x, x = ch) xs)).

(** All positions of a [rows] x [cols] array in row-major order. *)
Definition row_major (rows cols : nat) : list (Z * Z) :=
  r ← seq 0 rows; c ← seq 0 cols; [(Z.of_nat r, Z.of_nat c)].

End Np.

(** ** Dictionaries

    A Python [dict]: keys are unique, iteration follows insertion order,
    assigning to a present key keeps its place. *)

Module Dict.

Section Ops.
Context {K V : Type} `{EqDecision K}.

Fixpoint get (k : K) (d : list (K * V)) : option V :=
  match d with
  | [] => None
  | (k', v) :: t => if decide (k = k') then Some v else get k t
  end.

Fixpoint set (k : K) (v : V) (d : list (K * V)) : list (K * V) :=
  match d with
  | [] => [(k, v)]
  | (k', v') :: t =>
      if decide (k = k') then (k, v) :: t else (k', v') :: set k v t
  end.

Definition keys (d : list (K * V)) : list K := d.*1.

(** The class invariant of a dictionary. *)
Definition wf (d : list (K * V)) : Prop := NoDup (keys d).
End Ops.

End Dict.

(** ** Constants of [main.py] *)

Definition CHAIR_TYPES : list ascii := ["W"; "P"; "S"; "C"]%char.
Definition WALL_CHARS : list ascii := ["+"; "-"; "|"; "/"]%char.

(** ** Room Locator: [find_rooms]

    [re.finditer(r"\(([^)]+)\)", line)].  The class [[^)]] cannot step
    over a closing parenthesis, so an attempt at one position succeeds
    exactly when the opening parenthesis is followed by a non-empty run of
    other characters and then by [")"]. *)

Module Re.

(** The greedy loop [[^)]*]: the longest prefix free of [")"], and the
    rest of the subject. *)
Fixpoint span_not_close (s : string) : string * string :=
  match s with
  | EmptyString => (EmptyString, EmptyString)
  | String c t =>
      if Ascii.eqb c ")" then (EmptyString, s)
      else let (name, rest) := span_not_close t in (String c name, rest)
  end.

(** One attempt of the pattern at the head of [s]; the result is
    [group(1)]. *)
Definition match_here (s : string) : option string :=
  match s with
  | String c t =>
      if Ascii.eqb c "(" then
        match span_not_close t with
        | (String n name, String _ _) => Some (String n name)
        | _ => None
        end
      else None
  | EmptyString => None
  end.

(** The scan of [finditer]: attempts at successive positions; after a
    match the scan resumes behind it ([skip] counts the characters of
    the match still to be stepped over).  Yields [(match.start(),
    match.group(1))]. *)
Fixpoint finditer_from (s : string) (pos : Z) (skip : nat)
  : list (Z * string) :=
  match s with
  | EmptyString => []
  | String _ t =>
      match skip with
      | S k => finditer_from t (pos + 1) k
      | O =>
          match match_here s with
          | Some name =>
              (pos, name) :: finditer_from t (pos + 1) (S (String.length name))
          | None => finditer_from t (pos + 1) O
          end
      end
  end.

Definition finditer (line : string) : list (Z * string) :=
  finditer_from line 0 O.

End Re.

(** [enumerate(xs)] *)
Definition enumerate {A} (xs : list A) : list (Z * A) :=
  zip (Z.of_nat <$> seq 0 (length xs)) xs.

(** ["".join(row)] over a row of the character array.  The array holds
    one-character strings padded with NUL, so a cell that holds the NUL
    character reads back as the empty string and adds nothing to the
    line: the line is shorter than the row by the number of such cells. *)
Definition join_row (row : list ascii) : string :=
  string_of_list_ascii (filter (λ ch, ch ≠ "000"%char) row).

Definition find_rooms_row (rooms : list (string * (Z * Z)))
    (ir : Z * list ascii) : list (string * (Z * Z)) :=
  foldl (λ rooms (m : Z * string), Dict.set m.2 (ir.1, m.1) rooms)
        rooms (Re.finditer (join_row ir.2)).

Definition find_rooms (grid : list (list ascii)) : list (string * (Z * Z)) :=
  foldl find_rooms_row [] (enumerate grid).

(** ** Walkability Classifier:
    [np.isin(room_array, list(WALL_CHARS), invert=True)] *)

Definition isin_invert (a : list (list ascii)) (test : list ascii)
  : list (list bool) :=
  map (map (λ ch, negb (bool_decide (ch ∈ test)))) a.

Definition walkable (room_array : list (list ascii)) : list (list bool) :=
  isin_invert room_array WALL_CHARS.

(** ** The program's own flood fill: [flood_fill] and [label_rooms] *)

Definition DIRECTIONS : list (Z * Z) := [(-1, 0); (1, 0); (0, -1); (0, 1)].

(** The value stored by an assignment into an array of 64-bit integers
    ([astype(int)]): a Python integer outside the range of the element
    type raises [OverflowError]. *)
Definition int64 (v : Z) : option Z :=
  if (- 2 ^ 63 <=? v) && (v <? 2 ^ 63) then Some v else None.

(** The body of [for dr, dc in ...]: the state is the array and the
    queue; [None] when the assignment raises. *)
Definition flood_visit (rows cols label row col : Z)
    (st : list (list Z) * list (Z * Z)) (d : Z * Z)
  : option (list (list Z) * list (Z * Z)) :=
  let nr := row + d.1 in
  let nc := col + d.2 in
  if (0 <=? nr) && (nr <? rows) && (0 <=? nc) && (nc <? cols)
     && bool_decide (Np.get st.1 nr nc = Some 1)
  then v ← int64 label; Some (Np.set st.1 nr nc v, st.2 ++ [(nr, nc)])
  else Some st.

(** [for dr, dc in [(-1, 0), (1, 0), (0, -1), (0, 1)]: ...] for the
    position [(row, col)] taken off the queue. *)
Definition flood_visits (rows cols label row col : Z)
    (st : list (list Z) * list (Z * Z)) (dirs : list (Z * Z))
  : option (list (list Z) * list (Z * Z)) :=
  foldl (λ acc d, st ← acc; flood_visit rows cols label row col st d)
        (Some st) dirs.

(** [while queue: ...].  The result is [None] when the iterations allowed
    by [fuel] do not empty the queue, [Some None] when an assignment
    raises, and [Some (Some array)] when the loop ends. *)
Fixpoint flood_loop (fuel : nat) (rows cols label : Z)
    (array : list (list Z)) (queue : list (Z * Z))
  : option (option (list (list Z))) :=
  match queue with
  | [] => Some (Some array)
  | (row, col) :: queue =>
      match fuel with
      | O => None
      | S fuel =>
          match flood_visits rows cols label row col (array, queue) DIRECTIONS with
          | Some st => flood_loop fuel rows cols label st.1 st.2
          | None => Some None
          end
      end
  end.

(** Every iteration takes one position off the queue, and a position is
    queued when its cell is relabelled, so [rows * cols + 1] iterations
    are allowed.  The array after the call, or [None] when the call
    raises or does not return. *)
Definition flood_fill (array : list (list Z)) (start : Z * Z) (label : Z)
  : option (list (list Z)) :=
  let '(rows, cols) := Np.shape array in
  r ← flood_loop (S (Z.to_nat (rows * cols))) rows cols label array [start];
  r.

Definition label_rooms (walkable : list (list bool))
    (rooms : list (string * (Z * Z))) : option (list (list Z)) :=
  fst <$>
  foldl (λ st (room : string * (Z * Z)),
           '(labels, current_label) ← st;
           labels' ← flood_fill labels room.2 current_label;
           Some (labels', current_label + 1))
        (Some (Np.astype_int walkable, 2)) rooms.

(** ** Region Labeler: [scipy.ndimage.label] *)

(** [structure=[[0, 1, 0], [1, 1, 1], [0, 1, 0]]] *)
Definition CROSS : list (list Z) := [[0; 1; 0]; [1; 1; 1]; [0; 1; 0]].

(** The offsets a 3 x 3 structuring element connects the centre to. *)
Definition offsets (structure : list (list Z)) : list (Z * Z) :=
  filter (λ d, d ≠ (0, 0) ∧ Np.cell structure (d.1 + 1, d.2 + 1) ≠ Some 0
               ∧ Np.cell structure (d.1 + 1, d.2 + 1) ≠ None)
         ((λ p : Z * Z, (p.1 - 1, p.2 - 1)) <$> Np.row_major 3 3).

Definition region_visit (input : list (list bool)) (cur row col : Z)
    (st : list (list Z) * list (Z * Z)) (d : Z * Z)
  : list (list Z) * list (Z * Z) :=
  let nr := row + d.1 in
  let nc := col + d.2 in
  if bool_decide (Np.cell input (nr, nc) = Some true)
     && bool_decide (Np.cell st.1 (nr, nc) = Some 0)
  then (Np.set st.1 nr nc cur, st.2 ++ [(nr, nc)])
  else st.

Fixpoint region_fill (fuel : nat) (input : list (list bool))
    (dirs : list (Z * Z)) (cur : Z)
    (labels : list (list Z)) (queue : list (Z * Z)) : option (list (list Z)) :=
  match queue with
  | [] => Some labels
  | (row, col) :: queue =>
      match fuel with
      | O => None
      | S fuel =>
          let st := foldl (region_visit input cur row col) (labels, queue) dirs in
          region_fill fuel input dirs cur st.1 st.2
      end
  end.

Definition region_seed (input : list (list bool)) (dirs : list (Z * Z))
    (fuel : nat) (st : option (list (list Z) * Z)) (p : Z * Z)
  : option (list (list Z) * Z) :=
  '(labels, next) ← st;
  if bool_decide (Np.cell input p = Some true)
     && bool_decide (Np.cell labels p = Some 0)
  then labels' ← region_fill fuel input dirs next
                     (Np.set labels p.1 p.2 next) [p];
       Some (labels', next + 1)
  else Some (labels, next).

(** Modelled from the spec: the library routine [scipy.ndimage.label],
    which the program calls and whose code is not part of the repository.
    Section 4.3 of the specification fixes it as a row-major scan in
    which the first unlabelled walkable cell found starts the next label
    (from 1) and a breadth-first traversal with an explicit queue marks
    every cell reachable from that seed before the scan goes on.  The
    result is the label array and the number of labels. *)
Definition scipy_label (input : list (list bool)) (structure : list (list Z))
  : option (list (list Z) * Z) :=
  let '(rows, cols) := Np.shape input in
  '(labels, next) ←
    foldl (region_seed input (offsets structure) (S (Z.to_nat (rows * cols))))
          (Some (Np.zeros_like input, 1))
          (Np.row_major (Z.to_nat rows) (Z.to_nat cols));
  Some (labels, next - 1).

(** ** Chair Aggregator: [count_chairs] *)

(** [{k: f(k) for k in keys}] *)
Definition dict_comp {V} (f : ascii → V) (keys : list ascii)
  : list (ascii * V) :=
  foldl (λ d k, Dict.set k (f k) d) [] keys.

(** [{ch: int(np.sum(room_array[mask] == ch)) for ch in CHAIR_TYPES}] with
    [mask = labels == room_label] *)
Definition count_region (room_array : list (list ascii))
    (labels : list (list Z)) (room_label : Z) : option (list (ascii * Z)) :=
  cells ← Np.select room_array (Np.eq_scalar labels room_label);
  Some (dict_comp (Np.count_eq cells) CHAIR_TYPES).

(** [for ch in CHAIR_TYPES: total[ch] += counts[ch]] *)
Definition add_counts (total counts : list (ascii * Z))
  : option (list (ascii * Z)) :=
  foldl (λ acc ch,
           total ← acc;
           t ← Dict.get ch total;
           c ← Dict.get ch counts;
           Some (Dict.set ch (t + c) total))
        (Some total) CHAIR_TYPES.

(** The body of [for name, (row, col) in rooms.items()]. *)
Definition count_room (room_array : list (list ascii)) (labels : list (list Z))
    (st : list (ascii * Z) * list (string * list (ascii * Z)))
    (room : string * (Z * Z))
  : option (list (ascii * Z) * list (string * list (ascii * Z))) :=
  room_label ← Np.get labels room.2.1 room.2.2;
  counts ← count_region room_array labels room_label;
  total ← add_counts st.1 counts;
  Some (total, Dict.set room.1 counts st.2).

Definition count_chairs (room_array : list (list ascii))
    (labels : list (list Z)) (rooms : list (string * (Z * Z)))
  : option (list (ascii * Z) * list (string * list (ascii * Z))) :=
  foldl (λ acc room, st ← acc; count_room room_array labels st room)
        (Some (dict_comp (λ _, 0) CHAIR_TYPES, [])) rooms.

(** ** Report: [format_counts] and the printing part of [main] *)

(** [str(n)] of an integer. *)
Definition str_int (n : Z) : string := NilZero.string_of_int (Z.to_int n).

(** [", ".join(f"{ch}: {counts[ch]}" for ch in CHAIR_TYPES)] *)
Definition format_counts (counts : list (ascii * Z)) : option string :=
  parts ← mapM (λ ch, n ← Dict.get ch counts;
                      Some (String ch (": " ++ str_int n))%string)
               CHAIR_TYPES;
  Some (String.concat ", " parts).

(** [sorted] on strings: ascending in the code-point order
    [String.leb], stable. *)
Fixpoint insert_sorted (x : string) (l : list string) : list string :=
  match l with
  | [] => [x]
  | y :: t => if String.leb x y then x :: l else y :: insert_sorted x t
  end.

Definition sorted (l : list string) : list string := foldr insert_sorted [] l.

(** The lines printed by [main] after the counting. *)
Definition report (total : list (ascii * Z))
    (room_counts : list (string * list (ascii * Z))) : option (list string) :=
  t ← format_counts total;
  rs ← mapM (λ name, counts ← Dict.get name room_counts;
                     line ← format_counts counts;
                     Some [(name ++ ":")%string; line])
            (sorted (Dict.keys room_counts));
  Some ("total:"%string :: t :: mjoin rs).

(** [main] on a parsed floor plan, without the debug output. *)
Definition main (room_array : list (list ascii)) : option (list string) :=
  let rooms := find_rooms room_array in
  let walkable := walkable room_array in
  '(labels, _) ← scipy_label walkable CROSS;
  '(total, room_counts) ← count_chairs room_array labels rooms;
  report total room_counts.

(** [main] with the commented-out line [labels = label_rooms(walkable,
    rooms)] in place of the library call. *)
Definition main_own_labels (room_array : list (list ascii))
  : option (list string) :=
  let rooms := find_rooms room_array in
  let walkable := walkable room_array in
  labels ← label_rooms walkable rooms;
  '(total, room_counts) ← count_chairs room_array labels rooms;
  report total room_counts.

(** The pure part of [parse_floor_plan]: lines padded with blanks to the
    longest one. *)
Definition ljust (n : nat) (line : list ascii) : list ascii :=
  line ++ replicate (n - length line) " "%char.

Definition parse_lines (lines : list string) : list (list ascii) :=
  let rows := list_ascii_of_string <$> lines in
  let max_len := foldr Nat.max O (length <$> rows) in
  ljust max_len <$> rows.

(** ** Regions of a walkable mask *)

(** A walkable cell of the mask. *)
Definition walk (m : list (list bool)) (p : Z * Z) : Prop :=
  Np.cell m p = Some true.

(** 4-directional adjacency: one step up, down, left or right. *)
Definition adjacent (p q : Z * Z) : Prop :=
  (q.1 = p.1 ∧ (q.2 = p.2 + 1 ∨ q.2 = p.2 - 1))
  ∨ (q.2 = p.2 ∧ (q.1 = p.1 + 1 ∨ q.1 = p.1 - 1)).

(** [connected m p q]: a path of walkable cells leads from [p] to [q],
    each step between adjacent cells. *)
Inductive connected (m : list (list bool)) : Z * Z → Z * Z → Prop :=
  | connected_here p : walk m p → connected m p p
  | connected_step p q r :
      walk m p → adjacent p q → connected m q r → connected m p r.

(** Row-major order of positions. *)
Definition before (p q : Z * Z) : Prop :=
  p.1 < q.1 ∨ (p.1 = q.1 ∧ p.2 < q.2).

(** The cells of [cells] still labelled 0. *)
Definition zero_cells (cells : list (Z * Z)) (L : list (list Z)) : nat :=
  length (filter (λ p, Np.cell L p = Some 0) cells).

(** The state of one breadth-first traversal: label [k] grows from the
    seed [s] over the label array [L1]; [cur] is the position taken off
    the queue whose neighbours are being visited. *)
Record flood_inv (m : list (list bool)) (k : Z) (s : Z * Z)
    (L1 : list (list Z)) (cur : option (Z * Z))
    (L : list (list Z)) (Q : list (Z * Z)) : Prop := {
  fi_shape : length <$> L = length <$> m;
  fi_frame : ∀ p, Np.cell L p = Np.cell L1 p
                  ∨ (Np.cell L1 p = Some 0 ∧ Np.cell L p = Some k
                     ∧ connected m s p);
  fi_queue : ∀ p, p ∈ Q → Np.cell L p = Some k ∧ connected m s p;
  fi_closed : ∀ p q, Np.cell L p = Some k → p ∉ Q → Some p ≠ cur →
                     adjacent p q → walk m q →
                     ∃ v, Np.cell L q = Some v ∧ v ≠ 0
}.

(** The state of the row-major scan after the positions [done]: the
    labels below [next] are in use, each labelled region is a whole
    4-connected component, and label values follow the order in which the
    scan met the regions. *)
Record scan_inv (m : list (list bool)) (done : list (Z * Z))
    (L : list (list Z)) (next : Z) : Prop := {
  si_next : 1 ≤ next;
  si_shape : length <$> L = length <$> m;
  si_range : ∀ p v, Np.cell L p = Some v → 0 ≤ v < next;
  si_wall : ∀ p v, Np.cell L p = Some v → v ≠ 0 → walk m p;
  si_closed : ∀ p q v, Np.cell L p = Some v → v ≠ 0 →
                       adjacent p q → walk m q → Np.cell L q = Some v;
  si_sound : ∀ p q v, Np.cell L p = Some v → Np.cell L q = Some v →
                      v ≠ 0 → connected m p q;
  si_done : ∀ p, p ∈ done → walk m p → ∃ v, Np.cell L p = Some v ∧ v ≠ 0;
  si_seeds : ∀ j, 1 ≤ j < next → ∃ q, q ∈ done ∧ Np.cell L q = Some j;
  si_order : ∀ p v j, Np.cell L p = Some v → 1 ≤ j < v →
                      ∃ q, Np.cell L q = Some j ∧ before q p
}.

(** ** The labelling a row-major scan prescribes *)

(** [p] is the first cell of its region in row-major order: the cell at
    which a row-major scan discovers the region. *)
Definition first_of_region (m : list (list bool)) (p : Z * Z) : Prop :=
  walk m p ∧ ∀ q, connected m p q → q = p ∨ before p q.

(** The label array with [n] labels that the row-major first-seed
    assignment prescribes for the mask [m]: walls are 0, the labels
    1..n stand for the 4-connected regions, and the regions are numbered
    in the order in which a row-major scan meets their first cells. *)
Record scan_labelling (m : list (list bool)) (L : list (list Z)) (n : Z)
  : Prop := {
  sl_count : 0 ≤ n;
  sl_shape : length <$> L = length <$> m;
  sl_wall : ∀ p, Np.cell m p = Some false → Np.cell L p = Some 0;
  sl_range : ∀ p, walk m p → ∃ v, Np.cell L p = Some v ∧ 1 ≤ v ≤ n;
  sl_region : ∀ p q, walk m p → walk m q →
                     (Np.cell L p = Np.cell L q ↔ connected m p q);
  sl_used : ∀ j, 1 ≤ j ≤ n → ∃ q, first_of_region m q ∧ Np.cell L q = Some j;
  sl_order : ∀ p q v u, first_of_region m p → first_of_region m q →
                        Np.cell L p = Some v → Np.cell L q = Some u →
                        (before p q ↔ v < u)
}.

(** ** Counts of a region *)

(** A counts dictionary as the program builds it: the four chair types
    in the order of [CHAIR_TYPES]. *)
Definition chair_counts (w p s c : Z) : list (ascii * Z) :=
  [("W"%char, w); ("P"%char, p); ("S"%char, s); ("C"%char, c)].

(** The cells of [a] at the positions where [mask] holds, in row-major
    order: what [a[mask]] stands for. *)
Definition masked_cells {A} (a : list (list A)) (mask : list (list bool))
  : list A :=
  omap (λ p, match Np.cell mask p with
             | Some true => Np.cell a p
             | _ => None
             end)
       (Np.row_major (Z.to_nat (Np.shape a).1) (Z.to_nat (Np.shape a).2)).

(** The number of cells labelled [lab] that hold the character [ch]. *)
Definition region_count (room_array : list (list ascii))
    (labels : list (list Z)) (lab : Z) (ch : ascii) : Z :=
  Z.of_nat (length (filter
    (λ p, Np.cell labels p = Some lab ∧ Np.cell room_array p = Some ch)
    (Np.row_major (Z.to_nat (Np.shape room_array).1)
                  (Z.to_nat (Np.shape room_array).2)))).

(** The full counts of the region labelled [lab]. *)
Definition region_counts (room_array : list (list ascii))
    (labels : list (list Z)) (lab : Z) : list (ascii * Z) :=
  chair_counts (region_count room_array labels lab "W")
               (region_count room_array labels lab "P")
               (region_count room_array labels lab "S")
               (region_count room_array labels lab "C").

(** The sum over all rooms of the count of one chair type. *)
Definition sum_type (ch : ascii) (room_counts : list (string * list (ascii * Z)))
  : Z :=
  foldr (λ e acc, default 0 (Dict.get ch e.2) + acc) 0 room_counts.

(** The entry of [room_counts] a room gets: the full counts of the
    region its anchor is labelled with. *)
Definition room_entry (room_array : list (list ascii)) (labels : list (list Z))
    (room : string * (Z * Z)) : string * list (ascii * Z) :=
  (room.1,
   region_counts room_array labels
     (default 0 (Np.get labels room.2.1 room.2.2))).

(** ** The report lines *)

(** A counts line: the four types in the order W, P, S, C. *)
Definition counts_line (w p s c : Z) : string :=
  ("W: " ++ str_int w ++ ", P: " ++ str_int p
   ++ ", S: " ++ str_int s ++ ", C: " ++ str_int c)%string.

(** Lexicographic order of names by character code. *)
Definition name_le (a b : string) : Prop := String.leb a b = true.
Definition name_lt (a b : string) : Prop := String.ltb a b = true.

(** ** Readings of a room's anchor *)

(** Every cell of row [r] reads back as one character: none holds NUL. *)
Definition row_full (room_array : list (list ascii)) (r : Z) : Prop :=
  ∀ c, Np.cell room_array (r, c) ≠ Some "000"%char.

(** The anchor [pos] of [name] is the cell of the opening parenthesis,
    the name fills the cells to its right and the closing parenthesis
    follows. *)
Definition anchor_on_parenthesis (room_array : list (list ascii))
    (name : string) (pos : Z * Z) : Prop :=
  Np.cell room_array pos = Some "("%char
  ∧ (∀ i ch, list_ascii_of_string name !! i = Some ch →
             Np.cell room_array (pos.1, pos.2 + 1 + Z.of_nat i) = Some ch)
  ∧ Np.cell room_array (pos.1, pos.2 + 1 + Z.of_nat (String.length name))
    = Some ")"%char.

(** The anchor [pos] of [name] is the cell of the first character of
    the name, right after the opening parenthesis. *)
Definition anchor_on_first_character (room_array : list (list ascii))
    (name : string) (pos : Z * Z) : Prop :=
  Np.cell room_array (pos.1, pos.2 - 1) = Some "("%char
  ∧ (∀ i ch, list_ascii_of_string name !! i = Some ch →
             Np.cell room_array (pos.1, pos.2 + Z.of_nat i) = Some ch).

(** ** The matches of a plan *)

(** The rooms one row contributes, in the order [finditer] yields them:
    the name with the position [(row_idx, match.start())]. *)
Definition row_matches (ir : Z * list ascii) : list (string * (Z * Z)) :=
  (λ m : Z * string, (m.2, (ir.1, m.1))) <$> Re.finditer (join_row ir.2).

(** All assignments [rooms[name] = position] that [find_rooms] performs,
    in the order of its two loops. *)
Definition all_matches (grid : list (list ascii)) : list (string * (Z * Z)) :=
  enumerate grid ≫= row_matches.

(** [rooms[k] = v] for every pair of a list, in order. *)
Definition dict_update {K V} `{EqDecision K} (d : list (K * V))
    (l : list (K * V)) : list (K * V) :=
  foldl (λ d e, Dict.set e.1 e.2 d) d l.

(** Matches moved [n] columns to the right. *)
Definition shift_matches (n : Z) (ms : list (Z * string)) : list (Z * string) :=
  (λ m : Z * string, (m.1 + n, m.2)) <$> ms.

(** The label a room name resolves to: [labels[rooms[name]]]. *)
Definition room_label (rooms : list (string * (Z * Z)))
    (labels : list (list Z)) (name : string) : Z :=
  default 0 (pos ← Dict.get name rooms; Np.get labels pos.1 pos.2).

(** ** Grid Loader: [parse_floor_plan] after [f.readlines()] *)

(** [line.rstrip("\n")]: the line without its trailing newline
    characters. *)
Fixpoint rstrip_newline (line : list ascii) : list ascii :=
  match line with
  | [] => []
  | c :: t =>
      match rstrip_newline t with
      | [] => if Ascii.eqb c "010" then [] else [c]
      | t' => c :: t'
      end
  end.

(** The array [parse_floor_plan] builds from the lines of the file;
    [max] over no line raises [ValueError]. *)
Definition parse_floor_plan (lines : list string) : option (list (list ascii)) :=
  let stripped :=
    (λ line, rstrip_newline (list_ascii_of_string line)) <$> lines in
  match stripped with
  | [] => None
  | _ :: _ => Some (ljust (foldr Nat.max O (length <$> stripped)) <$> stripped)
  end.

(** ** Debug output: [print_debug] *)

(** ["".join(str(x) for x in row)] *)
Definition join_ints (row : list Z) : string :=
  String.concat "" (str_int <$> row).

(** The lines [print_debug] prints. *)
Definition print_debug (walkable : list (list bool)) (labels : list (list Z))
  : list string :=
  ["Walkable areas (1 = walkable, 0 = wall):"%string]
  ++ (join_ints <$> Np.astype_int walkable)
  ++ [EmptyString]
  ++ ["Labeled regions:"%string]
  ++ (join_ints <$> labels)
  ++ [EmptyString].

(** ** What a flood fill reaches *)

(** [flooded array start q]: [q] is reached from [start] by steps between
    adjacent cells, every cell after [start] holding 1 in [array]. *)
Inductive flooded (array : list (list Z)) (start : Z * Z) : Z * Z → Prop :=
  | flooded_first q :
      adjacent start q → Np.cell array q = Some 1 → flooded array start q
  | flooded_next p q :
      flooded array start p → adjacent p q → Np.cell array q = Some 1 →
      flooded array start q.

(** The cells of [cells] that hold 1. *)
Definition one_cells (cells : list (Z * Z)) (A : list (list Z)) : nat :=
  length (filter (λ p, Np.cell A p = Some 1) cells).

(** The state of the loop of [flood_fill] on the array [A1] with label
    [k] from [s]; [cur] is the position taken off the queue. *)
Record fill_inv (A1 : list (list Z)) (k : Z) (s : Z * Z)
    (cur : option (Z * Z)) (A : list (list Z)) (Q : list (Z * Z)) : Prop := {
  fl_shape : length <$> A = length <$> A1;
  fl_frame : ∀ p, Np.cell A p = Np.cell A1 p
                  ∨ (Np.cell A1 p = Some 1 ∧ Np.cell A p = Some k
                     ∧ flooded A1 s p);
  fl_queue : ∀ p, p ∈ Q → p = s ∨ flooded A1 s p;
  fl_closed : ∀ p q,
      p = s ∨ (Np.cell A1 p = Some 1 ∧ Np.cell A p = Some k) →
      p ∉ Q → Some p ≠ cur → adjacent p q → Np.cell A q ≠ Some 1
}.

(** The state of the loop of [label_rooms] over the mask [w] after the
    rooms [done]: [c] is the next label, every value from 2 on marks
    one whole 4-connected region, and the cells still at 1 are whole
    regions too. *)
Record own_inv (w : list (list bool)) (done : list (string * (Z * Z)))
    (L : list (list Z)) (c : Z) : Prop := {
  oi_next : 2 ≤ c;
  oi_shape : length <$> L = length <$> w;
  oi_range : ∀ p v, Np.cell L p = Some v → 0 ≤ v < c;
  oi_walk : ∀ p v, Np.cell L p = Some v → (v ≠ 0 ↔ walk w p);
  oi_closed : ∀ p q v, Np.cell L p = Some v → v ≠ 0 →
                       adjacent p q → walk w q → Np.cell L q = Some v;
  oi_sound : ∀ p q v, Np.cell L p = Some v → Np.cell L q = Some v →
                      2 ≤ v → connected w p q;
  oi_done : ∀ room, room ∈ done →
                    (∃ q, adjacent room.2 q ∧ walk w q) →
                    ∃ v, Np.cell L room.2 = Some v ∧ 2 ≤ v
}.

(** A room whose anchor is walkable and has a walkable cell next to it
    in one of the four directions. *)
Definition anchor_has_neighbour (w : list (list bool))
    (room : string * (Z * Z)) : Prop :=
  walk w room.2
  ∧ Exists (λ d : Z * Z, walk w (room.2.1 + d.1, room.2.2 + d.2)) DIRECTIONS.

(** A name that does not begin with a wall glyph. *)
Definition starts_off_wall (name : string) : Prop :=
  match name with
  | String ch _ => ch ∉ WALL_CHARS
  | EmptyString => True
  end.

(** One match ends before the next begins: [m1.end() <= m2.start()]. *)
Definition match_before (m1 m2 : Z * string) : Prop :=
  m1.1 + Z.of_nat (String.length m1.2) + 2 ≤ m2.1.

(** * Properties *)

Example find_rooms_two :
  find_rooms (parse_lines ["| (zoo) | (bar) |"; "(a)(zoo)"])
  = [("zoo"%string, (1, 3)); ("bar"%string, (0, 10)); ("a"%string, (1, 0))].
Proof. vm_compute. reflexivity. Qed.

Example offsets_cross : offsets CROSS = [(-1, 0); (0, -1); (0, 1); (1, 0)].
Proof. vm_compute. reflexivity. Qed.

Example main_office :
  main (parse_lines
    ["+-------------+";
     "|             |";
     "| (office)    |";
     "|             |";
     "|   W  P  S   |";
     "|             |";
     "+-------------+"])
  = Some ["total:"; "W: 1, P: 1, S: 1, C: 0";
          "office:"; "W: 1, P: 1, S: 1, C: 0"]%string.
Proof. vm_compute. reflexivity. Qed.

Example main_two_rooms :
  main (parse_lines
    ["+-------+-------+";
     "|       |       |";
     "| (zoo) | (bar) |";
     "|       |       |";
     "|  W W  |  C C  |";
     "|       |       |";
     "+-------+-------+"])
  = Some ["total:"; "W: 2, P: 0, S: 0, C: 2";
          "bar:"; "W: 0, P: 0, S: 0, C: 2";
          "zoo:"; "W: 2, P: 0, S: 0, C: 0"]%string.
Proof. vm_compute. reflexivity. Qed.

Example main_own_two_rooms :
  main_own_labels (parse_lines
    ["+-------+-------+";
     "|       |       |";
     "| (zoo) | (bar) |";
     "|       |       |";
     "|  W W  |  C C  |";
     "|       |       |";
     "+-------+-------+"])
  = Some ["total:"; "W: 2, P: 0, S: 0, C: 2";
          "bar:"; "W: 0, P: 0, S: 0, C: 2";
          "zoo:"; "W: 2, P: 0, S: 0, C: 0"]%string.
Proof. vm_compute. reflexivity. Qed.

(** ** Array lemmas *)

Section NpFacts.
Context {A : Type}.
Implicit Types (a : list (list A)) (p q : Z * Z) (v : A).

Lemma cell_Some_nonneg a p x : Np.cell a p = Some x → 0 ≤ p.1 ∧ 0 ≤ p.2.
Proof.
  unfold Np.cell. destruct (0 <=? p.1) eqn:H1, (0 <=? p.2) eqn:H2;
    simpl; try discriminate. lia.
Qed.

Lemma cell_lookup a p :
  0 ≤ p.1 → 0 ≤ p.2 →
  Np.cell a p = a !! Z.to_nat p.1 ≫= (λ row, row !! Z.to_nat p.2).
Proof.
  intros H1 H2. unfold Np.cell.
  destruct (Z.leb_spec 0 p.1), (Z.leb_spec 0 p.2); simpl; try lia.
  reflexivity.
Qed.

Lemma set_lengths a r c v : length <$> Np.set a r c v = length <$> a.
Proof.
  unfold Np.set. destruct (a !! Z.to_nat r) as [row|] eqn:Hrow; [|done].
  rewrite list_fmap_insert, length_insert.
  apply list_insert_id. by rewrite list_lookup_fmap, Hrow.
Qed.

Lemma cell_set_eq a r c v :
  is_Some (Np.cell a (r, c)) → Np.cell (Np.set a r c v) (r, c) = Some v.
Proof.
  intros [x Hx]. destruct (cell_Some_nonneg _ _ _ Hx) as [H1 H2].
  rewrite cell_lookup in Hx |- * by done. unfold Np.set. simpl in *.
  destruct (a !! Z.to_nat r) as [row|] eqn:Hrow; simpl in *; [|done].
  rewrite list_lookup_insert_eq by (by eapply lookup_lt_Some). simpl.
  apply list_lookup_insert_eq. by eapply lookup_lt_Some.
Qed.

Lemma cell_set_ne a r c q v :
  0 ≤ r → 0 ≤ c → (r, c) ≠ q → Np.cell (Np.set a r c v) q = Np.cell a q.
Proof.
  intros H1 H2 Hne. unfold Np.cell.
  destruct (Z.leb_spec 0 q.1), (Z.leb_spec 0 q.2); simpl; try done.
  unfold Np.set. destruct (a !! Z.to_nat r) as [row|] eqn:Hrow; [|done].
  destruct (decide (Z.to_nat r = Z.to_nat q.1)) as [Heq|Hr].
  - rewrite <- Heq, Hrow.
    rewrite list_lookup_insert_eq by (by eapply lookup_lt_Some). simpl.
    apply list_lookup_insert_ne. intros Hc. apply Hne.
    destruct q; simpl in *. f_equal; lia.
  - by rewrite list_lookup_insert_ne.
Qed.

Lemma cell_is_Some a p :
  is_Some (Np.cell a p) ↔
  0 ≤ p.1 ∧ 0 ≤ p.2 ∧
  ∃ n, (length <$> a) !! Z.to_nat p.1 = Some n ∧ (Z.to_nat p.2 < n)%nat.
Proof.
  split.
  - intros [x Hx]. destruct (cell_Some_nonneg _ _ _ Hx) as [H1 H2].
    rewrite cell_lookup in Hx by done. rewrite list_lookup_fmap.
    destruct (a !! Z.to_nat p.1) as [row|]; simpl in *; [|done].
    repeat split; try done. eexists; split; [done|]. by eapply lookup_lt_Some.
  - intros (H1 & H2 & n & Hn & Hlt). rewrite cell_lookup by done.
    rewrite list_lookup_fmap in Hn.
    destruct (a !! Z.to_nat p.1) as [row|]; simpl in *; [|done].
    apply lookup_lt_is_Some. congruence.
Qed.
End NpFacts.

Lemma cell_same_shape {A B} (a : list (list A)) (b : list (list B)) p :
  length <$> a = length <$> b → is_Some (Np.cell a p) → is_Some (Np.cell b p).
Proof. rewrite !cell_is_Some. by intros ->. Qed.

(** ** Paths *)

Lemma adjacent_sym p q : adjacent p q → adjacent q p.
Proof. unfold adjacent. lia. Qed.

Lemma connected_walk_l m p q : connected m p q → walk m p.
Proof. by destruct 1. Qed.

Lemma connected_walk_r m p q : connected m p q → walk m q.
Proof. induction 1; auto. Qed.

Lemma connected_trans m p q r :
  connected m p q → connected m q r → connected m p r.
Proof. induction 1; intros; [done|]. eapply connected_step; eauto. Qed.

Lemma connected_snoc m p q r :
  connected m p q → adjacent q r → walk m r → connected m p r.
Proof.
  intros Hpq Hadj Hr. eapply connected_trans; [done|].
  eapply connected_step; [by eapply connected_walk_r|done|by constructor].
Qed.

Lemma connected_sym m p q : connected m p q → connected m q p.
Proof.
  induction 1 as [|p q r Hp Hadj _ IH]; [by constructor|].
  eapply connected_snoc; [done|by apply adjacent_sym|done].
Qed.

(** ** Counting the unlabelled cells *)

Lemma filter_agree {A} (P Q : A → Prop)
    `{!∀ x, Decision (P x)} `{!∀ x, Decision (Q x)} (l : list A) :
  (∀ y, y ∈ l → (P y ↔ Q y)) → filter P l = filter Q l.
Proof.
  induction l as [|y l IH]; intros Hiff; [done|].
  rewrite !filter_cons, IH by (intros; apply Hiff; by right).
  destruct (decide (P y)) as [Hp|Hp].
  - rewrite decide_True; [done|]. apply Hiff; [by left|done].
  - rewrite decide_False; [done|]. rewrite <- Hiff; [done|by left].
Qed.

Lemma filter_length_drop {A} `{EqDecision A} (P Q : A → Prop)
    `{!∀ x, Decision (P x)} `{!∀ x, Decision (Q x)} (l : list A) (x : A) :
  NoDup l → x ∈ l → P x → ¬ Q x → (∀ y, y ≠ x → (P y ↔ Q y)) →
  length (filter P l) = S (length (filter Q l)).
Proof.
  intros Hnd Hin HP HQ Hiff. induction Hnd as [|y l Hy Hnd IH]; [inversion Hin|].
  rewrite !filter_cons. destruct (decide (y = x)) as [->|Hne].
  - rewrite decide_True, decide_False by done. simpl. f_equal.
    f_equal. apply filter_agree. intros z Hz.
    apply Hiff. intros ->. done.
  - apply elem_of_cons in Hin as [->|Hin]; [done|].
    specialize (IH Hin). destruct (decide (P y)) as [Hp|Hp].
    + rewrite decide_True by (by apply Hiff). simpl. by rewrite IH.
    + rewrite decide_False by (by rewrite <- Hiff). done.
Qed.

Lemma zero_cells_set cells L p k :
  NoDup cells → p ∈ cells → Np.cell L p = Some 0 → k ≠ 0 →
  zero_cells cells L = S (zero_cells cells (Np.set L p.1 p.2 k)).
Proof.
  intros Hnd Hin H0 Hk. unfold zero_cells.
  destruct (cell_Some_nonneg _ _ _ H0) as [H1 H2].
  destruct p as [r c]. simpl in *.
  eapply (filter_length_drop _ _ _ (r, c)); try done.
  - rewrite cell_set_eq by eauto. congruence.
  - intros q Hq. by rewrite cell_set_ne.
Qed.

Lemma zero_cells_le cells L : (zero_cells cells L ≤ length cells)%nat.
Proof. apply length_filter. Qed.

(** ** One breadth-first traversal *)

Section Flood.
Variables (m : list (list bool)) (dirs cells : list (Z * Z)).
Variables (k : Z) (s : Z * Z) (L1 : list (list Z)).
Hypothesis Hk : k ≠ 0.
Hypothesis dirs_adjacent :
  ∀ p d, d ∈ dirs → adjacent p (p.1 + d.1, p.2 + d.2).
Hypothesis adjacent_dirs :
  ∀ p q, adjacent p q → ∃ d, d ∈ dirs ∧ q = (p.1 + d.1, p.2 + d.2).
Hypothesis cells_nodup : NoDup cells.
Hypothesis cells_all : ∀ p, is_Some (Np.cell m p) → p ∈ cells.

Lemma region_visit_spec p0 L Q d :
  flood_inv m k s L1 (Some p0) L Q → Np.cell L p0 = Some k → connected m s p0 →
  d ∈ dirs →
  let st := region_visit m k p0.1 p0.2 (L, Q) d in
  flood_inv m k s L1 (Some p0) st.1 st.2
  ∧ Np.cell st.1 p0 = Some k
  ∧ (∀ q v, Np.cell L q = Some v → v ≠ 0 → Np.cell st.1 q = Some v)
  ∧ (walk m (p0.1 + d.1, p0.2 + d.2) →
     ∃ v, Np.cell st.1 (p0.1 + d.1, p0.2 + d.2) = Some v ∧ v ≠ 0)
  ∧ (length st.2 + zero_cells cells st.1 = length Q + zero_cells cells L)%nat.
Proof.
  intros Hinv Hp0 Hsp0 Hd. unfold region_visit. simpl.
  pose proof (dirs_adjacent p0 d Hd) as Hadj.
  destruct p0 as [r0 c0], d as [dr dc]. simpl in *.
  remember (r0 + dr) as nr eqn:Hnr. remember (c0 + dc) as nc eqn:Hnc.
  clear Hnr Hnc. set (n := (nr, nc)) in *.
  destruct Hinv as [Hshape Hframe Hqueue Hclosed].
  case_bool_decide as Hm; simpl.
  2:{ by split_and!. }
  case_bool_decide as H0; simpl.
  2:{ split_and!; try done. intros _.
      destruct (cell_same_shape m L n) as [v Hv]; [done|by eexists|].
      exists v. split; [done|]. congruence. }
  destruct (cell_Some_nonneg _ _ _ H0) as [Hn1 Hn2]. simpl in Hn1, Hn2.
  assert (Hsn : connected m s n) by (by eapply connected_snoc).
  assert (Hset : Np.cell (Np.set L nr nc k) n = Some k)
    by (apply cell_set_eq; eauto).
  assert (Hmono : ∀ q v, Np.cell L q = Some v → v ≠ 0 →
                         Np.cell (Np.set L nr nc k) q = Some v).
  { intros q v Hq Hv. rewrite cell_set_ne; try done. intros <-.
    fold n in Hq. congruence. }
  split; [split|split_and!].
  - by rewrite set_lengths.
  - intros p. destruct (decide (n = p)) as [<-|Hne].
    + right. split_and!; try done.
      destruct (Hframe n) as [<-|(_ & Hk' & _)]; [done|congruence].
    + rewrite cell_set_ne by done. apply Hframe.
  - intros p [Hp| ->%list_elem_of_singleton]%elem_of_app.
    + destruct (Hqueue p Hp) as [Hpk Hc]. split; [|done]. by apply Hmono.
    + done.
  - intros p q Hpk Hnin Hcur Hadj' Hq.
    apply not_elem_of_app in Hnin as [HnQ Hpn%not_elem_of_cons].
    destruct Hpn as [Hpn _]. rewrite cell_set_ne in Hpk by done.
    destruct (Hclosed p q) as (v & Hv & Hv0); try done.
    exists v. split; [|done]. by apply Hmono.
  - by apply Hmono.
  - done.
  - intros _. by exists k.
  - rewrite length_app. simpl.
    rewrite (zero_cells_set cells L n k); try done; [simpl; lia|].
    apply cells_all. by eexists.
Qed.

Lemma region_visits_spec p0 ds : ∀ L Q,
  (∀ d, d ∈ ds → d ∈ dirs) →
  flood_inv m k s L1 (Some p0) L Q → Np.cell L p0 = Some k → connected m s p0 →
  let st := foldl (region_visit m k p0.1 p0.2) (L, Q) ds in
  flood_inv m k s L1 (Some p0) st.1 st.2
  ∧ Np.cell st.1 p0 = Some k
  ∧ (∀ q v, Np.cell L q = Some v → v ≠ 0 → Np.cell st.1 q = Some v)
  ∧ (∀ d, d ∈ ds → walk m (p0.1 + d.1, p0.2 + d.2) →
     ∃ v, Np.cell st.1 (p0.1 + d.1, p0.2 + d.2) = Some v ∧ v ≠ 0)
  ∧ (length st.2 + zero_cells cells st.1 = length Q + zero_cells cells L)%nat.
Proof.
  induction ds as [|d ds IH]; intros L Q Hds Hinv Hp0 Hsp0; simpl.
  { split_and!; try done. intros d Hd. inversion Hd. }
  destruct (region_visit_spec p0 L Q d) as (Hinv' & Hp0' & Hmono & Hd & Hlen);
    try done.
  { apply Hds. by left. }
  destruct (region_visit m k p0.1 p0.2 (L, Q) d) as [L' Q']. simpl in *.
  destruct (IH L' Q') as (Hinv'' & Hp0'' & Hmono' & Hds' & Hlen');
    try done.
  { intros; apply Hds. by right. }
  split_and!; try done.
  - intros q v Hq Hv. apply Hmono'; [|done]. by apply Hmono.
  - intros d' [->|Hd']%elem_of_cons Hw.
    + destruct (Hd Hw) as (v & Hv & Hv0). exists v. split; [|done].
      by apply Hmono'.
    + by apply Hds'.
  - lia.
Qed.

(** The traversal ends within the fuel that covers the queue and the
    unlabelled cells, and leaves the invariant with an empty queue. *)
Lemma region_fill_spec fuel : ∀ L Q,
  flood_inv m k s L1 None L Q → (length Q + zero_cells cells L ≤ fuel)%nat →
  ∃ L', region_fill fuel m dirs k L Q = Some L' ∧ flood_inv m k s L1 None L' [].
Proof.
  induction fuel as [|fuel IH]; intros L Q Hinv Hfuel.
  { destruct Q; simpl in *; [eauto|lia]. }
  destruct Q as [|[row col] Q]; simpl; [eauto|].
  set (p0 := (row, col)).
  destruct (Hinv.(fi_queue _ _ _ _ _ _ _) p0) as [Hp0 Hsp0]; [by left|].
  destruct (region_visits_spec p0 dirs L Q)
    as (Hinv' & Hp0' & Hmono & Hds & Hlen); try done.
  { destruct Hinv as [Hshape Hframe Hqueue Hclosed]. split; try done.
    - intros p Hp. apply Hqueue. by right.
    - intros p q Hpk HnQ Hcur. apply Hclosed; [done| |done].
      intros [->|?]%elem_of_cons; [by apply Hcur|done]. }
  simpl in *.
  destruct (foldl (region_visit m k row col) (L, Q) dirs) as [L' Q'].
  simpl in *. apply IH; [|simpl in Hfuel; lia].
  destruct Hinv' as [Hshape Hframe Hqueue Hclosed]. split; try done.
  intros p q Hpk HnQ _ Hadj Hq. destruct (decide (p = p0)) as [->|Hne].
  - destruct (adjacent_dirs _ _ Hadj) as (d & Hd & ->). by apply Hds.
  - apply (Hclosed p q); try done. congruence.
Qed.
End Flood.

(** ** The row-major scan *)

Lemma cell_zeros_like {A} (a : list (list A)) p v :
  Np.cell (Np.zeros_like a) p = Some v → v = 0.
Proof.
  intros Hv. destruct (cell_Some_nonneg _ _ _ Hv) as [H1 H2].
  rewrite cell_lookup in Hv by done. unfold Np.zeros_like in Hv.
  rewrite list_lookup_fmap in Hv.
  destruct (a !! Z.to_nat p.1) as [row|]; simpl in Hv; [|done].
  rewrite list_lookup_fmap in Hv.
  destruct (row !! Z.to_nat p.2); simpl in Hv; congruence.
Qed.

Lemma zeros_like_lengths {A} (a : list (list A)) :
  length <$> Np.zeros_like a = length <$> a.
Proof.
  unfold Np.zeros_like. rewrite <- list_fmap_compose.
  apply list_fmap_ext. intros _ row _. simpl. apply length_map.
Qed.

Lemma scan_inv_init m : scan_inv m [] (Np.zeros_like m) 1.
Proof.
  split; try done.
  - apply zeros_like_lengths.
  - intros p v ->%cell_zeros_like. lia.
  - by intros p v ->%cell_zeros_like.
  - by intros p q v ->%cell_zeros_like.
  - by intros p q v ->%cell_zeros_like.
  - intros p Hp. inversion Hp.
  - intros j. lia.
  - intros p v j ->%cell_zeros_like. lia.
Qed.

Section Scan.
Variables (m : list (list bool)) (dirs cells : list (Z * Z)) (fuel : nat).
Hypothesis dirs_adjacent :
  ∀ p d, d ∈ dirs → adjacent p (p.1 + d.1, p.2 + d.2).
Hypothesis adjacent_dirs :
  ∀ p q, adjacent p q → ∃ d, d ∈ dirs ∧ q = (p.1 + d.1, p.2 + d.2).
Hypothesis cells_nodup : NoDup cells.
Hypothesis cells_sorted : StronglySorted before cells.
Hypothesis cells_all : ∀ p, is_Some (Np.cell m p) → p ∈ cells.
Hypothesis fuel_cells : (length cells ≤ fuel)%nat.

Lemma scan_inv_skip done p L next :
  scan_inv m done L next →
  ¬ (Np.cell m p = Some true ∧ Np.cell L p = Some 0) →
  scan_inv m (done ++ [p]) L next.
Proof.
  intros [] Hno. split; try done.
  - intros q [Hq| ->%list_elem_of_singleton]%elem_of_app Hw; [by auto|].
    destruct (cell_same_shape m L p) as [v Hv]; [done|by eexists|].
    exists v. split; [done|]. intros ->. by apply Hno.
  - intros j Hj. destruct (si_seeds0 j Hj) as (q & Hq & Hqj).
    exists q. split; [|done]. apply elem_of_app. by left.
Qed.

Lemma scan_inv_seed done rest p L next :
  cells = done ++ p :: rest →
  scan_inv m done L next →
  Np.cell m p = Some true → Np.cell L p = Some 0 →
  ∃ L', region_fill fuel m dirs next (Np.set L p.1 p.2 next) [p] = Some L'
        ∧ scan_inv m (done ++ [p]) L' (next + 1).
Proof.
  intros Hcells Hinv Hw H0. set (k := next). set (L1 := Np.set L p.1 p.2 k).
  pose proof Hinv as [Hnext Hshape Hrange Hwall Hclosed Hsound Hdone Hseeds Horder].
  destruct (cell_Some_nonneg _ _ _ H0) as [Hp1 Hp2].
  assert (Hk : k ≠ 0) by (unfold k; lia).
  assert (HL1p : Np.cell L1 p = Some k).
  { unfold L1. destruct p. apply cell_set_eq. eauto. }
  assert (HL1 : ∀ q, q ≠ p → Np.cell L1 q = Np.cell L q).
  { intros q Hq. unfold L1. destruct p. by apply cell_set_ne. }
  assert (Hin : p ∈ cells) by (apply cells_all; eauto).
  destruct (region_fill_spec m dirs cells k p L1 Hk dirs_adjacent adjacent_dirs
              cells_nodup cells_all fuel L1 [p]) as (L' & Hfill & Hfin).
  { split.
    - unfold L1. by rewrite set_lengths.
    - by left.
    - intros q ->%list_elem_of_singleton. split; [done|by constructor].
    - intros x q Hx Hnin%not_elem_of_cons. destruct Hnin as [Hne _].
      rewrite HL1 in Hx by done. apply Hrange in Hx. unfold k in Hx. lia. }
  { pose proof (zero_cells_set cells L p k cells_nodup Hin H0 Hk) as Hz.
    pose proof (zero_cells_le cells L). fold L1 in Hz. simpl. lia. }
  exists L'. split; [done|].
  destruct Hfin as [Hshape' Hframe _ Hclosed'].
  (* cells labelled k are connected to the seed *)
  assert (Hnew : ∀ x, Np.cell L' x = Some k → connected m p x).
  { intros x Hx. destruct (Hframe x) as [Heq|(_ & _ & Hc)]; [|done].
    destruct (decide (x = p)) as [->|Hne]; [by constructor|].
    rewrite Hx, HL1 in Heq by done. symmetry in Heq.
    apply Hrange in Heq. unfold k in Heq. lia. }
  (* the other labels are those of [L] *)
  assert (Hold : ∀ x v, v ≠ k → Np.cell L' x = Some v → Np.cell L x = Some v).
  { intros x v Hv Hx. destruct (Hframe x) as [Heq|(_ & ? & _)]; [|congruence].
    destruct (decide (x = p)) as [->|Hne]; [congruence|].
    by rewrite <- HL1, <- Heq. }
  assert (Hkeep : ∀ x v, v ≠ 0 → Np.cell L x = Some v → Np.cell L' x = Some v).
  { intros x v Hv Hx. assert (x ≠ p) by congruence.
    destruct (Hframe x) as [Heq|(Hz & _ & _)].
    - by rewrite Heq, HL1.
    - rewrite HL1 in Hz by done. congruence. }
  assert (Hp' : Np.cell L' p = Some k).
  { destruct (Hframe p) as [Heq|(_ & ? & _)]; congruence. }
  assert (Hwall' : ∀ x v, Np.cell L' x = Some v → v ≠ 0 → walk m x).
  { intros x v Hx Hv. destruct (decide (v = k)) as [->|Hvk].
    - eapply connected_walk_r. by apply Hnew.
    - eapply Hwall; [|done]. by apply Hold. }
  split; try done.
  - lia.
  - intros x v Hx. destruct (decide (v = k)) as [->|Hvk]; [unfold k; lia|].
    apply Hold in Hx; [|done]. apply Hrange in Hx. lia.
  - intros x q v Hx Hv Hadj Hq. destruct (decide (v = k)) as [->|Hvk].
    + destruct (Hclosed' x q) as (w & Hw' & Hw0); try done.
      { apply not_elem_of_nil. }
      destruct (decide (w = k)) as [->|Hwk]; [done|].
      exfalso. apply Hold in Hw'; [|done].
      pose proof (Hclosed q x w Hw' Hw0 (adjacent_sym _ _ Hadj)
                    (Hwall' x k Hx Hk)) as Hxw.
      apply Hkeep in Hxw; [|done]. congruence.
    + apply Hkeep; [done|]. eapply Hclosed; try done. by apply Hold.
  - intros x y v Hx Hy Hv. destruct (decide (v = k)) as [->|Hvk].
    + eapply connected_trans; [apply connected_sym|]; by apply Hnew.
    + eapply Hsound; [by apply Hold|by apply Hold|done].
  - intros x [Hx| ->%list_elem_of_singleton]%elem_of_app Hwx; [|by eauto].
    destruct (Hdone x Hx Hwx) as (v & Hv & Hv0). exists v. split; [|done].
    by apply Hkeep.
  - intros j Hj. destruct (decide (j = k)) as [->|Hjk].
    + exists p. split; [|done]. apply elem_of_app. right. by left.
    + destruct (Hseeds j) as (q & Hq & Hqj); [unfold k in Hjk; lia|].
      exists q. split; [apply elem_of_app; by left|].
      apply Hkeep; [lia|done].
  - intros x v j Hx Hj. destruct (decide (v = k)) as [->|Hvk].
    + destruct (Hseeds j Hj) as (q & Hq & Hqj).
      exists q. split; [apply Hkeep; [lia|done]|].
      assert (Hxc : x ∈ p :: rest).
      { assert (Hxin : x ∈ cells).
        { apply cells_all. eapply cell_same_shape; [|by eexists].
          by rewrite Hshape'. }
        rewrite Hcells in Hxin. apply elem_of_app in Hxin as [Hxd|]; [|done].
        destruct (Hdone x Hxd (Hwall' x k Hx Hk)) as (w & Hw' & Hw0).
        pose proof (Hrange _ _ Hw'). apply Hkeep in Hw'; [|done].
        unfold k in Hx. rewrite Hx in Hw'. injection Hw' as <-. lia. }
      eapply StronglySorted_app_1_elem_of; [|done|done].
      by rewrite <- Hcells.
    + apply Hold in Hx; [|done].
      destruct (Horder x v j Hx Hj) as (q & Hqj & Hb).
      exists q. split; [|done]. apply Hkeep; [lia|done].
Qed.

Lemma region_seed_scan rest : ∀ done L next,
  cells = done ++ rest →
  scan_inv m done L next →
  ∃ L' next', foldl (region_seed m dirs fuel) (Some (L, next)) rest
              = Some (L', next')
              ∧ scan_inv m cells L' next'.
Proof.
  induction rest as [|p rest IH]; intros done L next Hcells Hinv; simpl.
  { rewrite app_nil_r in Hcells. subst. eauto. }
  assert (Hcells' : cells = (done ++ [p]) ++ rest) by (by rewrite <- app_assoc).
  case_bool_decide as Hw; simpl.
  2:{ apply (IH (done ++ [p])); [done|].
      apply scan_inv_skip; [done|]. by intros []. }
  case_bool_decide as H0; simpl.
  2:{ apply (IH (done ++ [p])); [done|].
      apply scan_inv_skip; [done|]. by intros []. }
  destruct (scan_inv_seed done rest p L next) as (L' & -> & Hinv'); try done.
  simpl. by apply (IH (done ++ [p])).
Qed.
End Scan.

(** ** The positions of an array in row-major order *)

Lemma row_major_elem rows cols p :
  p ∈ Np.row_major rows cols ↔
  ∃ r c, (r < rows)%nat ∧ (c < cols)%nat ∧ p = (Z.of_nat r, Z.of_nat c).
Proof.
  unfold Np.row_major. rewrite list_elem_of_bind. split.
  - intros (r & (c & Hp%list_elem_of_singleton & Hc%elem_of_seq)%list_elem_of_bind
              & Hr%elem_of_seq).
    exists r, c. split_and!; [lia|lia|done].
  - intros (r & c & Hr & Hc & ->). exists r. split; [|apply elem_of_seq; lia].
    apply list_elem_of_bind. exists c. split; [by left|apply elem_of_seq; lia].
Qed.

Lemma row_sorted (r : Z) cs :
  StronglySorted lt cs →
  StronglySorted before (cs ≫= λ c, [(r, Z.of_nat c)]).
Proof.
  induction 1 as [|c cs Hcs IH Hall]; [constructor|].
  rewrite bind_cons. simpl. constructor; [done|].
  apply Forall_forall. intros q (c' & ->%list_elem_of_singleton & Hc')%list_elem_of_bind.
  rewrite Forall_forall in Hall. specialize (Hall c' Hc').
  right. simpl. lia.
Qed.

Lemma rows_sorted rs cs :
  StronglySorted lt rs → StronglySorted lt cs →
  StronglySorted before
    (rs ≫= λ r, cs ≫= λ c, [(Z.of_nat r, Z.of_nat c)]).
Proof.
  intros Hrs Hcs. induction Hrs as [|r rs Hrs IH Hall]; [constructor|].
  rewrite bind_cons. apply StronglySorted_app_2; [|by apply row_sorted|done].
  intros p q (c & ->%list_elem_of_singleton & _)%list_elem_of_bind
             (r' & (c' & ->%list_elem_of_singleton & _)%list_elem_of_bind
                 & Hr')%list_elem_of_bind.
  rewrite Forall_forall in Hall. specialize (Hall r' Hr').
  left. simpl. lia.
Qed.

Lemma seq_sorted a n : StronglySorted lt (seq a n).
Proof.
  revert a. induction n as [|n IH]; intros a; simpl; constructor; [done|].
  apply Forall_forall. intros x Hx%elem_of_seq. lia.
Qed.

Lemma row_major_sorted rows cols :
  StronglySorted before (Np.row_major rows cols).
Proof. apply rows_sorted; apply seq_sorted. Qed.

Lemma before_irrefl p : ¬ before p p.
Proof. unfold before. lia. Qed.

Lemma sorted_nodup (l : list (Z * Z)) : StronglySorted before l → NoDup l.
Proof.
  induction 1 as [|p l Hl IH Hall]; constructor; [|done].
  intros Hp. rewrite Forall_forall in Hall.
  by apply (before_irrefl p), Hall.
Qed.

Lemma product_length {A B C} (f : A → B → C) (xs : list A) (ys : list B) :
  length (xs ≫= λ x, ys ≫= λ y, [f x y]) = (length xs * length ys)%nat.
Proof.
  induction xs as [|x xs IH]; [done|].
  rewrite bind_cons, length_app, IH. simpl. f_equal.
  clear. induction ys as [|y ys IH]; [done|].
  rewrite bind_cons. simpl. by rewrite IH.
Qed.

Lemma row_major_length rows cols :
  length (Np.row_major rows cols) = (rows * cols)%nat.
Proof. unfold Np.row_major. by rewrite product_length, !length_seq. Qed.

(** The cells of a rectangular array are the positions of its shape. *)
Lemma rectangular_cells {A} (a : list (list A)) cols p :
  Np.rectangular a cols →
  is_Some (Np.cell a p) →
  p ∈ Np.row_major (Z.to_nat (Np.shape a).1) (Z.to_nat (Np.shape a).2).
Proof.
  intros Hrect (H1 & H2 & n & Hn & Hlt)%cell_is_Some.
  rewrite list_lookup_fmap in Hn.
  destruct (a !! Z.to_nat p.1) as [row|] eqn:Hrow; simpl in Hn; [|done].
  injection Hn as <-.
  apply row_major_elem. exists (Z.to_nat p.1), (Z.to_nat p.2).
  unfold Np.shape. simpl. rewrite !Nat2Z.id.
  split_and!.
  - by eapply lookup_lt_Some.
  - destruct a as [|row0 a]; [done|].
    unfold Np.rectangular in Hrect. rewrite Forall_forall in Hrect.
    rewrite Nat2Z.id.
    rewrite (Hrect row0) by (by left).
    rewrite <- (Hrect row); [done|]. by eapply list_elem_of_lookup_2.
  - destruct p. simpl in *. f_equal; lia.
Qed.

Lemma shape_cells_fuel {A} (a : list (list A)) :
  (length (Np.row_major (Z.to_nat (Np.shape a).1) (Z.to_nat (Np.shape a).2))
   ≤ S (Z.to_nat ((Np.shape a).1 * (Np.shape a).2)))%nat.
Proof. rewrite row_major_length. unfold Np.shape. simpl. destruct a; simpl; lia. Qed.

(** ** The cross-shaped structuring element *)

Lemma cross_adjacent p d :
  d ∈ offsets CROSS → adjacent p (p.1 + d.1, p.2 + d.2).
Proof.
  change (offsets CROSS) with [(-1, 0); (0, -1); (0, 1); (1, 0)].
  rewrite !elem_of_cons, elem_of_nil. unfold adjacent.
  intros [->|[->|[->|[->|[]]]]]; simpl; lia.
Qed.

Lemma adjacent_cross p q :
  adjacent p q → ∃ d, d ∈ offsets CROSS ∧ q = (p.1 + d.1, p.2 + d.2).
Proof.
  change (offsets CROSS) with [(-1, 0); (0, -1); (0, 1); (1, 0)].
  unfold adjacent. destruct p as [r c], q as [r' c']. simpl.
  intros [[-> [->| ->]]|[-> [->| ->]]].
  - exists (0, 1). split; [rewrite !elem_of_cons; auto|]. simpl. f_equal; lia.
  - exists (0, -1). split; [rewrite !elem_of_cons; auto|]. simpl. f_equal; lia.
  - exists (1, 0). split; [rewrite !elem_of_cons; auto|]. simpl. f_equal; lia.
  - exists (-1, 0). split; [rewrite !elem_of_cons; auto|]. simpl. f_equal; lia.
Qed.

(** ** The Region Labeler *)

(** The labelling ends, and its result satisfies the scan invariant over
    all positions of the mask. *)
Lemma scipy_label_scan (m : list (list bool)) cols :
  Np.rectangular m cols →
  ∃ L n, scipy_label m CROSS = Some (L, n)
         ∧ scan_inv m (Np.row_major (Z.to_nat (Np.shape m).1)
                                    (Z.to_nat (Np.shape m).2)) L (n + 1).
Proof.
  intros Hrect. unfold scipy_label.
  destruct (Np.shape m) as [rows cs] eqn:Hshape.
  pose proof (row_major_sorted (Z.to_nat rows) (Z.to_nat cs)) as Hsorted.
  destruct (region_seed_scan m (offsets CROSS)
              (Np.row_major (Z.to_nat rows) (Z.to_nat cs))
              (S (Z.to_nat (rows * cs)))
              cross_adjacent adjacent_cross (sorted_nodup _ Hsorted) Hsorted)
    with (rest := Np.row_major (Z.to_nat rows) (Z.to_nat cs))
         (done := @nil (Z * Z)) (L := Np.zeros_like m) (next := 1)
    as (L & next & -> & Hinv).
  - intros p Hp. pose proof (rectangular_cells m cols p Hrect Hp) as Hin.
    by rewrite Hshape in Hin.
  - pose proof (shape_cells_fuel m) as Hf. by rewrite Hshape in Hf.
  - done.
  - apply scan_inv_init.
  - simpl. exists L, (next - 1). split; [done|].
    by replace (next - 1 + 1) with next by lia.
Qed.

(** ** Dictionaries *)

Section DictFacts.
Context {K V : Type} `{EqDecision K}.
Implicit Types (d : list (K * V)) (k : K) (v : V).

Lemma dict_get_set k k' v d :
  Dict.get k (Dict.set k' v d)
  = if decide (k = k') then Some v else Dict.get k d.
Proof.
  induction d as [|[k0 v0] d IH]; simpl.
  - by destruct (decide (k = k')).
  - destruct (decide (k' = k0)) as [->|Hne]; simpl.
    + destruct (decide (k = k0)); done.
    + rewrite IH. destruct (decide (k = k0)) as [->|]; [|done].
      by rewrite decide_False.
Qed.

Lemma dict_set_fresh k v d :
  k ∉ Dict.keys d → Dict.set k v d = d ++ [(k, v)].
Proof.
  induction d as [|[k0 v0] d IH]; simpl; [done|].
  intros [Hne Hnin]%not_elem_of_cons.
  rewrite decide_False by done. by rewrite IH.
Qed.

Lemma dict_set_id k v d : Dict.get k d = Some v → Dict.set k v d = d.
Proof.
  induction d as [|[k0 v0] d IH]; simpl; [done|].
  destruct (decide (k = k0)) as [->|Hne]; [congruence|].
  intros Hg. by rewrite IH.
Qed.

Lemma dict_keys_set k v d :
  Dict.keys (Dict.set k v d)
  = if decide (k ∈ Dict.keys d) then Dict.keys d else Dict.keys d ++ [k].
Proof.
  unfold Dict.keys. induction d as [|[k0 v0] d IH].
  - case_decide as Hin; [inversion Hin|done].
  - cbn [Dict.set]. destruct (decide (k = k0)) as [->|Hne].
    + clear IH. rewrite decide_True; [reflexivity|]. rewrite fmap_cons. by left.
    + rewrite fmap_cons, IH. cbn [fst].
      destruct (decide (k ∈ d.*1)) as [Hin|Hnin].
      * rewrite decide_True; [done|]. rewrite fmap_cons. by right.
      * rewrite decide_False; [done|]. rewrite fmap_cons.
        by intros [?|?]%elem_of_cons.
Qed.

Lemma dict_wf_set k v d : Dict.wf d → Dict.wf (Dict.set k v d).
Proof.
  unfold Dict.wf. rewrite dict_keys_set. case_decide; [done|].
  intros Hnd. apply NoDup_app. split_and!; [done| |apply NoDup_singleton].
  intros x Hx ->%list_elem_of_singleton. done.
Qed.

Lemma dict_get_None k d : Dict.get k d = None ↔ k ∉ Dict.keys d.
Proof.
  unfold Dict.keys. induction d as [|[k0 v0] d IH]; simpl.
  - split; [intros _; apply not_elem_of_nil|done].
  - destruct (decide (k = k0)) as [->|Hne].
    + split; [done|]. intros []. by left.
    + rewrite IH, not_elem_of_cons. tauto.
Qed.

Lemma dict_get_elem k v d : Dict.get k d = Some v → (k, v) ∈ d.
Proof.
  induction d as [|[k0 v0] d IH]; simpl; [done|].
  destruct (decide (k = k0)) as [->|Hne].
  - intros [= ->]. by left.
  - intros Hg. right. by apply IH.
Qed.

Lemma dict_elem_get k v d : Dict.wf d → (k, v) ∈ d → Dict.get k d = Some v.
Proof.
  unfold Dict.wf, Dict.keys. induction d as [|[k0 v0] d IH]; simpl.
  - intros _ Hin. inversion Hin.
  - intros [Hnin Hnd]%NoDup_cons [[= -> ->]|Hin]%elem_of_cons.
    + by rewrite decide_True.
    + rewrite decide_False; [by apply IH|].
      intros ->. apply Hnin. apply list_elem_of_fmap. by exists (k0, v).
Qed.
End DictFacts.

(** ** The Room Locator *)

Lemma list_ascii_app s1 s2 :
  list_ascii_of_string (s1 +:+ s2)
  = list_ascii_of_string s1 ++ list_ascii_of_string s2.
Proof. induction s1 as [|c s1 IH]; simpl; [done|]. by rewrite IH. Qed.

Lemma list_ascii_length s : length (list_ascii_of_string s) = String.length s.
Proof. induction s as [|c s IH]; simpl; [done|]. by rewrite IH. Qed.

Lemma span_not_close_spec t name rest :
  Re.span_not_close t = (name, rest) →
  t = name +:+ rest
  ∧ (rest = EmptyString ∨ ∃ rest', rest = String ")" rest')
  ∧ ")"%char ∉ list_ascii_of_string name.
Proof.
  revert name rest. induction t as [|c t IH]; intros name rest; simpl.
  - intros [= <- <-]. split_and!; [done|by left|apply not_elem_of_nil].
  - destruct (Ascii.eqb_spec c ")") as [->|Hc].
    + intros [= <- <-]. split_and!; [done|right; by eexists|apply not_elem_of_nil].
    + destruct (Re.span_not_close t) as [n r]. intros [= <- <-].
      destruct (IH n r eq_refl) as (-> & Hr & Hn). split_and!; [done|done|].
      simpl. by intros [?|?]%elem_of_cons.
Qed.

Lemma match_here_spec s name :
  Re.match_here s = Some name →
  name ≠ EmptyString
  ∧ (")"%char ∉ list_ascii_of_string name)
  ∧ ∃ post, s = String "(" (name +:+ String ")" post).
Proof.
  destruct s as [|c t]; simpl; [done|].
  destruct (Ascii.eqb_spec c "(") as [->|Hc]; [|done].
  destruct (Re.span_not_close t) as [n r] eqn:Hspan.
  apply span_not_close_spec in Hspan as (-> & Hr & Hn).
  destruct n as [|n0 n]; [done|]. destruct r as [|r0 r]; [done|].
  intros [= <-]. split_and!; [done|done|].
  destruct Hr as [|[r' [= -> ->]]]; [done|]. by exists r'.
Qed.

Lemma finditer_from_spec s : ∀ pos skip start name,
  (start, name) ∈ Re.finditer_from s pos skip →
  name ≠ EmptyString
  ∧ (")"%char ∉ list_ascii_of_string name)
  ∧ ∃ pre post, s = pre +:+ String "(" (name +:+ String ")" post)
                ∧ start = pos + Z.of_nat (String.length pre).
Proof.
  induction s as [|c t IH]; intros pos skip start name;
    cbn [Re.finditer_from].
  { intros H. inversion H. }
  assert (Hshift : (start, name) ∈ Re.finditer_from t (pos + 1)
                     match skip with
                     | S k => k
                     | O => match Re.match_here (String c t) with
                            | Some n => S (String.length n)
                            | None => O
                            end
                     end →
          name ≠ EmptyString
          ∧ (")"%char ∉ list_ascii_of_string name)
          ∧ ∃ pre post, String c t = pre +:+ String "(" (name +:+ String ")" post)
                        ∧ start = pos + Z.of_nat (String.length pre)).
  { intros (Hne & Hcl & pre & post & -> & ->)%IH. split_and!; [done|done|].
    exists (String c pre), post. split; [done|]. simpl. lia. }
  destruct skip as [|k]; [|exact Hshift].
  destruct (Re.match_here (String c t)) as [n|] eqn:Hm; [|exact Hshift].
  intros [[= -> ->]|Hin]%elem_of_cons; [|by apply Hshift].
  apply match_here_spec in Hm as (Hne & Hcl & post & Hs).
  split_and!; [done|done|]. exists EmptyString, post. split; [done|]. simpl. lia.
Qed.

Lemma enumerate_elem {A} (xs : list A) i x :
  (i, x) ∈ enumerate xs → 0 ≤ i ∧ xs !! Z.to_nat i = Some x.
Proof.
  unfold enumerate. intros [n Hn]%list_elem_of_lookup_1.
  apply lookup_zip_Some in Hn as [Hi Hx].
  rewrite list_lookup_fmap in Hi.
  destruct (seq 0 (length xs) !! n) as [j|] eqn:Hj; simpl in Hi; [|done].
  apply lookup_seq in Hj as [-> _]. injection Hi as <-.
  split; [lia|]. by rewrite Nat2Z.id.
Qed.

Section RoomsInv.
Variable P : string → Z * Z → Prop.

Lemma find_rooms_row_inv rooms ir :
  (∀ k v, Dict.get k rooms = Some v → P k v) →
  (∀ start name, (start, name) ∈ Re.finditer (join_row ir.2) →
                 P name (ir.1, start)) →
  ∀ k v, Dict.get k (find_rooms_row rooms ir) = Some v → P k v.
Proof.
  unfold find_rooms_row. generalize (Re.finditer (join_row ir.2)).
  intros ms. revert rooms. induction ms as [|[start name] ms IH];
    intros rooms Hrooms Hms; simpl; [done|].
  apply IH.
  - intros k v. rewrite dict_get_set. case_decide as Hk; [|by apply Hrooms].
    intros [= <-]. subst k. apply Hms. by left.
  - intros. apply Hms. by right.
Qed.

Lemma find_rooms_inv grid :
  (∀ i row start name,
     (i, row) ∈ enumerate grid → (start, name) ∈ Re.finditer (join_row row) →
     P name (i, start)) →
  ∀ k v, Dict.get k (find_rooms grid) = Some v → P k v.
Proof.
  unfold find_rooms. generalize (enumerate grid). intros rows.
  assert (Hinit : ∀ k v, Dict.get k (@nil (string * (Z * Z))) = Some v → P k v)
    by done.
  revert Hinit. generalize (@nil (string * (Z * Z))).
  induction rows as [|[i row] rows IH]; intros rooms Hrooms Hrows; simpl;
    [done|].
  apply IH.
  - apply find_rooms_row_inv; [done|]. intros. eapply Hrows; [by left|done].
  - intros. eapply Hrows; [by right|done].
Qed.
End RoomsInv.

Lemma find_rooms_wf grid : Dict.wf (find_rooms grid).
Proof.
  unfold find_rooms. generalize (enumerate grid). intros rows.
  assert (Hinit : Dict.wf (@nil (string * (Z * Z)))) by constructor.
  revert Hinit. generalize (@nil (string * (Z * Z))).
  induction rows as [|ir rows IH]; intros rooms Hwf; simpl; [done|].
  apply IH. unfold find_rooms_row. generalize (Re.finditer (join_row ir.2)).
  intros ms. revert rooms Hwf. induction ms as [|mt ms IHm]; intros rooms Hwf;
    simpl; [done|].
  apply IHm. by apply dict_wf_set.
Qed.

(** Where a stored room sits in the line of its row: the anchor column
    counts the characters of the line before the opening parenthesis, the
    name follows, then the closing parenthesis. *)
Lemma find_rooms_anchor grid name r c :
  Dict.get name (find_rooms grid) = Some (r, c) →
  name ≠ EmptyString
  ∧ (")"%char ∉ list_ascii_of_string name)
  ∧ 0 ≤ r
  ∧ ∃ row pre post,
      grid !! Z.to_nat r = Some row
      ∧ filter (λ ch, ch ≠ "000"%char) row
        = pre ++ "("%char :: list_ascii_of_string name ++ ")"%char :: post
      ∧ c = Z.of_nat (length pre).
Proof.
  revert name r c.
  cut (∀ k v, Dict.get k (find_rooms grid) = Some v →
         k ≠ EmptyString
         ∧ (")"%char ∉ list_ascii_of_string k)
         ∧ 0 ≤ v.1
         ∧ ∃ row pre post,
             grid !! Z.to_nat v.1 = Some row
             ∧ filter (λ ch, ch ≠ "000"%char) row
               = pre ++ "("%char :: list_ascii_of_string k ++ ")"%char :: post
             ∧ v.2 = Z.of_nat (length pre)).
  { intros H name r c Hg. apply (H name (r, c) Hg). }
  apply find_rooms_inv. intros i row start name [Hi Hrow]%enumerate_elem Hm.
  apply finditer_from_spec in Hm as (Hne & Hcl & pre & post & Hs & ->).
  split_and!; [done|done|done|]. simpl.
  exists row, (list_ascii_of_string pre), (list_ascii_of_string post).
  split_and!; [done| |by rewrite list_ascii_length, Z.add_0_l].
  unfold join_row in Hs.
  rewrite <- (list_ascii_of_string_of_list_ascii (filter _ row)), Hs.
  by rewrite list_ascii_app; simpl; rewrite list_ascii_app.
Qed.

Lemma filter_full (row : list ascii) :
  "000"%char ∉ row → filter (λ ch, ch ≠ "000"%char) row = row.
Proof.
  induction row as [|ch row IH]; [done|].
  intros [Hch Hrow]%not_elem_of_cons. rewrite filter_cons.
  rewrite decide_True by done. by rewrite IH.
Qed.

(** ** Boolean-mask selection *)

Lemma omap_none {A B} (l : list A) : omap (λ _ : A, @None B) l = [].
Proof. by induction l. Qed.

Lemma omap_fmap {A B C} (f : B → option C) (g : A → B) (l : list A) :
  omap f (g <$> l) = omap (f ∘ g) l.
Proof. induction l as [|x l IH]; [done|]. csimpl. by rewrite IH. Qed.

Lemma omap_bind {A B C} (f : B → option C) (g : A → list B) (l : list A) :
  omap f (l ≫= g) = l ≫= (λ x, omap f (g x)).
Proof.
  induction l as [|x l IH]; [done|]. by rewrite !bind_cons, omap_app, IH.
Qed.

Lemma omap_bind_singleton {A B C} (f : B → option C) (g : A → B) (l : list A) :
  omap f (l ≫= λ x, [g x]) = omap (f ∘ g) l.
Proof.
  induction l as [|x l IH]; [done|]. rewrite bind_cons. csimpl. by rewrite IH.
Qed.

Lemma omap_agree {A B} (f g : A → option B) (l : list A) :
  (∀ x, x ∈ l → f x = g x) → omap f l = omap g l.
Proof.
  induction l as [|x l IH]; intros H; [done|]. csimpl.
  rewrite (H x) by (by left). rewrite IH; [done|]. intros; apply H; by right.
Qed.

Lemma bind_nil_fun {A B} (l : list A) : l ≫= (λ _ : A, @nil B) = [].
Proof. by induction l. Qed.

Lemma select_row_spec {A} (row : list A) : ∀ mrow,
  Np.select_row row mrow
  = omap (λ c, match mrow !! c with Some true => row !! c | _ => None end)
         (seq 0 (length row)).
Proof.
  unfold Np.select_row.
  induction row as [|x row IH]; intros [|b mrow]; try done.
  - cbn [zip zip_with]. symmetry. apply (omap_none (seq 0 (length (x :: row)))).
  - cbn [zip zip_with length seq]. rewrite bind_cons, IH.
    rewrite <- fmap_S_seq. csimpl. rewrite omap_fmap. by destruct b.
Qed.

Lemma select_rows_spec {A} (a : list (list A)) : ∀ mask,
  mjoin (zip_with Np.select_row a mask)
  = seq 0 (length a) ≫= λ r, match a !! r, mask !! r with
                              | Some row, Some mrow => Np.select_row row mrow
                              | _, _ => []
                              end.
Proof.
  induction a as [|row a IH]; intros [|mrow mask]; try done.
  - cbn [zip_with mjoin list_join]. symmetry.
    etrans; [|apply (bind_nil_fun (seq 0 (length (row :: a))))].
    apply list_bind_ext; [|done]. intros r. by destruct ((row :: a) !! r).
  - cbn [zip_with length seq]. rewrite bind_cons. cbn [mjoin list_join].
    change (list_join ?l) with (mjoin l).
    rewrite IH, <- fmap_S_seq, list_fmap_bind. done.
Qed.

Lemma shape_rows_cols {A} (a : list (list A)) cols row r :
  Np.rectangular a cols → a !! r = Some row →
  Z.to_nat (Np.shape a).2 = length row.
Proof.
  intros Hrect Hrow. unfold Np.rectangular in Hrect.
  rewrite Forall_forall in Hrect.
  destruct a as [|row0 a]; [done|]. unfold Np.shape. simpl.
  rewrite Nat2Z.id, (Hrect row0) by (by left).
  symmetry. apply Hrect. by eapply list_elem_of_lookup_2.
Qed.

Lemma cell_of_nat {A} (a : list (list A)) (r c : nat) :
  Np.cell a (Z.of_nat r, Z.of_nat c) = a !! r ≫= (λ row, row !! c).
Proof. rewrite cell_lookup by (simpl; lia). simpl. by rewrite !Nat2Z.id. Qed.

(** [a[mask]] lists the cells under the mask in row-major order. *)
Lemma select_spec {A} (a : list (list A)) (mask : list (list bool)) cols :
  Np.rectangular a cols → length <$> a = length <$> mask →
  Np.select a mask = Some (masked_cells a mask).
Proof.
  intros Hrect Hshape. unfold Np.select, Np.same_shape.
  rewrite bool_decide_eq_true_2 by done. f_equal.
  rewrite select_rows_spec. unfold masked_cells, Np.row_major.
  rewrite omap_bind.
  replace (Z.to_nat (Np.shape a).1) with (length a)
    by (unfold Np.shape; simpl; lia).
  apply Forall_bind_ext, Forall_forall. intros r Hr%elem_of_seq.
  destruct (lookup_lt_is_Some_2 a r) as [row Hrow]; [lia|].
  destruct (lookup_lt_is_Some_2 mask r) as [mrow Hmrow].
  { rewrite <- (length_fmap length mask), <- Hshape, length_fmap. lia. }
  rewrite Hrow, Hmrow, select_row_spec.
  rewrite (omap_bind_singleton _ (λ c, (Z.of_nat r, Z.of_nat c))).
  rewrite (shape_rows_cols a cols row r) by done.
  apply omap_agree. intros c _. simpl.
  rewrite !cell_of_nat, Hrow, Hmrow. done.
Qed.

Lemma filter_omap_length {A B} `{EqDecision B} (f : A → option B) (y : B)
    (l : list A) :
  length (filter (λ x, x = y) (omap f l))
  = length (filter (λ x, f x = Some y) l).
Proof.
  induction l as [|x l IH]; [done|]. csimpl. rewrite (filter_cons _ x).
  destruct (f x) as [y'|] eqn:Hfx.
  - rewrite filter_cons. destruct (decide (y' = y)) as [->|Hy].
    + rewrite decide_True by done. simpl. by rewrite IH.
    + rewrite decide_False; [done|]. by intros [= ?].
  - by rewrite decide_False.
Qed.

Lemma cell_eq_scalar (labels : list (list Z)) v p :
  Np.cell (Np.eq_scalar labels v) p = (λ x, x =? v) <$> Np.cell labels p.
Proof.
  unfold Np.cell, Np.eq_scalar. destruct (_ && _); [|done].
  rewrite list_lookup_fmap. destruct (labels !! Z.to_nat p.1); [|done].
  simpl. by rewrite list_lookup_fmap.
Qed.

Lemma eq_scalar_lengths (labels : list (list Z)) v :
  length <$> Np.eq_scalar labels v = length <$> labels.
Proof.
  unfold Np.eq_scalar. rewrite <- list_fmap_compose.
  apply list_fmap_ext. intros _ row _. simpl. apply length_map.
Qed.

(** The number of selected cells equal to [ch] is the number of positions
    with the label that hold [ch]. *)
Lemma count_masked room_array labels lab ch :
  Np.count_eq (masked_cells room_array (Np.eq_scalar labels lab)) ch
  = region_count room_array labels lab ch.
Proof.
  unfold Np.count_eq, region_count, masked_cells. f_equal.
  rewrite filter_omap_length. f_equal. apply filter_agree. intros p _.
  rewrite cell_eq_scalar. destruct (Np.cell labels p) as [v|]; simpl.
  - destruct (Z.eqb_spec v lab) as [->|Hne].
    + split; [done|by intros [_ ?]].
    + split; [done|intros [[= ?] _]; done].
  - split; [done|by intros [? _]].
Qed.

Lemma dict_comp_chair_types {V} (f : ascii → V) :
  dict_comp f CHAIR_TYPES
  = [("W"%char, f "W"%char); ("P"%char, f "P"%char);
     ("S"%char, f "S"%char); ("C"%char, f "C"%char)].
Proof. reflexivity. Qed.

Lemma count_region_spec room_array labels cols lab :
  Np.rectangular room_array cols → length <$> labels = length <$> room_array →
  count_region room_array labels lab
  = Some (region_counts room_array labels lab).
Proof.
  intros Hrect Hshape. unfold count_region.
  rewrite (select_spec _ _ cols) by (by rewrite ?eq_scalar_lengths). simpl.
  by rewrite dict_comp_chair_types, !count_masked.
Qed.

(** ** The Chair Aggregator *)

Lemma get_cell {A} (a : list (list A)) r c :
  0 ≤ r → 0 ≤ c → Np.get a r c = Np.cell a (r, c).
Proof.
  intros Hr Hc. rewrite cell_lookup by done. unfold Np.get, Np.index. simpl.
  destruct (Z.leb_spec 0 r); [|lia]. destruct (Z.ltb_spec r (Z.of_nat (length a))).
  - simpl. destruct (a !! Z.to_nat r) as [row|]; [|done]. simpl.
    destruct (Z.leb_spec 0 c); [|lia].
    destruct (Z.ltb_spec c (Z.of_nat (length row))); [done|].
    simpl. symmetry. apply lookup_ge_None. lia.
  - simpl. symmetry. rewrite (proj2 (lookup_ge_None a (Z.to_nat r))); [done|lia].
Qed.

Lemma add_counts_spec a b c d a' b' c' d' :
  add_counts (chair_counts a b c d) (chair_counts a' b' c' d')
  = Some (chair_counts (a + a') (b + b') (c + c') (d + d')).
Proof. reflexivity. Qed.

Lemma sum_type_cons name w p s c t :
  sum_type "W" ((name, chair_counts w p s c) :: t) = w + sum_type "W" t
  ∧ sum_type "P" ((name, chair_counts w p s c) :: t) = p + sum_type "P" t
  ∧ sum_type "S" ((name, chair_counts w p s c) :: t) = s + sum_type "S" t
  ∧ sum_type "C" ((name, chair_counts w p s c) :: t) = c + sum_type "C" t.
Proof. done. Qed.

Section Aggregator.
Variables (room_array : list (list ascii)) (labels : list (list Z)).
Variable cols : nat.
Hypothesis Hrect : Np.rectangular room_array cols.
Hypothesis Hshape : length <$> labels = length <$> room_array.

Lemma count_room_spec a b c d rc name row col lab :
  Np.get labels row col = Some lab →
  count_room room_array labels (chair_counts a b c d, rc) (name, (row, col))
  = Some (chair_counts (a + region_count room_array labels lab "W")
                       (b + region_count room_array labels lab "P")
                       (c + region_count room_array labels lab "S")
                       (d + region_count room_array labels lab "C"),
          Dict.set name (region_counts room_array labels lab) rc).
Proof.
  intros Hlab. unfold count_room. cbn [fst snd]. rewrite Hlab.
  cbn [mbind option_bind]. rewrite (count_region_spec _ _ cols) by done.
  cbn [mbind option_bind]. unfold region_counts.
  by rewrite add_counts_spec.
Qed.

Lemma count_chairs_fold rest : ∀ a b c d rc,
  NoDup (Dict.keys rc ++ Dict.keys rest) →
  Forall (λ room : string * (Z * Z),
            is_Some (Np.get labels room.2.1 room.2.2)) rest →
  let new := room_entry room_array labels <$> rest in
  foldl (λ acc room, st ← acc; count_room room_array labels st room)
        (Some (chair_counts a b c d, rc)) rest
  = Some (chair_counts (a + sum_type "W" new) (b + sum_type "P" new)
                       (c + sum_type "S" new) (d + sum_type "C" new),
          rc ++ new).
Proof.
  induction rest as [|[name [row col]] rest IH]; intros a b c d rc Hnd Hall.
  { simpl. by rewrite !Z.add_0_r, app_nil_r. }
  apply Forall_cons in Hall as [[lab Hlab] Hall]. simpl in Hlab.
  cbn [foldl mbind option_bind]. rewrite (count_room_spec _ _ _ _ _ _ _ _ lab Hlab).
  assert (Hfresh : name ∉ Dict.keys rc).
  { apply NoDup_app in Hnd as (_ & Hd & _). intros Hin.
    apply (Hd name Hin). by left. }
  rewrite dict_set_fresh by done. rewrite IH; [|..|done].
  - rewrite fmap_cons.
    assert (Hentry : room_entry room_array labels (name, (row, col))
                     = (name, region_counts room_array labels lab)).
    { unfold room_entry. simpl. by rewrite Hlab. }
    rewrite Hentry, <- (app_assoc rc). unfold region_counts.
    destruct (sum_type_cons name
                (region_count room_array labels lab "W")
                (region_count room_array labels lab "P")
                (region_count room_array labels lab "S")
                (region_count room_array labels lab "C")
                (room_entry room_array labels <$> rest))
      as (-> & -> & -> & ->).
    by rewrite !Z.add_assoc.
  - unfold Dict.keys in *. rewrite fmap_app. simpl.
    rewrite <- app_assoc. done.
Qed.

Lemma count_chairs_spec rooms :
  Dict.wf rooms →
  Forall (λ room : string * (Z * Z),
            is_Some (Np.get labels room.2.1 room.2.2)) rooms →
  let room_counts := room_entry room_array labels <$> rooms in
  count_chairs room_array labels rooms
  = Some (chair_counts (sum_type "W" room_counts) (sum_type "P" room_counts)
                       (sum_type "S" room_counts) (sum_type "C" room_counts),
          room_counts).
Proof.
  intros Hwf Hall. unfold count_chairs. rewrite dict_comp_chair_types.
  apply (count_chairs_fold rooms 0 0 0 0 []); done.
Qed.
End Aggregator.

(** ** The report *)

Lemma format_counts_spec counts w p s c :
  Dict.get "W"%char counts = Some w → Dict.get "P"%char counts = Some p →
  Dict.get "S"%char counts = Some s → Dict.get "C"%char counts = Some c →
  format_counts counts = Some (counts_line w p s c).
Proof.
  intros Hw Hp Hs Hc. unfold format_counts, CHAIR_TYPES.
  cbn [mapM mbind option_bind]. rewrite Hw, Hp, Hs, Hc. reflexivity.
Qed.

Lemma insert_sorted_perm x l : insert_sorted x l ≡ₚ x :: l.
Proof.
  induction l as [|y l IH]; simpl; [done|].
  destruct (String.leb x y); [done|]. rewrite IH. apply Permutation_swap.
Qed.

Lemma sorted_perm l : sorted l ≡ₚ l.
Proof.
  induction l as [|x l IH]; simpl; [done|].
  by rewrite insert_sorted_perm, IH.
Qed.

Lemma insert_sorted_sorted x l :
  Sorted name_le l → Sorted name_le (insert_sorted x l).
Proof.
  induction 1 as [|y l Hl IH Hhd]; simpl.
  { repeat constructor. }
  destruct (String.leb x y) eqn:Hxy.
  - repeat constructor; done.
  - constructor; [done|].
    assert (Hyx : name_le y x).
    { destruct (String.leb_total x y) as [H|H]; [congruence|done]. }
    destruct Hhd as [|z l Hyz]; simpl; [by constructor|].
    destruct (String.leb x z); by constructor.
Qed.

Lemma sorted_sorted l : Sorted name_le (sorted l).
Proof.
  induction l as [|x l IH]; simpl; [constructor|].
  by apply insert_sorted_sorted.
Qed.

Lemma name_le_lt a b : name_le a b → a ≠ b → name_lt a b.
Proof.
  unfold name_le, name_lt, String.leb, String.ltb.
  destruct (String.compare a b) eqn:Hc; try done.
  intros _ Hne. by apply String.compare_eq_iff in Hc.
Qed.

Lemma sorted_strict l : NoDup l → Sorted name_lt (sorted l).
Proof.
  intros Hnd. rewrite <- sorted_perm in Hnd.
  pose proof (sorted_sorted l) as Hs. revert Hnd.
  induction Hs as [|x k Hk IH Hhd]; intros Hnd; [constructor|].
  apply NoDup_cons in Hnd as [Hx Hnd]. constructor; [by apply IH|].
  destruct Hhd as [|y k Hxy]; constructor.
  apply name_le_lt; [done|]. intros ->. apply Hx. by left.
Qed.

Lemma mapM_fun {A B} (f : A → option B) (g : A → B) (l : list A) :
  (∀ x, x ∈ l → f x = Some (g x)) → mapM f l = Some (g <$> l).
Proof.
  intros H. apply mapM_Some_2. induction l as [|x l IH]; [constructor|].
  csimpl. constructor; [apply H; by left|]. apply IH. intros; apply H; by right.
Qed.

Lemma report_spec total room_counts (tot : ascii → Z) (cnt : string → ascii → Z) :
  (∀ ch, ch ∈ CHAIR_TYPES → Dict.get ch total = Some (tot ch)) →
  (∀ name, name ∈ Dict.keys room_counts →
     ∃ counts, Dict.get name room_counts = Some counts
               ∧ ∀ ch, ch ∈ CHAIR_TYPES → Dict.get ch counts = Some (cnt name ch)) →
  report total room_counts
  = Some ("total:"%string
          :: counts_line (tot "W"%char) (tot "P"%char) (tot "S"%char) (tot "C"%char)
          :: (sorted (Dict.keys room_counts) ≫= λ name,
                [(name ++ ":")%string;
                 counts_line (cnt name "W"%char) (cnt name "P"%char)
                             (cnt name "S"%char) (cnt name "C"%char)])).
Proof.
  intros Htot Hcnt. unfold report.
  assert (Hin : ∀ ch, ch ∈ ["W"; "P"; "S"; "C"]%char → ch ∈ CHAIR_TYPES) by done.
  rewrite (format_counts_spec total (tot "W"%char) (tot "P"%char) (tot "S"%char) (tot "C"%char))
    by (apply Htot, Hin; rewrite !elem_of_cons; auto).
  cbn [mbind option_bind].
  rewrite (mapM_fun _ (λ name, [(name ++ ":")%string;
                                counts_line (cnt name "W"%char) (cnt name "P"%char)
                                            (cnt name "S"%char) (cnt name "C"%char)])).
  - cbn [mbind option_bind]. do 3 f_equal. by rewrite list_join_bind, list_fmap_bind.
  - intros name Hname. rewrite sorted_perm in Hname.
    destruct (Hcnt name Hname) as (counts & -> & Hc). cbn [mbind option_bind].
    rewrite (format_counts_spec counts (cnt name "W"%char) (cnt name "P"%char)
               (cnt name "S"%char) (cnt name "C"%char))
      by (apply Hc, Hin; rewrite !elem_of_cons; auto).
    done.
Qed.

(** ** The walkable mask *)

Lemma walkable_lengths room_array :
  length <$> walkable room_array = length <$> room_array.
Proof.
  unfold walkable, isin_invert. rewrite <- list_fmap_compose.
  apply list_fmap_ext. intros _ row _. simpl. apply length_map.
Qed.

Lemma walkable_rectangular room_array cols :
  Np.rectangular room_array cols → Np.rectangular (walkable room_array) cols.
Proof.
  unfold Np.rectangular, walkable, isin_invert. intros Hrect.
  apply Forall_fmap. eapply Forall_impl; [done|].
  intros row <-. simpl. apply length_map.
Qed.

Lemma cell_walkable room_array p :
  Np.cell (walkable room_array) p
  = (λ ch, negb (bool_decide (ch ∈ WALL_CHARS))) <$> Np.cell room_array p.
Proof.
  unfold Np.cell, walkable, isin_invert. destruct (_ && _); [|done].
  rewrite list_lookup_fmap. destruct (room_array !! Z.to_nat p.1); [|done].
  simpl. by rewrite list_lookup_fmap.
Qed.

(** ** Consequences of the scan invariant *)

Section Labelled.
Variables (m : list (list bool)) (cols : nat) (L : list (list Z)) (n : Z).
Hypothesis Hrect : Np.rectangular m cols.
Hypothesis Hinv :
  scan_inv m (Np.row_major (Z.to_nat (Np.shape m).1)
                           (Z.to_nat (Np.shape m).2)) L (n + 1).

Lemma labelled_walk p : walk m p → ∃ v, Np.cell L p = Some v ∧ 0 < v.
Proof.
  intros Hp. destruct (Hinv.(si_done _ _ _ _) p) as (v & Hv & Hv0).
  - eapply rectangular_cells; [done|by eexists].
  - done.
  - exists v. split; [done|]. pose proof (Hinv.(si_range _ _ _ _) p v Hv). lia.
Qed.

Lemma labelled_wall p : Np.cell m p = Some false → Np.cell L p = Some 0.
Proof.
  intros Hp. destruct (cell_same_shape m L p) as [v Hv].
  { symmetry. apply Hinv. }
  { by eexists. }
  destruct (decide (v = 0)) as [->|Hv0]; [done|].
  pose proof (Hinv.(si_wall _ _ _ _) p v Hv Hv0) as Hw.
  unfold walk in Hw. congruence.
Qed.

Lemma labelled_connected p q :
  connected m p q → Np.cell L p = Np.cell L q.
Proof.
  induction 1 as [|p q r Hp Hadj Hqr IH]; [done|].
  destruct (labelled_walk p Hp) as (v & Hv & Hv0). rewrite <- IH, Hv.
  symmetry. eapply Hinv; [done|lia|done|]. by eapply connected_walk_l.
Qed.

Lemma labelled_same p q :
  walk m p → Np.cell L p = Np.cell L q → connected m p q.
Proof.
  intros Hp Heq. destruct (labelled_walk p Hp) as (v & Hv & Hv0).
  eapply Hinv; [done|congruence|lia].
Qed.
End Labelled.

(** ** Anchors in the grid *)

Lemma cell_in_row {A} (a : list (list A)) r row (c : nat) :
  0 ≤ r → a !! Z.to_nat r = Some row →
  Np.cell a (r, Z.of_nat c) = row !! c.
Proof.
  intros Hr Hrow. rewrite cell_lookup by (simpl; lia). simpl.
  by rewrite Hrow, Nat2Z.id.
Qed.

(** The anchor of a stored room is a cell of the plan. *)
Lemma find_rooms_in_array room_array name pos :
  Dict.get name (find_rooms room_array) = Some pos →
  is_Some (Np.cell room_array pos).
Proof.
  destruct pos as [r c].
  intros (_ & _ & Hr & row & pre & post & Hrow & Hline & ->)%find_rooms_anchor.
  rewrite (cell_in_row _ _ _ _ Hr Hrow). apply lookup_lt_is_Some.
  pose proof (length_filter (λ ch, ch ≠ "000"%char) row) as Hle.
  rewrite Hline, length_app in Hle. simpl in Hle. lia.
Qed.

Lemma row_full_lookup room_array r row :
  0 ≤ r → room_array !! Z.to_nat r = Some row → row_full room_array r →
  "000"%char ∉ row.
Proof.
  intros Hr Hrow Hfull [i Hi]%list_elem_of_lookup_1.
  apply (Hfull (Z.of_nat i)). by rewrite (cell_in_row _ _ _ _ Hr Hrow).
Qed.

Lemma row_full_intro room_array r row :
  room_array !! Z.to_nat r = Some row → "000"%char ∉ row →
  row_full room_array r.
Proof.
  intros Hrow Hnul c Hc. unfold Np.cell in Hc. cbn [fst snd] in Hc.
  destruct ((0 <=? r) && (0 <=? c)); [|done].
  rewrite Hrow in Hc. simpl in Hc. apply Hnul. by eapply list_elem_of_lookup_2.
Qed.

Lemma find_rooms_on_parenthesis room_array name pos :
  Dict.get name (find_rooms room_array) = Some pos →
  row_full room_array pos.1 →
  anchor_on_parenthesis room_array name pos.
Proof.
  destruct pos as [r c].
  intros (_ & _ & Hr & row & pre & post & Hrow & Hline & ->)%find_rooms_anchor
         Hfull.
  rewrite filter_full in Hline by (by eapply row_full_lookup).
  subst row. unfold anchor_on_parenthesis. simpl. split_and!.
  - rewrite (cell_in_row _ _ _ _ Hr Hrow). by apply list_lookup_middle.
  - intros i ch Hi.
    replace (Z.of_nat (length pre) + 1 + Z.of_nat i)
      with (Z.of_nat (length pre + 1 + i)) by lia.
    rewrite (cell_in_row _ _ _ _ Hr Hrow).
    rewrite lookup_app_r by lia.
    replace (length pre + 1 + i - length pre)%nat with (S i) by lia.
    simpl. by apply lookup_app_l_Some.
  - replace (Z.of_nat (length pre) + 1 + Z.of_nat (String.length name))
      with (Z.of_nat (length pre + 1 + String.length name)) by lia.
    rewrite (cell_in_row _ _ _ _ Hr Hrow).
    rewrite lookup_app_r by lia.
    replace (length pre + 1 + String.length name - length pre)%nat
      with (S (String.length name)) by lia.
    simpl. apply list_lookup_middle. by rewrite list_ascii_length.
Qed.

(** The anchor of a stored room is a walkable cell. *)
Lemma find_rooms_walkable room_array name pos :
  Dict.get name (find_rooms room_array) = Some pos →
  row_full room_array pos.1 →
  walk (walkable room_array) pos.
Proof.
  intros Hget Hfull.
  destruct (find_rooms_on_parenthesis _ _ _ Hget Hfull) as [Hp _].
  unfold walk. by rewrite cell_walkable, Hp.
Qed.

(** ** Rooms and their entries *)

Lemma cell_map {A B} (f : A → B) (a : list (list A)) p :
  Np.cell (map (map f) a) p = f <$> Np.cell a p.
Proof.
  unfold Np.cell. destruct (_ && _); [|done].
  change (map (map f) a) with (map f <$> a). rewrite list_lookup_fmap.
  destruct (a !! Z.to_nat p.1) as [row|]; [|done]. simpl.
  change (map f row) with (f <$> row). by rewrite list_lookup_fmap.
Qed.

Lemma map_map_lengths {A B} (f : A → B) (a : list (list A)) :
  length <$> map (map f) a = length <$> a.
Proof.
  change (map (map f) a) with (map f <$> a). rewrite <- list_fmap_compose.
  apply list_fmap_ext. intros _ row _. simpl. apply length_map.
Qed.

Lemma filter_none {A} (P : A → Prop) `{!∀ x, Decision (P x)} (l : list A) :
  (∀ x, x ∈ l → ¬ P x) → filter P l = [].
Proof.
  induction l as [|x l IH]; intros Hno; [done|].
  rewrite filter_cons_False by (apply Hno; by left).
  apply IH. intros; apply Hno; by right.
Qed.

(** A label array whose zeros are the wall glyphs of the plan. *)
Section ZeroIsWall.
Variables (room_array : list (list ascii)) (labels : list (list Z)).
Hypothesis Hzero :
  Np.eq_scalar labels 0 = map (map negb) (walkable room_array).

Lemma zero_is_wall_lengths : length <$> labels = length <$> room_array.
Proof.
  rewrite <- (eq_scalar_lengths labels 0), Hzero, map_map_lengths.
  apply walkable_lengths.
Qed.

Lemma zero_is_wall_cell p ch :
  Np.cell labels p = Some 0 → Np.cell room_array p = Some ch →
  ch ∈ WALL_CHARS.
Proof.
  intros Hl Hc.
  pose proof (cell_eq_scalar labels 0 p) as Hm.
  rewrite Hzero, cell_map, cell_walkable, Hl, Hc in Hm. simpl in Hm.
  injection Hm as Hm. rewrite negb_involutive in Hm.
  by apply bool_decide_eq_true in Hm.
Qed.

Lemma region_count_wall ch :
  ch ∉ WALL_CHARS → region_count room_array labels 0 ch = 0.
Proof.
  intros Hch. unfold region_count. rewrite filter_none; [done|].
  intros p _ [Hl Hc]. by apply Hch, (zero_is_wall_cell p).
Qed.

Lemma region_counts_wall :
  region_counts room_array labels 0 = chair_counts 0 0 0 0.
Proof.
  unfold region_counts.
  by rewrite !region_count_wall by (by apply (bool_decide_unpack _)).
Qed.
End ZeroIsWall.

Lemma room_entry_keys room_array labels rooms :
  Dict.keys (room_entry room_array labels <$> rooms) = Dict.keys rooms.
Proof.
  unfold Dict.keys. rewrite <- list_fmap_compose. by apply list_fmap_ext.
Qed.

Lemma room_entry_get room_array labels rooms name pos lab :
  Dict.wf rooms →
  Dict.get name rooms = Some pos → Np.get labels pos.1 pos.2 = Some lab →
  Dict.get name (room_entry room_array labels <$> rooms)
  = Some (region_counts room_array labels lab).
Proof.
  intros Hwf Hget Hlab. apply dict_elem_get.
  - unfold Dict.wf. by rewrite room_entry_keys.
  - apply list_elem_of_fmap. exists (name, pos). split.
    + unfold room_entry. simpl. by rewrite Hlab.
    + by apply dict_get_elem.
Qed.

(** Anchors recorded by the Room Locator can be read in every array of
    the plan's shape. *)
Lemma find_rooms_readable {A} room_array (labels : list (list A)) :
  length <$> labels = length <$> room_array →
  Forall (λ room : string * (Z * Z), is_Some (Np.get labels room.2.1 room.2.2))
         (find_rooms room_array).
Proof.
  intros Hshape. apply Forall_forall. intros [name [r c]] Hin. simpl.
  apply dict_elem_get in Hin; [|apply find_rooms_wf].
  apply find_rooms_in_array in Hin as [ch Hcell].
  destruct (cell_Some_nonneg _ _ _ Hcell). rewrite get_cell by done.
  eapply cell_same_shape; [symmetry; exact Hshape|by eexists].
Qed.

(** Two arrays of one shape with the same cells are equal. *)
Lemma array_ext {A} (a b : list (list A)) :
  length <$> a = length <$> b →
  (∀ p, Np.cell a p = Np.cell b p) → a = b.
Proof.
  intros Hshape Hcell. apply list_eq. intros i.
  pose proof (f_equal (λ l, l !! i) Hshape) as Hi. simpl in Hi.
  rewrite !list_lookup_fmap in Hi.
  destruct (a !! i) as [ra|] eqn:Ha, (b !! i) as [rb|] eqn:Hb;
    simpl in Hi; try done.
  f_equal. apply list_eq. intros j.
  specialize (Hcell (Z.of_nat i, Z.of_nat j)).
  by rewrite !cell_of_nat, Ha, Hb in Hcell.
Qed.

(** The label array of the Region Labeler is 0 exactly on the wall
    glyphs of the plan. *)
Lemma scipy_label_zero_is_wall room_array cols labels n :
  Np.rectangular room_array cols →
  scipy_label (walkable room_array) CROSS = Some (labels, n) →
  Np.eq_scalar labels 0 = map (map negb) (walkable room_array).
Proof.
  intros Hrect%walkable_rectangular Hlabel.
  destruct (scipy_label_scan _ _ Hrect) as (L & n' & Hlabel' & Hinv).
  rewrite Hlabel in Hlabel'. injection Hlabel' as <- <-.
  apply array_ext.
  - rewrite eq_scalar_lengths, map_map_lengths. apply Hinv.
  - intros p. rewrite cell_eq_scalar, cell_map.
    destruct (Np.cell (walkable room_array) p) as [[]|] eqn:Hp.
    + destruct (labelled_walk _ _ _ _ Hrect Hinv p Hp) as (v & -> & Hv).
      simpl. f_equal. apply Z.eqb_neq. lia.
    + by rewrite (labelled_wall _ _ _ Hinv p Hp).
    + destruct (Np.cell labels p) as [v|] eqn:Hv; [|done].
      destruct (cell_same_shape labels (walkable room_array) p) as [x Hx];
        [apply Hinv|by eexists|congruence].
Qed.

Example diagonal_cells_apart :
  scipy_label [[true; false]; [false; true]] CROSS
  = Some ([[1; 0]; [0; 2]], 2)
  ∧ ¬ adjacent (0, 0) (1, 1).
Proof. split; [vm_compute; reflexivity|unfold adjacent; simpl; lia]. Qed.

(** ** The labelling a row-major scan prescribes *)

Lemma before_asym p q : before p q → ¬ before q p.
Proof. unfold before. lia. Qed.

Lemma before_trans p q r : before p q → before q r → before p r.
Proof. unfold before. lia. Qed.

(** A sorted list has a first element with a given property as soon as
    it has one. *)
Lemma sorted_first (P : Z * Z → Prop) `{!∀ x, Decision (P x)} l :
  StronglySorted before l →
  ∀ p, p ∈ l → P p →
  ∃ f, f ∈ l ∧ P f ∧ ∀ q, q ∈ l → P q → q = f ∨ before f q.
Proof.
  induction 1 as [|x l Hl IH Hall]; intros p Hp HP;
    [by apply elem_of_nil in Hp|].
  rewrite Forall_forall in Hall.
  destruct (decide (P x)) as [Hx|Hx].
  - exists x. split_and!; [by left|done|].
    intros q [->|Hq]%elem_of_cons _; [by left|right; by apply Hall].
  - apply elem_of_cons in Hp as [->|Hp]; [done|].
    destruct (IH p Hp HP) as (f & Hf & HPf & Hmin).
    exists f. split_and!; [by right|done|].
    intros q [->|Hq]%elem_of_cons HPq; [done|by apply Hmin].
Qed.

Lemma first_of_region_eq m p q :
  first_of_region m p → first_of_region m q → connected m p q → p = q.
Proof.
  intros [_ Hfp] [_ Hfq] Hc.
  destruct (Hfp q Hc) as [->|Hb]; [done|].
  destruct (Hfq p (connected_sym _ _ _ Hc)) as [->|Hb']; [done|].
  by destruct (before_asym p q).
Qed.

Section ScanLabelling.
Variables (m : list (list bool)) (cols : nat).
Hypothesis Hrect : Np.rectangular m cols.

(** Every region has a first cell. *)
Lemma region_first (L : list (list Z)) p :
  length <$> L = length <$> m →
  (∀ q, Np.cell m q = Some false → Np.cell L q = Some 0) →
  (∀ q, walk m q → ∃ v, Np.cell L q = Some v ∧ v ≠ 0) →
  (∀ q r, walk m q → walk m r →
          (Np.cell L q = Np.cell L r ↔ connected m q r)) →
  walk m p →
  ∃ f, first_of_region m f ∧ connected m f p.
Proof.
  intros Hshape Hwall Hpos Hregion Hp.
  destruct (Hpos p Hp) as (v & Hv & Hv0).
  destruct (sorted_first (λ q, Np.cell L q = Some v)
              (Np.row_major (Z.to_nat (Np.shape m).1) (Z.to_nat (Np.shape m).2))
              (row_major_sorted _ _) p)
    as (f & Hf & HLf & Hmin); [|done|].
  { eapply rectangular_cells; [done|by eexists]. }
  assert (Hwf : walk m f).
  { destruct (cell_same_shape L m f) as [b Hb]; [done|by eexists|].
    destruct b; [done|]. apply Hwall in Hb. congruence. }
  exists f. split; [split; [done|]|].
  - intros q Hq. apply Hmin.
    + eapply rectangular_cells; [done|]. exists true.
      by eapply connected_walk_r.
    + rewrite <- HLf. symmetry. apply Hregion; [done| |done].
      by eapply connected_walk_r.
  - apply Hregion; [done|done|congruence].
Qed.

Lemma scan_labelling_first L n L' n' :
  scan_labelling m L n → scan_labelling m L' n' →
  ∀ b, 0 ≤ b →
  ∀ p u, first_of_region m p → Np.cell L p = Some u → u ≤ b →
         Np.cell L' p = Some u.
Proof.
  intros HL HL' b Hb. pattern b. apply natlike_ind; [| |done].
  { intros p u [Hp _] Hu Hle.
    destruct (sl_range _ _ _ HL p Hp) as (v & Hv & Hv1).
    rewrite Hu in Hv. injection Hv as <-. lia. }
  clear b Hb. intros b Hb IH p u Hfp Hu Hle.
  destruct (decide (u ≤ b)) as [Hub|Hub]; [by apply (IH p u)|].
  assert (u = Z.succ b) as Hub' by lia. clear Hle Hub.
  pose proof Hfp as [Hp _].
  destruct (sl_range _ _ _ HL p Hp) as (u0 & Hu0 & Hu1).
  rewrite Hu in Hu0. injection Hu0 as <-.
  destruct (sl_range _ _ _ HL' p Hp) as (v' & Hv' & Hv1).
  destruct (Z.lt_trichotomy v' u) as [Hlt|[->|Hgt]]; [exfalso| done |exfalso].
  - destruct (sl_used _ _ _ HL v') as (q & Hfq & Hq); [lia|].
    assert (Hq' : Np.cell L' q = Some v') by (apply (IH q v'); [done|done|lia]).
    assert (Hcon : connected m q p).
    { apply (sl_region _ _ _ HL'); [apply Hfq|done|congruence]. }
    apply (first_of_region_eq m q p Hfq Hfp) in Hcon. subst q.
    rewrite Hu in Hq. injection Hq as ->. lia.
  - destruct (sl_used _ _ _ HL' u) as (q & Hfq & Hq); [lia|].
    destruct (sl_range _ _ _ HL q) as (w & Hw & Hw1); [apply Hfq|].
    assert (Hqp : before q p).
    { apply (sl_order _ _ _ HL' q p u v'); try done. }
    assert (Hwu : w < u).
    { apply (sl_order _ _ _ HL q p w u); try done. }
    assert (Hq' : Np.cell L' q = Some w) by (apply (IH q w); [done|done|lia]).
    rewrite Hq in Hq'. injection Hq' as ->. lia.
Qed.

(** The prescription fixes the label array and the number of labels. *)
Lemma scan_labelling_unique L n L' n' :
  scan_labelling m L n → scan_labelling m L' n' → L' = L ∧ n' = n.
Proof.
  intros HL HL'.
  assert (Hfirst : ∀ L1 n1 L2 n2,
            scan_labelling m L1 n1 → scan_labelling m L2 n2 →
            ∀ p u, first_of_region m p → Np.cell L1 p = Some u →
                   Np.cell L2 p = Some u).
  { intros L1 n1 L2 n2 H1 H2 p u Hfp Hu.
    destruct (sl_range _ _ _ H1 p) as (u0 & Hu0 & Hu1); [apply Hfp|].
    rewrite Hu in Hu0. injection Hu0 as <-.
    apply (scan_labelling_first L1 n1 L2 n2 H1 H2 u); try done; lia. }
  assert (Hcells : ∀ p, Np.cell L' p = Np.cell L p).
  { intros p. destruct (Np.cell m p) as [[]|] eqn:Hm.
    - destruct (region_first L p) as (f & Hff & Hfp); try apply HL; [|done|].
      { intros q Hq. destruct (sl_range _ _ _ HL q Hq) as (v & Hv & Hv1).
        exists v. split; [done|lia]. }
      pose proof Hff as [Hwf _].
      destruct (sl_range _ _ _ HL f Hwf) as (u & Hu & _).
      pose proof (Hfirst L n L' n' HL HL' f u Hff Hu) as Hu'.
      apply (sl_region _ _ _ HL f p Hwf Hm) in Hfp as HLp.
      apply (sl_region _ _ _ HL' f p Hwf Hm) in Hfp as HLp'.
      congruence.
    - rewrite (sl_wall _ _ _ HL p Hm), (sl_wall _ _ _ HL' p Hm). done.
    - destruct (Np.cell L' p) as [x|] eqn:Hx.
      + destruct (cell_same_shape L' m p) as [y Hy];
          [apply HL'|by eexists|congruence].
      + destruct (Np.cell L p) as [y|] eqn:Hy; [|done].
        destruct (cell_same_shape L m p) as [z Hz];
          [apply HL|by eexists|congruence]. }
  split.
  - apply array_ext; [|done].
    rewrite (sl_shape _ _ _ HL), (sl_shape _ _ _ HL'). done.
  - assert (Hle : ∀ L1 n1 L2 n2,
              scan_labelling m L1 n1 → scan_labelling m L2 n2 → n1 ≤ n2).
    { intros L1 n1 L2 n2 H1 H2.
      destruct (decide (n1 ≤ 0)) as [Hn|Hn].
      { pose proof (sl_count _ _ _ H2). lia. }
      destruct (sl_used _ _ _ H1 n1) as (q & Hfq & Hq); [lia|].
      pose proof (Hfirst L1 n1 L2 n2 H1 H2 q n1 Hfq Hq) as Hq'.
      destruct (sl_range _ _ _ H2 q) as (v & Hv & Hv1); [apply Hfq|].
      rewrite Hq' in Hv. injection Hv as <-. lia. }
    pose proof (Hle L n L' n' HL HL'). pose proof (Hle L' n' L n HL' HL). lia.
Qed.

(** The scan invariant at the end of the scan gives the prescribed
    labelling. *)
Lemma scan_inv_labelling L n :
  scan_inv m (Np.row_major (Z.to_nat (Np.shape m).1)
                           (Z.to_nat (Np.shape m).2)) L (n + 1) →
  scan_labelling m L n.
Proof.
  intros Hinv.
  assert (Hregion : ∀ p q, walk m p → walk m q →
            (Np.cell L p = Np.cell L q ↔ connected m p q)).
  { intros p q Hp Hq. split.
    - by eapply labelled_same.
    - by eapply labelled_connected. }
  assert (Hpos : ∀ q, walk m q → ∃ v, Np.cell L q = Some v ∧ v ≠ 0).
  { intros q Hq. destruct (labelled_walk m cols L n Hrect Hinv q Hq)
      as (v & Hv & Hv0). exists v. split; [done|lia]. }
  assert (Hwall : ∀ q, Np.cell m q = Some false → Np.cell L q = Some 0).
  { intros q. by eapply labelled_wall. }
  split.
  - pose proof (si_next _ _ _ _ Hinv). lia.
  - apply Hinv.
  - done.
  - intros p Hp. destruct (labelled_walk m cols L n Hrect Hinv p Hp)
      as (v & Hv & Hv0). exists v. split; [done|].
    pose proof (si_range _ _ _ _ Hinv p v Hv). lia.
  - done.
  - intros j Hj. destruct (si_seeds _ _ _ _ Hinv j) as (q & _ & Hq); [lia|].
    assert (Hwq : walk m q).
    { eapply (si_wall _ _ _ _ Hinv); [done|lia]. }
    destruct (region_first L q) as (f & Hff & Hfq); try done; [apply Hinv|].
    exists f. split; [done|]. rewrite <- Hq. apply Hregion; [apply Hff|done|done].
  - assert (Hlt : ∀ p q v u, first_of_region m p → first_of_region m q →
              Np.cell L p = Some v → Np.cell L q = Some u → v < u →
              before p q).
    { intros p q v u Hfp Hfq Hv Hu Hvu.
      pose proof Hfp as [Hp Hminp]. pose proof Hfq as [Hq _].
      destruct (labelled_walk m cols L n Hrect Hinv p Hp) as (v0 & Hv0 & Hv1).
      rewrite Hv in Hv0. injection Hv0 as <-.
      destruct (si_order _ _ _ _ Hinv q u v Hu) as (r & Hr & Hrq); [lia|].
      assert (Hcon : connected m p r).
      { apply Hregion; [done| |congruence].
        eapply (si_wall _ _ _ _ Hinv); [done|lia]. }
      destruct (Hminp r Hcon) as [->|Hpr]; [done|].
      by eapply before_trans. }
    intros p q v u Hfp Hfq Hv Hu. split; [|by eapply Hlt].
    intros Hpq. destruct (Z.lt_trichotomy v u) as [?|[->|Hgt]]; [done|exfalso..].
    + assert (Hcon : connected m p q).
      { apply Hregion; [apply Hfp|apply Hfq|congruence]. }
      apply (first_of_region_eq m p q Hfp Hfq) in Hcon. subst q.
      by apply (before_irrefl p).
    + apply (before_asym p q Hpq). by eapply (Hlt q p u v).
Qed.
End ScanLabelling.

(** * The claims *)

(** C1. For every rectangular grid the labelling of its walkable mask
    ends with a label array in which every non-walkable cell is 0, every
    walkable cell is positive, and two walkable cells carry the same
    label exactly when a path of walkable cells with up/down/left/right
    steps joins them. *)
Theorem region_labels_are_components (room_array : list (list ascii)) (cols : nat) :
  Np.rectangular room_array cols →
  ∃ labels n,
    scipy_label (walkable room_array) CROSS = Some (labels, n)
    ∧ (∀ p, Np.cell (walkable room_array) p = Some false →
            Np.cell labels p = Some 0)
    ∧ (∀ p, Np.cell (walkable room_array) p = Some true →
            ∃ v, Np.cell labels p = Some v ∧ 0 < v)
    ∧ (∀ p q, walk (walkable room_array) p → walk (walkable room_array) q →
              (Np.cell labels p = Np.cell labels q
               ↔ connected (walkable room_array) p q)).
Proof.
  intros Hrect%walkable_rectangular.
  destruct (scipy_label_scan _ _ Hrect) as (L & n & Hlabel & Hinv).
  exists L, n. split_and!; [done|..].
  - intros p. by eapply labelled_wall.
  - intros p. by eapply labelled_walk.
  - intros p q Hp Hq. split.
    + by eapply labelled_same.
    + by eapply labelled_connected.
Qed.

Lemma region_labels_are_components_witness :
  Np.rectangular (parse_lines ["a|b"; "--/"; " c "]) 3
  ∧ ∃ labels n,
      scipy_label (walkable (parse_lines ["a|b"; "--/"; " c "])) CROSS
      = Some (labels, n)
      ∧ (∀ p, Np.cell (walkable (parse_lines ["a|b"; "--/"; " c "])) p = Some false →
              Np.cell labels p = Some 0)
      ∧ (∀ p, Np.cell (walkable (parse_lines ["a|b"; "--/"; " c "])) p = Some true →
              ∃ v, Np.cell labels p = Some v ∧ 0 < v)
      ∧ (∀ p q, walk (walkable (parse_lines ["a|b"; "--/"; " c "])) p →
                walk (walkable (parse_lines ["a|b"; "--/"; " c "])) q →
                (Np.cell labels p = Np.cell labels q
                 ↔ connected (walkable (parse_lines ["a|b"; "--/"; " c "])) p q)).
Proof.
  assert (H : Np.rectangular (parse_lines ["a|b"; "--/"; " c "]) 3)
    by (repeat constructor).
  split; [exact H|]. exact (region_labels_are_components _ 3 H).
Defined.

(** C6. The labelling of a mask ends, and its result is the label array
    that the row-major first-seed assignment prescribes: walls are 0, the
    labels 1..n stand for the 4-connected regions, and the regions are
    numbered in the order in which a row-major scan meets their first
    cells, so that the first walkable cell starts label 1 and every cell
    labelled [v] comes after a cell of each smaller label.  The
    prescription leaves no choice: every label array that meets it is
    this one, with the same absolute label values, so two labellings of
    one mask cannot differ. *)
Theorem region_labels_follow_scan (m : list (list bool)) (cols : nat) :
  Np.rectangular m cols →
  ∃ L n,
    scipy_label m CROSS = Some (L, n)
    ∧ scan_labelling m L n
    ∧ (∀ L' n', scan_labelling m L' n' → L' = L ∧ n' = n)
    ∧ (∀ p v, Np.cell L p = Some v → 0 ≤ v ≤ n)
    ∧ (∀ p v j, Np.cell L p = Some v → 1 ≤ j < v →
                ∃ q, Np.cell L q = Some j ∧ before q p)
    ∧ (∀ p, walk m p → (∀ q, walk m q → q = p ∨ before p q) →
            Np.cell L p = Some 1).
Proof.
  intros Hrect.
  destruct (scipy_label_scan _ _ Hrect) as (L & n & Hlabel & Hinv).
  pose proof (scan_inv_labelling m cols Hrect L n Hinv) as HL.
  exists L, n. split_and!; [done|done|..].
  - intros L' n' HL'. by apply (scan_labelling_unique m cols Hrect L n L' n').
  - intros p v Hv. pose proof (Hinv.(si_range _ _ _ _) p v Hv). lia.
  - apply Hinv.
  - intros p Hp Hfirst.
    destruct (labelled_walk m cols L n Hrect Hinv p Hp) as (v & Hv & Hv0).
    destruct (decide (v = 1)) as [->|Hv1]; [done|]. exfalso.
    destruct (Hinv.(si_order _ _ _ _) p v 1 Hv) as (q & Hq & Hqp); [lia|].
    assert (Hwq : walk m q) by (by eapply Hinv).
    destruct (Hfirst q Hwq) as [->|Hpq]; [by apply (before_irrefl p)|].
    unfold before in *. lia.
Qed.

Lemma region_labels_follow_scan_witness :
  Np.rectangular [[true; false; true]; [false; false; true]; [true; true; false]] 3
  ∧ ∃ L n,
      scipy_label [[true; false; true]; [false; false; true]; [true; true; false]]
                  CROSS = Some (L, n)
      ∧ scan_labelling
          [[true; false; true]; [false; false; true]; [true; true; false]] L n
      ∧ (∀ L' n',
           scan_labelling
             [[true; false; true]; [false; false; true]; [true; true; false]]
             L' n' →
           L' = L ∧ n' = n)
      ∧ (∀ p v, Np.cell L p = Some v → 0 ≤ v ≤ n)
      ∧ (∀ p v j, Np.cell L p = Some v → 1 ≤ j < v →
                  ∃ q, Np.cell L q = Some j ∧ before q p)
      ∧ (∀ p, walk [[true; false; true]; [false; false; true]; [true; true; false]] p →
              (∀ q, walk [[true; false; true]; [false; false; true]; [true; true; false]] q →
                    q = p ∨ before p q) →
              Np.cell L p = Some 1).
Proof.
  assert (H : Np.rectangular
                [[true; false; true]; [false; false; true]; [true; true; false]] 3)
    by (repeat constructor).
  split; [exact H|]. exact (region_labels_follow_scan _ 3 H).
Defined.

Example scan_labels_three_regions :
  scipy_label [[true; false; true]; [false; false; true]; [true; true; false]]
              CROSS
  = Some ([[1; 0; 2]; [0; 0; 2]; [3; 3; 0]], 3).
Proof. vm_compute. reflexivity. Qed.

(** C2 (as the code has it).  The anchor stored for a room is the cell
    of the opening parenthesis: [match.start()] is the start of the whole
    match.  The first character of the name is in the next cell.  This
    holds for a room in a row without NUL characters, where the columns
    of the joined line are the columns of the row. *)
Theorem anchor_is_opening_parenthesis (room_array : list (list ascii))
    (name : string) (pos : Z * Z) :
  Dict.get name (find_rooms room_array) = Some pos →
  row_full room_array pos.1 →
  anchor_on_parenthesis room_array name pos.
Proof. apply find_rooms_on_parenthesis. Qed.

Lemma anchor_is_opening_parenthesis_witness :
  Dict.get "office"%string (find_rooms (parse_lines ["| (office) |"]))
  = Some (0, 2)
  ∧ row_full (parse_lines ["| (office) |"]) (0, 2).1
  ∧ anchor_on_parenthesis (parse_lines ["| (office) |"]) "office" (0, 2).
Proof.
  assert (H : row_full (parse_lines ["| (office) |"]) (0, 2).1).
  { eapply row_full_intro; [reflexivity|]. by apply (bool_decide_unpack _). }
  split_and!; [reflexivity|exact H|].
  exact (anchor_is_opening_parenthesis
           (parse_lines ["| (office) |"]) "office" (0, 2) eq_refl H).
Defined.

(** C2 as the specification states it fails: for the plan [(a)] the
    stored anchor is column 0, the parenthesis, and not column 1. *)
Lemma anchor_not_on_first_character :
  ¬ (∀ room_array name pos,
       Dict.get name (find_rooms room_array) = Some pos →
       anchor_on_first_character room_array name pos).
Proof.
  intros H.
  destruct (H (parse_lines ["(a)"]) "a"%string (0, 0) eq_refl) as [Hparen _].
  discriminate Hparen.
Qed.

(** C3 (as the code has it).  The name group [[^)]+] needs at least one
    character, so no room is ever stored under the empty name. *)
Theorem empty_name_never_stored (room_array : list (list ascii)) :
  Dict.get EmptyString (find_rooms room_array) = None.
Proof.
  destruct (Dict.get EmptyString (find_rooms room_array)) as [[r c]|] eqn:Hget;
    [|done].
  by apply find_rooms_anchor in Hget as [Hne _].
Qed.

(** C3 as the specification states it fails: the plan [()] holds an
    empty annotation and the Room Locator stores nothing for it. *)
Lemma empty_annotation_not_stored :
  Np.cell (parse_lines ["()"]) (0, 0) = Some "("%char
  ∧ Np.cell (parse_lines ["()"]) (0, 1) = Some ")"%char
  ∧ ¬ is_Some (Dict.get EmptyString (find_rooms (parse_lines ["()"]))).
Proof. split_and!; [done|done|]. by intros [? ?]. Qed.




(** C4. Rooms are not deduplicated by label: every room gets the full
    counts of the region its anchor is labelled with, so two names in one
    region both get that region's counts, and the total of each chair
    type is the sum of that type over all rooms. *)
Theorem shared_region_counted_per_room (room_array : list (list ascii))
    (labels : list (list Z)) (cols : nat) (rooms : list (string * (Z * Z))) :
  Np.rectangular room_array cols →
  length <$> labels = length <$> room_array →
  Dict.wf rooms →
  Forall (λ room : string * (Z * Z),
            is_Some (Np.get labels room.2.1 room.2.2)) rooms →
  ∃ total room_counts,
    count_chairs room_array labels rooms = Some (total, room_counts)
    ∧ Dict.keys room_counts = Dict.keys rooms
    ∧ (∀ name pos lab,
         Dict.get name rooms = Some pos →
         Np.get labels pos.1 pos.2 = Some lab →
         Dict.get name room_counts = Some (region_counts room_array labels lab))
    ∧ (∀ n1 n2 p1 p2 lab,
         n1 ≠ n2 →
         Dict.get n1 rooms = Some p1 → Dict.get n2 rooms = Some p2 →
         Np.get labels p1.1 p1.2 = Some lab →
         Np.get labels p2.1 p2.2 = Some lab → 0 < lab →
         Dict.get n1 room_counts = Some (region_counts room_array labels lab)
         ∧ Dict.get n2 room_counts = Some (region_counts room_array labels lab))
    ∧ (∀ ch, ch ∈ CHAIR_TYPES →
             Dict.get ch total = Some (sum_type ch room_counts)).
Proof.
  intros Hrect Hshape Hwf Hall.
  eexists _, _. split; [by apply (count_chairs_spec _ _ cols)|].
  split_and!.
  - apply room_entry_keys.
  - intros name pos lab. by apply room_entry_get.
  - intros n1 n2 p1 p2 lab _ H1 H2 Hl1 Hl2 _.
    split; by eapply room_entry_get.
  - intros ch. unfold CHAIR_TYPES. rewrite !elem_of_cons, elem_of_nil.
    intros [->|[->|[->|[->|[]]]]]; reflexivity.
Qed.

Lemma shared_region_counted_per_room_witness :
  Np.rectangular (parse_lines ["(a)W(b)"]) 7
  ∧ length <$> [[1; 1; 1; 1; 1; 1; 1]] = length <$> parse_lines ["(a)W(b)"]
  ∧ Dict.wf (find_rooms (parse_lines ["(a)W(b)"]))
  ∧ Forall (λ room : string * (Z * Z),
              is_Some (Np.get [[1; 1; 1; 1; 1; 1; 1]] room.2.1 room.2.2))
           (find_rooms (parse_lines ["(a)W(b)"]))
  ∧ ∃ total room_counts,
      count_chairs (parse_lines ["(a)W(b)"]) [[1; 1; 1; 1; 1; 1; 1]]
                   (find_rooms (parse_lines ["(a)W(b)"]))
      = Some (total, room_counts)
      ∧ Dict.keys room_counts = Dict.keys (find_rooms (parse_lines ["(a)W(b)"]))
      ∧ (∀ name pos lab,
           Dict.get name (find_rooms (parse_lines ["(a)W(b)"])) = Some pos →
           Np.get [[1; 1; 1; 1; 1; 1; 1]] pos.1 pos.2 = Some lab →
           Dict.get name room_counts
           = Some (region_counts (parse_lines ["(a)W(b)"])
                                 [[1; 1; 1; 1; 1; 1; 1]] lab))
      ∧ (∀ n1 n2 p1 p2 lab,
           n1 ≠ n2 →
           Dict.get n1 (find_rooms (parse_lines ["(a)W(b)"])) = Some p1 →
           Dict.get n2 (find_rooms (parse_lines ["(a)W(b)"])) = Some p2 →
           Np.get [[1; 1; 1; 1; 1; 1; 1]] p1.1 p1.2 = Some lab →
           Np.get [[1; 1; 1; 1; 1; 1; 1]] p2.1 p2.2 = Some lab → 0 < lab →
           Dict.get n1 room_counts
           = Some (region_counts (parse_lines ["(a)W(b)"])
                                 [[1; 1; 1; 1; 1; 1; 1]] lab)
           ∧ Dict.get n2 room_counts
             = Some (region_counts (parse_lines ["(a)W(b)"])
                                   [[1; 1; 1; 1; 1; 1; 1]] lab))
      ∧ (∀ ch, ch ∈ CHAIR_TYPES →
               Dict.get ch total = Some (sum_type ch room_counts)).
Proof.
  assert (H1 : Np.rectangular (parse_lines ["(a)W(b)"]) 7)
    by (repeat constructor).
  assert (H2 : length <$> [[1; 1; 1; 1; 1; 1; 1]]
               = length <$> parse_lines ["(a)W(b)"]) by reflexivity.
  assert (H3 : Dict.wf (find_rooms (parse_lines ["(a)W(b)"])))
    by (apply (bool_decide_unpack _); vm_compute; exact I).
  assert (H4 : Forall (λ room : string * (Z * Z),
                         is_Some (Np.get [[1; 1; 1; 1; 1; 1; 1]]
                                         room.2.1 room.2.2))
                      (find_rooms (parse_lines ["(a)W(b)"])))
    by (repeat constructor; by eexists).
  split_and!; [exact H1|exact H2|exact H3|exact H4|].
  exact (shared_region_counted_per_room _ _ 7 _ H1 H2 H3 H4).
Defined.

Example shared_region_double_counted :
  count_chairs (parse_lines ["(a)W(b)"]) [[1; 1; 1; 1; 1; 1; 1]]
               (find_rooms (parse_lines ["(a)W(b)"]))
  = Some (chair_counts 2 0 0 0,
          [("a"%string, chair_counts 1 0 0 0);
           ("b"%string, chair_counts 1 0 0 0)]).
Proof. vm_compute. reflexivity. Qed.

(** C5. With a label array whose zeros are the wall glyphs of the plan,
    a room whose anchor is labelled 0 gets zero for every chair type and
    leaves the running totals as they were. *)
Theorem wall_anchor_counts_zero (room_array : list (list ascii))
    (labels : list (list Z)) (cols : nat) (a b c d : Z)
    (room_counts : list (string * list (ascii * Z)))
    (name : string) (row col : Z) :
  Np.rectangular room_array cols →
  Np.eq_scalar labels 0 = map (map negb) (walkable room_array) →
  Np.get labels row col = Some 0 →
  count_room room_array labels (chair_counts a b c d, room_counts)
             (name, (row, col))
  = Some (chair_counts a b c d,
          Dict.set name (chair_counts 0 0 0 0) room_counts)
  ∧ (∀ rooms,
       Dict.wf rooms →
       Forall (λ room : string * (Z * Z),
                 is_Some (Np.get labels room.2.1 room.2.2)) rooms →
       Dict.get name rooms = Some (row, col) →
       ∃ total counts,
         count_chairs room_array labels rooms = Some (total, counts)
         ∧ Dict.get name counts = Some (chair_counts 0 0 0 0)).
Proof.
  intros Hrect Hzero Hlab.
  pose proof (zero_is_wall_lengths _ _ Hzero) as Hshape.
  pose proof (region_counts_wall _ _ Hzero) as Hcounts.
  split.
  - rewrite (count_room_spec _ _ cols Hrect Hshape _ _ _ _ _ _ _ _ 0 Hlab).
    rewrite Hcounts. unfold region_counts, chair_counts in Hcounts.
    injection Hcounts as -> -> -> ->. by rewrite !Z.add_0_r.
  - intros rooms Hwf Hall Hget. eexists _, _.
    split; [by apply (count_chairs_spec _ _ cols)|].
    rewrite <- Hcounts. by eapply room_entry_get.
Qed.

Lemma wall_anchor_counts_zero_witness :
  Np.rectangular (parse_lines ["+W"]) 2
  ∧ Np.eq_scalar [[0; 1]] 0 = map (map negb) (walkable (parse_lines ["+W"]))
  ∧ Np.get [[0; 1]] 0 0 = Some 0
  ∧ count_room (parse_lines ["+W"]) [[0; 1]] (chair_counts 3 0 0 0, [])
               ("x"%string, (0, 0))
    = Some (chair_counts 3 0 0 0,
            Dict.set "x"%string (chair_counts 0 0 0 0) [])
  ∧ (∀ rooms,
       Dict.wf rooms →
       Forall (λ room : string * (Z * Z),
                 is_Some (Np.get [[0; 1]] room.2.1 room.2.2)) rooms →
       Dict.get "x"%string rooms = Some (0, 0) →
       ∃ total counts,
         count_chairs (parse_lines ["+W"]) [[0; 1]] rooms = Some (total, counts)
         ∧ Dict.get "x"%string counts = Some (chair_counts 0 0 0 0)).
Proof.
  assert (H1 : Np.rectangular (parse_lines ["+W"]) 2) by (repeat constructor).
  assert (H2 : Np.eq_scalar [[0; 1]] 0
               = map (map negb) (walkable (parse_lines ["+W"]))) by reflexivity.
  assert (H3 : Np.get [[0; 1]] 0 0 = Some 0) by reflexivity.
  split_and!; [exact H1|exact H2|exact H3|..];
    apply (wall_anchor_counts_zero (parse_lines ["+W"]) [[0; 1]] 2
             3 0 0 0 [] "x" 0 0 H1 H2 H3).
Defined.

(** C7. The report is the header [total:], the counts line of the
    totals, and for each room a header [<name>:] with its counts line;
    a counts line lists W, P, S, C in this order as [<type>: <count>]
    joined by [", "]; the rooms come in strictly increasing
    lexicographic order of their names. *)
Theorem report_layout (total : list (ascii * Z))
    (room_counts : list (string * list (ascii * Z)))
    (tot : ascii → Z) (cnt : string → ascii → Z) :
  Dict.wf room_counts →
  Forall (λ ch, Dict.get ch total = Some (tot ch)) CHAIR_TYPES →
  Forall (λ e : string * list (ascii * Z),
            Forall (λ ch, Dict.get ch e.2 = Some (cnt e.1 ch)) CHAIR_TYPES)
         room_counts →
  ∃ names,
    names ≡ₚ Dict.keys room_counts
    ∧ Sorted name_lt names
    ∧ report total room_counts
      = Some ("total:"%string
              :: ("W: " ++ str_int (tot "W"%char)
                  ++ ", P: " ++ str_int (tot "P"%char)
                  ++ ", S: " ++ str_int (tot "S"%char)
                  ++ ", C: " ++ str_int (tot "C"%char))%string
              :: (names ≫= λ name,
                    [(name ++ ":")%string;
                     counts_line (cnt name "W"%char) (cnt name "P"%char)
                                 (cnt name "S"%char) (cnt name "C"%char)])).
Proof.
  intros Hwf Htot Hcnt. exists (sorted (Dict.keys room_counts)).
  split_and!; [apply sorted_perm|by apply sorted_strict|].
  apply (report_spec total room_counts tot cnt).
  - intros ch Hch. rewrite Forall_forall in Htot. by apply Htot.
  - intros name Hname. unfold Dict.keys in Hname.
    apply list_elem_of_fmap in Hname as ([name' counts] & -> & Hin).
    exists counts. split; [by apply dict_elem_get|].
    rewrite Forall_forall in Hcnt. specialize (Hcnt _ Hin).
    rewrite Forall_forall in Hcnt. exact Hcnt.
Qed.

Lemma report_layout_witness :
  Dict.wf [("zoo"%string, chair_counts 2 0 0 0);
           ("bar"%string, chair_counts 0 0 0 2)]
  ∧ ∃ names,
      names ≡ₚ Dict.keys [("zoo"%string, chair_counts 2 0 0 0);
                          ("bar"%string, chair_counts 0 0 0 2)]
      ∧ Sorted name_lt names
      ∧ report (chair_counts 2 0 0 2)
               [("zoo"%string, chair_counts 2 0 0 0);
                ("bar"%string, chair_counts 0 0 0 2)]
        = Some ("total:"%string
                :: ("W: " ++ str_int 2 ++ ", P: " ++ str_int 0
                    ++ ", S: " ++ str_int 0 ++ ", C: " ++ str_int 2)%string
                :: (names ≫= λ name,
                      [(name ++ ":")%string;
                       counts_line
                         (if String.eqb name "zoo" then 2 else 0) 0 0
                         (if String.eqb name "zoo" then 0 else 2)])).
Proof.
  assert (H1 : Dict.wf [("zoo"%string, chair_counts 2 0 0 0);
                        ("bar"%string, chair_counts 0 0 0 2)])
    by (apply (bool_decide_unpack _); vm_compute; exact I).
  split; [exact H1|].
  exact (report_layout (chair_counts 2 0 0 2)
           [("zoo"%string, chair_counts 2 0 0 0);
            ("bar"%string, chair_counts 0 0 0 2)]
           (λ ch, default 0 (Dict.get ch (chair_counts 2 0 0 2)))
           (λ name ch,
              default 0 (Dict.get ch
                (chair_counts (if String.eqb name "zoo" then 2 else 0) 0 0
                              (if String.eqb name "zoo" then 0 else 2))))
           H1
           ltac:(repeat constructor) ltac:(repeat constructor)).
Defined.

(** C8. On every rectangular plan the Region Labeler returns a label
    array of the plan's shape and the Chair Aggregator returns its two
    dictionaries, for the rooms of the plan and for any rooms whose
    anchors index the array. *)
Theorem labeler_and_aggregator_total (room_array : list (list ascii))
    (cols : nat) :
  Np.rectangular room_array cols →
  ∃ labels n,
    scipy_label (walkable room_array) CROSS = Some (labels, n)
    ∧ length <$> labels = length <$> room_array
    ∧ is_Some (count_chairs room_array labels (find_rooms room_array))
    ∧ (∀ rooms,
         Dict.wf rooms →
         Forall (λ room : string * (Z * Z),
                   is_Some (Np.get labels room.2.1 room.2.2)) rooms →
         is_Some (count_chairs room_array labels rooms)).
Proof.
  intros Hrect.
  destruct (scipy_label_scan _ _ (walkable_rectangular _ _ Hrect))
    as (L & n & Hlabel & Hinv).
  assert (Hshape : length <$> L = length <$> room_array).
  { rewrite <- walkable_lengths. apply Hinv. }
  exists L, n. split_and!; [done|done|..].
  - rewrite (count_chairs_spec _ _ cols Hrect Hshape);
      [by eexists|apply find_rooms_wf|by apply find_rooms_readable].
  - intros rooms Hwf Hall.
    rewrite (count_chairs_spec _ _ cols Hrect Hshape); [by eexists|done|done].
Qed.

Lemma labeler_and_aggregator_total_witness :
  Np.rectangular (parse_lines ["+-+"; "|-|"; "+-+"]) 3
  ∧ ∃ labels n,
      scipy_label (walkable (parse_lines ["+-+"; "|-|"; "+-+"])) CROSS
      = Some (labels, n)
      ∧ length <$> labels = length <$> parse_lines ["+-+"; "|-|"; "+-+"]
      ∧ is_Some (count_chairs (parse_lines ["+-+"; "|-|"; "+-+"]) labels
                   (find_rooms (parse_lines ["+-+"; "|-|"; "+-+"])))
      ∧ (∀ rooms,
           Dict.wf rooms →
           Forall (λ room : string * (Z * Z),
                     is_Some (Np.get labels room.2.1 room.2.2)) rooms →
           is_Some (count_chairs (parse_lines ["+-+"; "|-|"; "+-+"])
                                 labels rooms)).
Proof.
  assert (H : Np.rectangular (parse_lines ["+-+"; "|-|"; "+-+"]) 3)
    by (repeat constructor).
  split; [exact H|]. exact (labeler_and_aggregator_total _ 3 H).
Defined.

(** C10 fails on the code.  [flood_fill] never labels its start cell
    itself, only cells reached as neighbours: an anchor without walkable
    neighbour keeps the value 1 it shares with every walkable cell that
    no traversal reached.  On the plan [(-)W] the room named [-] is alone
    in its region; with the library labelling it counts no chair, with
    [label_rooms] it counts the [W] of the other region. *)
Theorem own_labels_count_other_region :
  scipy_label (walkable (parse_lines ["(-)W"])) CROSS
  = Some ([[1; 0; 2; 2]], 2)
  ∧ label_rooms (walkable (parse_lines ["(-)W"]))
                (find_rooms (parse_lines ["(-)W"]))
    = Some [[1; 0; 1; 1]]
  ∧ count_chairs (parse_lines ["(-)W"]) [[1; 0; 2; 2]]
                 (find_rooms (parse_lines ["(-)W"]))
    = Some (chair_counts 0 0 0 0, [("-"%string, chair_counts 0 0 0 0)])
  ∧ count_chairs (parse_lines ["(-)W"]) [[1; 0; 1; 1]]
                 (find_rooms (parse_lines ["(-)W"]))
    = Some (chair_counts 1 0 0 0, [("-"%string, chair_counts 1 0 0 0)])
  ∧ main (parse_lines ["(-)W"])
    = Some ["total:"; "W: 0, P: 0, S: 0, C: 0";
            "-:"; "W: 0, P: 0, S: 0, C: 0"]%string
  ∧ main_own_labels (parse_lines ["(-)W"])
    = Some ["total:"; "W: 1, P: 0, S: 0, C: 0";
            "-:"; "W: 1, P: 0, S: 0, C: 0"]%string.
Proof. split_and!; vm_compute; reflexivity. Qed.

(** * Further properties of the program *)

(** ** The scan of [finditer] *)

Lemma finditer_from_shift s : ∀ pos skip,
  Re.finditer_from s pos skip = shift_matches pos (Re.finditer_from s 0 skip).
Proof.
  unfold shift_matches.
  induction s as [|c t IH]; intros pos skip; cbn [Re.finditer_from]; [done|].
  destruct skip as [|k].
  - destruct (Re.match_here (String c t)) as [name|].
    + rewrite fmap_cons. cbn [fst snd]. f_equal.
      rewrite (IH (pos + 1)), (IH (0 + 1)), <- list_fmap_compose.
      apply list_fmap_ext. intros _ [st nm] _. simpl. f_equal. lia.
    + rewrite (IH (pos + 1)), (IH (0 + 1)), <- list_fmap_compose.
      apply list_fmap_ext. intros _ [st nm] _. simpl. f_equal. lia.
  - rewrite (IH (pos + 1)), (IH (0 + 1)), <- list_fmap_compose.
    apply list_fmap_ext. intros _ [st nm] _. simpl. f_equal. lia.
Qed.

(** Characters that are no opening parenthesis start no match. *)
Lemma finditer_from_no_open pre : ∀ s pos,
  "("%char ∉ list_ascii_of_string pre →
  Re.finditer_from (pre +:+ s) pos 0
  = Re.finditer_from s (pos + Z.of_nat (String.length pre)) 0.
Proof.
  induction pre as [|c pre IH]; intros s pos Hno; simpl.
  { f_equal. lia. }
  simpl in Hno. apply not_elem_of_cons in Hno as [Hc Hno].
  destruct (Ascii.eqb_spec c "(") as [->|_]; [done|].
  rewrite IH by done. f_equal. lia.
Qed.

(** The characters of a match are stepped over. *)
Lemma finditer_from_skip pre : ∀ s pos k,
  Re.finditer_from (pre +:+ s) pos (String.length pre + k)
  = Re.finditer_from s (pos + Z.of_nat (String.length pre)) k.
Proof.
  induction pre as [|c pre IH]; intros s pos k; simpl.
  { f_equal. lia. }
  rewrite IH. f_equal. lia.
Qed.

Lemma span_not_close_name name : ∀ post,
  ")"%char ∉ list_ascii_of_string name →
  Re.span_not_close (name +:+ String ")" post) = (name, String ")" post).
Proof.
  induction name as [|c name IH]; intros post Hno; simpl; [done|].
  simpl in Hno. apply not_elem_of_cons in Hno as [Hc Hno].
  destruct (Ascii.eqb_spec c ")") as [->|_]; [done|].
  by rewrite IH.
Qed.

Lemma match_here_annotation name post :
  name ≠ EmptyString → ")"%char ∉ list_ascii_of_string name →
  Re.match_here (String "(" (name +:+ String ")" post)) = Some name.
Proof.
  intros Hne Hno. unfold Re.match_here. simpl.
  rewrite span_not_close_name by done. by destruct name.
Qed.

Lemma append_empty_r s : s +:+ EmptyString = s.
Proof.
  induction s as [|c s IH]; [done|].
  change (String c s +:+ EmptyString) with (String c (s +:+ EmptyString)).
  by rewrite IH.
Qed.

Lemma finditer_no_open s :
  "("%char ∉ list_ascii_of_string s → Re.finditer s = [].
Proof.
  intros Hno. unfold Re.finditer.
  pose proof (finditer_from_no_open s EmptyString 0 Hno) as H.
  by rewrite append_empty_r in H.
Qed.

Lemma finditer_from_skip_match name : ∀ c post pos,
  Re.finditer_from (name +:+ String c post) pos (S (String.length name))
  = Re.finditer_from post (pos + Z.of_nat (String.length name) + 1) 0.
Proof.
  induction name as [|a name IH]; intros c post pos; simpl.
  { f_equal. lia. }
  rewrite IH. f_equal. lia.
Qed.

(** A row that holds an annotation [(name)] with no opening parenthesis
    before it yields the room at the column of that parenthesis; the
    scan goes on behind the closing parenthesis. *)
Theorem finditer_annotation (pre name post : string) :
  "("%char ∉ list_ascii_of_string pre →
  name ≠ EmptyString →
  ")"%char ∉ list_ascii_of_string name →
  Re.finditer (pre +:+ String "(" (name +:+ String ")" post))
  = (Z.of_nat (String.length pre), name)
    :: shift_matches (Z.of_nat (String.length pre + String.length name + 2))
                     (Re.finditer post).
Proof.
  intros Hpre Hne Hname. unfold Re.finditer.
  rewrite finditer_from_no_open by done. cbn [Re.finditer_from].
  rewrite match_here_annotation by done.
  rewrite finditer_from_skip_match, Z.add_0_l. f_equal.
  rewrite finditer_from_shift. f_equal. lia.
Qed.

Lemma finditer_annotation_witness :
  ("("%char ∉ list_ascii_of_string "| ")
  ∧ "office"%string ≠ EmptyString
  ∧ (")"%char ∉ list_ascii_of_string "office")
  ∧ Re.finditer ("| " +:+ String "(" ("office" +:+ String ")" " (b) |"))
    = (Z.of_nat (String.length "| "), "office"%string)
      :: shift_matches
           (Z.of_nat (String.length "| " + String.length "office" + 2))
           (Re.finditer " (b) |").
Proof.
  assert (H1 : "("%char ∉ list_ascii_of_string "| ")
    by (by apply (bool_decide_unpack _)).
  assert (H2 : "office"%string ≠ EmptyString) by done.
  assert (H3 : ")"%char ∉ list_ascii_of_string "office")
    by (by apply (bool_decide_unpack _)).
  split_and!; [exact H1|exact H2|exact H3|].
  exact (finditer_annotation "| " "office" " (b) |" H1 H2 H3).
Defined.

(** ** The assignments of [find_rooms] *)

Section DictUpdate.
Context {K V : Type} `{EqDecision K}.
Implicit Types (d l : list (K * V)) (k : K) (v : V).

Lemma dict_update_app d l1 l2 :
  dict_update d (l1 ++ l2) = dict_update (dict_update d l1) l2.
Proof. unfold dict_update. apply foldl_app. Qed.

Lemma dict_update_other k l : ∀ d,
  k ∉ l.*1 → Dict.get k (dict_update d l) = Dict.get k d.
Proof.
  induction l as [|[k' v'] l IH]; intros d Hk; [done|].
  rewrite fmap_cons in Hk. apply not_elem_of_cons in Hk as [Hne Hk].
  unfold dict_update in *. simpl. rewrite IH by done.
  rewrite dict_get_set. by rewrite decide_False.
Qed.

Lemma dict_update_last d l1 l2 k v :
  k ∉ l2.*1 → Dict.get k (dict_update d (l1 ++ (k, v) :: l2)) = Some v.
Proof.
  intros Hk. rewrite dict_update_app.
  change ((k, v) :: l2) with ([(k, v)] ++ l2).
  rewrite dict_update_app, dict_update_other by done.
  unfold dict_update at 1. simpl. rewrite dict_get_set.
  by rewrite decide_True.
Qed.

Lemma dict_update_keys k l : ∀ d,
  k ∈ Dict.keys (dict_update d l) ↔ k ∈ Dict.keys d ∨ k ∈ l.*1.
Proof.
  induction l as [|[k' v'] l IH]; intros d.
  { simpl. rewrite elem_of_nil. tauto. }
  unfold dict_update in *. cbn [foldl fst snd].
  rewrite IH, dict_keys_set, fmap_cons, elem_of_cons. cbn [fst].
  destruct (decide (k' ∈ Dict.keys d)) as [Hin|Hnin].
  - split; [tauto|]. intros [?|[->|?]]; auto.
  - rewrite elem_of_app, list_elem_of_singleton. tauto.
Qed.
End DictUpdate.

Lemma find_rooms_row_update rooms ir :
  find_rooms_row rooms ir = dict_update rooms (row_matches ir).
Proof.
  unfold find_rooms_row, dict_update, row_matches.
  generalize (Re.finditer (join_row ir.2)). intros ms. revert rooms.
  induction ms as [|m ms IH]; intros rooms; [done|]. csimpl. apply IH.
Qed.

Lemma find_rooms_update grid :
  find_rooms grid = dict_update [] (all_matches grid).
Proof.
  unfold find_rooms, all_matches. generalize (enumerate grid).
  generalize (@nil (string * (Z * Z))). intros rooms rows. revert rooms.
  induction rows as [|ir rows IH]; intros rooms; [done|].
  rewrite bind_cons, dict_update_app. simpl.
  by rewrite IH, find_rooms_row_update.
Qed.

(** When a name is matched more than once, the match scanned last
    (row-major) gives the stored position. *)
Theorem find_rooms_last_wins (grid : list (list ascii))
    (before_it after_it : list (string * (Z * Z))) (name : string) (pos : Z * Z) :
  all_matches grid = before_it ++ (name, pos) :: after_it →
  name ∉ after_it.*1 →
  Dict.get name (find_rooms grid) = Some pos.
Proof.
  intros Hm Hlast. rewrite find_rooms_update, Hm. by apply dict_update_last.
Qed.

Lemma find_rooms_last_wins_witness :
  all_matches (parse_lines ["(a) (b)"; "(a)"])
  = [("a"%string, (0, 0)); ("b"%string, (0, 4))] ++ ("a"%string, (1, 0)) :: []
  ∧ ("a"%string ∉ (@nil (string * (Z * Z))).*1)
  ∧ Dict.get "a"%string (find_rooms (parse_lines ["(a) (b)"; "(a)"]))
    = Some (1, 0).
Proof.
  assert (H1 : all_matches (parse_lines ["(a) (b)"; "(a)"])
               = [("a"%string, (0, 0)); ("b"%string, (0, 4))]
                 ++ ("a"%string, (1, 0)) :: []) by reflexivity.
  assert (H2 : "a"%string ∉ (@nil (string * (Z * Z))).*1)
    by apply not_elem_of_nil.
  split_and!; [exact H1|exact H2|].
  exact (find_rooms_last_wins _ _ _ _ _ H1 H2).
Defined.

(** The stored names are exactly the names matched somewhere in the
    plan: no match is lost and no room is invented. *)
Theorem find_rooms_keys (grid : list (list ascii)) (name : string) :
  name ∈ Dict.keys (find_rooms grid) ↔ name ∈ (all_matches grid).*1.
Proof.
  rewrite find_rooms_update, dict_update_keys. simpl.
  rewrite elem_of_nil. tauto.
Qed.

(** A plan without an opening parenthesis has no room. *)
Lemma find_rooms_no_open grid :
  Forall (λ row, "("%char ∉ row) grid → find_rooms grid = [].
Proof.
  intros Hno. rewrite find_rooms_update.
  replace (all_matches grid) with (@nil (string * (Z * Z))); [done|].
  symmetry. unfold all_matches.
  assert (Hrows : ∀ ir, ir ∈ enumerate grid → row_matches ir = []).
  { intros [i row] [_ Hrow]%enumerate_elem. unfold row_matches, join_row. simpl.
    rewrite finditer_no_open; [done|].
    rewrite list_ascii_of_string_of_list_ascii.
    intros [_ Hin]%list_elem_of_filter. revert Hin.
    rewrite Forall_forall in Hno. apply Hno. by eapply list_elem_of_lookup_2. }
  induction (enumerate grid) as [|ir rows IH]; [done|].
  rewrite bind_cons, Hrows by (by left). simpl. apply IH.
  intros; apply Hrows; by right.
Qed.

(** ** Failures of the Chair Aggregator *)

Lemma count_fold_None room_array labels rooms :
  foldl (λ acc room, st ← acc; count_room room_array labels st room)
        None rooms = None.
Proof. by induction rooms. Qed.

Lemma count_fold_unreadable room_array labels rooms room acc :
  room ∈ rooms → Np.get labels room.2.1 room.2.2 = None →
  foldl (λ acc room, st ← acc; count_room room_array labels st room)
        acc rooms = None.
Proof.
  intros (l1 & l2 & ->)%list_elem_of_split Hget.
  rewrite foldl_app. cbn [foldl].
  destruct (foldl _ acc l1) as [st|]; cbn [mbind option_bind].
  - unfold count_room. rewrite Hget. apply count_fold_None.
  - apply count_fold_None.
Qed.

Lemma index_None n i : Np.index n i = None ↔ i < - Z.of_nat n ∨ Z.of_nat n ≤ i.
Proof.
  unfold Np.index.
  destruct (Z.leb_spec 0 i).
  - destruct (Z.ltb_spec i (Z.of_nat n)); split; try done; lia.
  - destruct (Z.leb_spec 0 (i + Z.of_nat n)); split; try done; lia.
Qed.

Lemma get_out_of_range {A} (a : list (list A)) cols r c :
  Np.rectangular a cols →
  r < - Z.of_nat (length a) ∨ Z.of_nat (length a) ≤ r
  ∨ c < - Z.of_nat cols ∨ Z.of_nat cols ≤ c →
  Np.get a r c = None.
Proof.
  intros Hrect Hout. unfold Np.get.
  destruct (Np.index (length a) r) as [i|] eqn:Hi; [|done]. simpl.
  destruct (a !! i) as [row|] eqn:Hrow; [|done]. simpl.
  assert (Hlen : length row = cols).
  { unfold Np.rectangular in Hrect. rewrite Forall_forall in Hrect.
    apply Hrect. by eapply list_elem_of_lookup_2. }
  rewrite Hlen. destruct (Np.index cols c) as [j|] eqn:Hj; [|done].
  exfalso. destruct Hout as [Hr|[Hr|Hc]].
  - assert (Np.index (length a) r = None) by (apply index_None; lia). congruence.
  - assert (Np.index (length a) r = None) by (apply index_None; lia). congruence.
  - assert (Np.index cols c = None) by (apply index_None; lia). congruence.
Qed.

(** An anchor outside the label array, beyond the wrap-around of
    negative indices, makes the aggregation fail ([IndexError]). *)
Theorem count_chairs_index_error (room_array : list (list ascii))
    (labels : list (list Z)) (cols : nat) (rooms : list (string * (Z * Z)))
    (name : string) (row col : Z) :
  Np.rectangular labels cols →
  (name, (row, col)) ∈ rooms →
  row < - Z.of_nat (length labels) ∨ Z.of_nat (length labels) ≤ row
  ∨ col < - Z.of_nat cols ∨ Z.of_nat cols ≤ col →
  count_chairs room_array labels rooms = None.
Proof.
  intros Hrect Hin Hout. unfold count_chairs.
  apply (count_fold_unreadable _ _ _ (name, (row, col))); [done|].
  by apply (get_out_of_range _ cols).
Qed.

Lemma count_chairs_index_error_witness :
  Np.rectangular [[0; 1]] 2
  ∧ ("x"%string, (0, 2)) ∈ [("x"%string, (0, 2))]
  ∧ (0 < - Z.of_nat (length [[0; 1]]) ∨ Z.of_nat (length [[0; 1]]) ≤ 0
     ∨ 2 < - Z.of_nat 2 ∨ Z.of_nat 2 ≤ 2)
  ∧ count_chairs (parse_lines ["+W"]) [[0; 1]] [("x"%string, (0, 2))] = None.
Proof.
  assert (H1 : Np.rectangular [[0; 1]] 2) by (repeat constructor).
  assert (H2 : ("x"%string, (0, 2)) ∈ [("x"%string, (0, 2))]) by (by left).
  assert (H3 : 0 < - Z.of_nat (length [[0; 1]]) ∨ Z.of_nat (length [[0; 1]]) ≤ 0
               ∨ 2 < - Z.of_nat 2 ∨ Z.of_nat 2 ≤ 2) by (simpl; lia).
  split_and!; [exact H1|exact H2|exact H3|].
  exact (count_chairs_index_error (parse_lines ["+W"]) [[0; 1]] 2
           [("x"%string, (0, 2))] "x" 0 2 H1 H2 H3).
Defined.

(** With a label array of another shape than the plan the boolean-mask
    selection fails as soon as there is a room. *)
Theorem count_chairs_shape_mismatch (room_array : list (list ascii))
    (labels : list (list Z)) (rooms : list (string * (Z * Z))) :
  length <$> room_array ≠ length <$> labels →
  rooms ≠ [] →
  count_chairs room_array labels rooms = None.
Proof.
  intros Hshape Hrooms. destruct rooms as [|room rooms]; [done|].
  unfold count_chairs. cbn [foldl mbind option_bind].
  replace (count_room room_array labels (dict_comp (λ _, 0) CHAIR_TYPES, []) room)
    with (@None (list (ascii * Z) * list (string * list (ascii * Z)))).
  { apply count_fold_None. }
  unfold count_room. destruct (Np.get labels room.2.1 room.2.2) as [lab|]; [|done].
  cbn [mbind option_bind]. unfold count_region, Np.select, Np.same_shape.
  rewrite bool_decide_eq_false_2; [done|]. by rewrite eq_scalar_lengths.
Qed.

Lemma count_chairs_shape_mismatch_witness :
  length <$> parse_lines ["+W"] ≠ length <$> [[0; 1; 1]]
  ∧ [("x"%string, (0, 0))] ≠ []
  ∧ count_chairs (parse_lines ["+W"]) [[0; 1; 1]] [("x"%string, (0, 0))] = None.
Proof.
  assert (H1 : length <$> parse_lines ["+W"] ≠ length <$> [[0; 1; 1]])
    by discriminate.
  assert (H2 : [("x"%string, (0, 0))] ≠ []) by discriminate.
  split_and!; [exact H1|exact H2|].
  exact (count_chairs_shape_mismatch _ _ _ H1 H2).
Defined.

(** ** Counts depend on the masks only *)

Lemma region_counts_mask room_array labels1 labels2 v1 v2 :
  Np.eq_scalar labels1 v1 = Np.eq_scalar labels2 v2 →
  region_counts room_array labels1 v1 = region_counts room_array labels2 v2.
Proof.
  intros Hmask. unfold region_counts. by rewrite <- !count_masked, Hmask.
Qed.

Lemma count_chairs_same_masks room_array cols labels1 labels2 rooms :
  Np.rectangular room_array cols →
  length <$> labels1 = length <$> room_array →
  Dict.wf rooms →
  Forall (λ room : string * (Z * Z),
            is_Some (Np.get labels1 room.2.1 room.2.2)
            ∧ Np.eq_scalar labels1 <$> Np.get labels1 room.2.1 room.2.2
              = Np.eq_scalar labels2 <$> Np.get labels2 room.2.1 room.2.2)
         rooms →
  count_chairs room_array labels1 rooms = count_chairs room_array labels2 rooms.
Proof.
  intros Hrect Hshape1 Hwf Hall. rewrite Forall_forall in Hall.
  destruct (decide (rooms = [])) as [->|Hne]; [done|].
  assert (Hshape2 : length <$> labels2 = length <$> room_array).
  { destruct rooms as [|room rooms]; [done|].
    destruct (Hall room) as [[v1 Hv1] Hm]; [by left|].
    rewrite Hv1 in Hm. destruct (Np.get labels2 _ _) as [v2|]; [|done].
    injection Hm as Hm.
    by rewrite <- (eq_scalar_lengths labels2 v2), <- Hm, eq_scalar_lengths. }
  rewrite (count_chairs_spec _ _ cols Hrect Hshape1), (count_chairs_spec _ _ cols Hrect Hshape2);
    try done.
  - assert (Heq : room_entry room_array labels1 <$> rooms
                  = room_entry room_array labels2 <$> rooms).
    { apply list_fmap_ext. intros i room Hroom%list_elem_of_lookup_2.
      destruct (Hall room Hroom) as [[v1 Hv1] Hm]. unfold room_entry.
      rewrite Hv1 in Hm |- *. destruct (Np.get labels2 _ _) as [v2|]; [|done].
      injection Hm as Hm. simpl. f_equal. by apply region_counts_mask. }
    by rewrite Heq.
  - apply Forall_forall. intros room Hroom.
    destruct (Hall room Hroom) as [[v1 Hv1] Hm].
    rewrite Hv1 in Hm. by destruct (Np.get labels2 _ _).
  - apply Forall_forall. intros room Hroom. by destruct (Hall room Hroom).
Qed.

(** The aggregator uses labels only through the masks [labels ==
    room_label]: two label arrays that give every room the same mask give
    the same totals and per-room counts, whatever the label values. *)
Theorem count_chairs_label_values_irrelevant (room_array : list (list ascii))
    (cols : nat) (labels1 labels2 : list (list Z))
    (rooms : list (string * (Z * Z))) :
  Np.rectangular room_array cols →
  length <$> labels1 = length <$> room_array →
  Dict.wf rooms →
  Forall (λ room : string * (Z * Z),
            is_Some (Np.get labels1 room.2.1 room.2.2)
            ∧ Np.eq_scalar labels1 <$> Np.get labels1 room.2.1 room.2.2
              = Np.eq_scalar labels2 <$> Np.get labels2 room.2.1 room.2.2)
         rooms →
  count_chairs room_array labels1 rooms = count_chairs room_array labels2 rooms.
Proof. apply count_chairs_same_masks. Qed.

Lemma count_chairs_label_values_irrelevant_witness :
  Np.rectangular (parse_lines ["(a)|W(b)"]) 8
  ∧ length <$> [[1; 1; 1; 0; 2; 2; 2; 2]] = length <$> parse_lines ["(a)|W(b)"]
  ∧ Dict.wf (find_rooms (parse_lines ["(a)|W(b)"]))
  ∧ Forall (λ room : string * (Z * Z),
              is_Some (Np.get [[1; 1; 1; 0; 2; 2; 2; 2]] room.2.1 room.2.2)
              ∧ Np.eq_scalar [[1; 1; 1; 0; 2; 2; 2; 2]]
                  <$> Np.get [[1; 1; 1; 0; 2; 2; 2; 2]] room.2.1 room.2.2
                = Np.eq_scalar [[7; 7; 7; 0; 5; 5; 5; 5]]
                    <$> Np.get [[7; 7; 7; 0; 5; 5; 5; 5]] room.2.1 room.2.2)
           (find_rooms (parse_lines ["(a)|W(b)"]))
  ∧ count_chairs (parse_lines ["(a)|W(b)"]) [[1; 1; 1; 0; 2; 2; 2; 2]]
                 (find_rooms (parse_lines ["(a)|W(b)"]))
    = count_chairs (parse_lines ["(a)|W(b)"]) [[7; 7; 7; 0; 5; 5; 5; 5]]
                   (find_rooms (parse_lines ["(a)|W(b)"])).
Proof.
  assert (H1 : Np.rectangular (parse_lines ["(a)|W(b)"]) 8)
    by (repeat constructor).
  assert (H2 : length <$> [[1; 1; 1; 0; 2; 2; 2; 2]]
               = length <$> parse_lines ["(a)|W(b)"]) by reflexivity.
  assert (H3 : Dict.wf (find_rooms (parse_lines ["(a)|W(b)"])))
    by apply find_rooms_wf.
  assert (H4 : Forall (λ room : string * (Z * Z),
              is_Some (Np.get [[1; 1; 1; 0; 2; 2; 2; 2]] room.2.1 room.2.2)
              ∧ Np.eq_scalar [[1; 1; 1; 0; 2; 2; 2; 2]]
                  <$> Np.get [[1; 1; 1; 0; 2; 2; 2; 2]] room.2.1 room.2.2
                = Np.eq_scalar [[7; 7; 7; 0; 5; 5; 5; 5]]
                    <$> Np.get [[7; 7; 7; 0; 5; 5; 5; 5]] room.2.1 room.2.2)
           (find_rooms (parse_lines ["(a)|W(b)"])))
    by (repeat constructor; by eexists).
  split_and!; [exact H1|exact H2|exact H3|exact H4|].
  exact (count_chairs_label_values_irrelevant _ 8 _ _ _ H1 H2 H3 H4).
Defined.

(** ** Missing keys in [format_counts] *)

(** [format_counts] raises [KeyError] exactly when one of the four chair
    types is no key of the counts; other keys play no part. *)
Theorem format_counts_needs_all_types (counts : list (ascii * Z)) :
  is_Some (format_counts counts)
  ↔ Forall (λ ch, is_Some (Dict.get ch counts)) CHAIR_TYPES.
Proof.
  unfold format_counts. split.
  - intros [line Hline].
    destruct (mapM _ CHAIR_TYPES) as [parts|] eqn:Hparts; [|done].
    assert (Hsome : is_Some (mapM (λ ch, n ← Dict.get ch counts;
                       Some (String ch (": " +:+ str_int n))) CHAIR_TYPES))
      by (by eexists).
    apply mapM_is_Some in Hsome. eapply Forall_impl; [exact Hsome|].
    intros ch [x Hx]. unfold compose in Hx.
    destruct (Dict.get ch counts); [by eexists|done].
  - intros Hall.
    assert (Hsome : is_Some (mapM (λ ch, n ← Dict.get ch counts;
                       Some (String ch (": " +:+ str_int n))) CHAIR_TYPES)).
    { apply mapM_is_Some. eapply Forall_impl; [exact Hall|].
      intros ch [n Hn]. unfold compose. rewrite Hn. by eexists. }
    destruct Hsome as [parts ->]. by eexists.
Qed.

(** ** The whole run *)

Lemma chair_counts_get w p s c ch :
  ch ∈ CHAIR_TYPES →
  Dict.get ch (chair_counts w p s c)
  = Some (default 0 (Dict.get ch (chair_counts w p s c))).
Proof.
  unfold CHAIR_TYPES. rewrite !elem_of_cons, elem_of_nil.
  intros [->|[->|[->|[->|[]]]]]; reflexivity.
Qed.

Lemma bind_pair_length {A B} (f g : A → B) (l : list A) :
  length (l ≫= λ x, [f x; g x]) = (2 * length l)%nat.
Proof.
  induction l as [|x l IH]; [done|]. rewrite bind_cons. simpl. rewrite IH. lia.
Qed.

(** The report of [main] on a rectangular plan, written out. *)
Lemma main_spec room_array cols :
  Np.rectangular room_array cols →
  ∃ labels n,
    scipy_label (walkable room_array) CROSS = Some (labels, n)
    ∧ let rooms := find_rooms room_array in
      let room_counts := room_entry room_array labels <$> rooms in
      main room_array
      = Some ("total:"%string
              :: counts_line (sum_type "W" room_counts) (sum_type "P" room_counts)
                             (sum_type "S" room_counts) (sum_type "C" room_counts)
              :: (sorted (Dict.keys rooms) ≫= λ name,
                    [(name ++ ":")%string;
                     counts_line
                       (region_count room_array labels
                          (room_label rooms labels name) "W")
                       (region_count room_array labels
                          (room_label rooms labels name) "P")
                       (region_count room_array labels
                          (room_label rooms labels name) "S")
                       (region_count room_array labels
                          (room_label rooms labels name) "C")])).
Proof.
  intros Hrect.
  destruct (scipy_label_scan _ _ (walkable_rectangular _ _ Hrect))
    as (L & n & Hlabel & Hinv).
  assert (Hshape : length <$> L = length <$> room_array).
  { rewrite <- walkable_lengths. apply Hinv. }
  exists L, n. split; [done|]. intros rooms room_counts.
  unfold main. rewrite Hlabel. cbn [mbind option_bind]. fold rooms.
  rewrite (count_chairs_spec _ _ cols Hrect Hshape);
    [|apply find_rooms_wf|by apply find_rooms_readable].
  cbn [mbind option_bind]. fold room_counts.
  rewrite <- (room_entry_keys room_array L rooms). fold room_counts.
  rewrite (report_spec _ room_counts
           (λ ch, default 0 (Dict.get ch
              (chair_counts (sum_type "W" room_counts) (sum_type "P" room_counts)
                            (sum_type "S" room_counts) (sum_type "C" room_counts))))
           (λ name ch, default 0 (Dict.get ch
              (region_counts room_array L (room_label rooms L name))))).
  - reflexivity.
  - intros ch Hch. by apply chair_counts_get.
  - intros name Hname. unfold room_counts in Hname.
    rewrite room_entry_keys in Hname.
    destruct (Dict.get name rooms) as [pos|] eqn:Hpos;
      [|by apply dict_get_None in Hpos].
    assert (Hread : is_Some (Np.get L pos.1 pos.2)).
    { pose proof (find_rooms_readable room_array L Hshape) as Hall.
      rewrite Forall_forall in Hall.
      apply (Hall (name, pos)). by apply dict_get_elem. }
    destruct Hread as [lab Hlab].
    exists (region_counts room_array L lab). split.
    + apply (room_entry_get _ _ _ _ pos); [apply find_rooms_wf|done|done].
    + intros ch Hch. unfold room_label. rewrite Hpos. cbn [mbind option_bind].
      rewrite Hlab. cbn [default]. by apply chair_counts_get.
Qed.

(** [main] succeeds on every rectangular plan.  It prints the header
    [total:], the line of the sums over all rooms, and for every stored
    room, in sorted order, its header and the counts of the region its
    anchor lies in: two lines per room. *)
Theorem main_reports_every_room (room_array : list (list ascii)) (cols : nat) :
  Np.rectangular room_array cols →
  ∃ labels n lines,
    scipy_label (walkable room_array) CROSS = Some (labels, n)
    ∧ main room_array
      = Some ("total:"%string
              :: counts_line
                   (sum_type "W" (room_entry room_array labels <$> find_rooms room_array))
                   (sum_type "P" (room_entry room_array labels <$> find_rooms room_array))
                   (sum_type "S" (room_entry room_array labels <$> find_rooms room_array))
                   (sum_type "C" (room_entry room_array labels <$> find_rooms room_array))
              :: lines)
    ∧ lines
      = (sorted (Dict.keys (find_rooms room_array)) ≫= λ name,
           [(name ++ ":")%string;
            counts_line
              (region_count room_array labels
                 (room_label (find_rooms room_array) labels name) "W")
              (region_count room_array labels
                 (room_label (find_rooms room_array) labels name) "P")
              (region_count room_array labels
                 (room_label (find_rooms room_array) labels name) "S")
              (region_count room_array labels
                 (room_label (find_rooms room_array) labels name) "C")])
    ∧ length lines = (2 * length (find_rooms room_array))%nat.
Proof.
  intros Hrect. destruct (main_spec _ _ Hrect) as (L & n & Hlabel & Hmain).
  simpl in Hmain. eexists L, n, _. split_and!; [exact Hlabel|exact Hmain|done|].
  rewrite bind_pair_length. f_equal.
  rewrite (Permutation_length (sorted_perm _)). unfold Dict.keys.
  apply length_fmap.
Qed.

Lemma main_reports_every_room_witness :
  Np.rectangular (parse_lines ["(a)|W(b)"]) 8
  ∧ ∃ labels n lines,
    scipy_label (walkable (parse_lines ["(a)|W(b)"])) CROSS = Some (labels, n)
    ∧ main (parse_lines ["(a)|W(b)"])
      = Some ("total:"%string
              :: counts_line
                   (sum_type "W" (room_entry (parse_lines ["(a)|W(b)"]) labels
                                    <$> find_rooms (parse_lines ["(a)|W(b)"])))
                   (sum_type "P" (room_entry (parse_lines ["(a)|W(b)"]) labels
                                    <$> find_rooms (parse_lines ["(a)|W(b)"])))
                   (sum_type "S" (room_entry (parse_lines ["(a)|W(b)"]) labels
                                    <$> find_rooms (parse_lines ["(a)|W(b)"])))
                   (sum_type "C" (room_entry (parse_lines ["(a)|W(b)"]) labels
                                    <$> find_rooms (parse_lines ["(a)|W(b)"])))
              :: lines)
    ∧ lines
      = (sorted (Dict.keys (find_rooms (parse_lines ["(a)|W(b)"]))) ≫= λ name,
           [(name ++ ":")%string;
            counts_line
              (region_count (parse_lines ["(a)|W(b)"]) labels
                 (room_label (find_rooms (parse_lines ["(a)|W(b)"])) labels name) "W")
              (region_count (parse_lines ["(a)|W(b)"]) labels
                 (room_label (find_rooms (parse_lines ["(a)|W(b)"])) labels name) "P")
              (region_count (parse_lines ["(a)|W(b)"]) labels
                 (room_label (find_rooms (parse_lines ["(a)|W(b)"])) labels name) "S")
              (region_count (parse_lines ["(a)|W(b)"]) labels
                 (room_label (find_rooms (parse_lines ["(a)|W(b)"])) labels name) "C")])
    ∧ length lines = (2 * length (find_rooms (parse_lines ["(a)|W(b)"])))%nat.
Proof.
  assert (H : Np.rectangular (parse_lines ["(a)|W(b)"]) 8)
    by (repeat constructor).
  split; [exact H|]. exact (main_reports_every_room _ 8 H).
Defined.

(** A plan without any opening parenthesis is reported with all-zero
    totals and no room section, whatever chairs it holds. *)
Theorem main_without_rooms (room_array : list (list ascii)) (cols : nat) :
  Np.rectangular room_array cols →
  Forall (λ row, "("%char ∉ row) room_array →
  main room_array = Some ["total:"; "W: 0, P: 0, S: 0, C: 0"]%string.
Proof.
  intros Hrect Hno.
  destruct (scipy_label_scan _ _ (walkable_rectangular _ _ Hrect))
    as (L & n & Hlabel & _).
  unfold main. rewrite Hlabel, find_rooms_no_open by done. reflexivity.
Qed.

Lemma main_without_rooms_witness :
  Np.rectangular (parse_lines ["+--+"; "|WC|"; "+--+"]) 4
  ∧ Forall (λ row, "("%char ∉ row) (parse_lines ["+--+"; "|WC|"; "+--+"])
  ∧ main (parse_lines ["+--+"; "|WC|"; "+--+"])
    = Some ["total:"; "W: 0, P: 0, S: 0, C: 0"]%string.
Proof.
  assert (H1 : Np.rectangular (parse_lines ["+--+"; "|WC|"; "+--+"]) 4)
    by (repeat constructor).
  assert (H2 : Forall (λ row, "("%char ∉ row)
                      (parse_lines ["+--+"; "|WC|"; "+--+"]))
    by (repeat constructor; by apply (bool_decide_unpack _)).
  split_and!; [exact H1|exact H2|].
  exact (main_without_rooms _ 4 H1 H2).
Defined.

(** ** The Grid Loader *)

Example newline_code : nat_of_ascii "010" = 10%nat.
Proof. reflexivity. Qed.

Lemma rstrip_newline_cons c t :
  rstrip_newline (c :: t)
  = if decide (rstrip_newline t = [] ∧ c = "010"%char) then []
    else c :: rstrip_newline t.
Proof.
  simpl. destruct (rstrip_newline t) as [|a t'].
  - destruct (Ascii.eqb_spec c "010") as [->|Hc].
    + by rewrite decide_True.
    + rewrite decide_False; [done|]. by intros [_ ?].
  - rewrite decide_False; [done|]. by intros [? _].
Qed.

(** [rstrip] removes the trailing newlines and nothing else. *)
Theorem rstrip_newline_spec (line : list ascii) :
  (∃ k, line = rstrip_newline line ++ replicate k "010"%char)
  ∧ last (rstrip_newline line) ≠ Some "010"%char.
Proof.
  induction line as [|c t [[k Hk] Hlast]]; [split; [by exists 0%nat|done]|].
  rewrite rstrip_newline_cons. case_decide as Hc.
  - destruct Hc as [Ht ->]. split; [|done]. exists (S k).
    rewrite Ht in Hk. simpl in *. by rewrite <- Hk.
  - split.
    + exists k. simpl. by rewrite <- Hk.
    + destruct (rstrip_newline t) as [|a t'] eqn:Ht.
      * simpl. intros [= ->]. by apply Hc.
      * exact Hlast.
Qed.

Lemma foldr_max_ge (l : list nat) x : x ∈ l → (x ≤ foldr Nat.max O l)%nat.
Proof.
  induction l as [|y l IH]; [by intros ?%elem_of_nil|].
  intros [->|Hx]%elem_of_cons; simpl; [lia|]. specialize (IH Hx). lia.
Qed.

Lemma ljust_length n line :
  (length line ≤ n)%nat → length (ljust n line) = n.
Proof. intros Hle. unfold ljust. rewrite length_app, length_replicate. lia. Qed.

Lemma ljust_rectangular (rows : list (list ascii)) :
  Np.rectangular (ljust (foldr Nat.max O (length <$> rows)) <$> rows)
                 (foldr Nat.max O (length <$> rows)).
Proof.
  unfold Np.rectangular. apply Forall_fmap, Forall_forall. intros row Hrow.
  simpl. apply ljust_length, foldr_max_ge, list_elem_of_fmap. by exists row.
Qed.

Lemma parse_floor_plan_some lines :
  lines ≠ [] →
  parse_floor_plan lines
  = Some (ljust (foldr Nat.max O
                   (length <$> ((λ line, rstrip_newline (list_ascii_of_string line))
                                <$> lines)))
          <$> ((λ line, rstrip_newline (list_ascii_of_string line)) <$> lines)).
Proof. unfold parse_floor_plan. by destruct lines. Qed.

(** The plan of a file with lines is a rectangular array with one row
    per line, each row the line without its trailing newlines, padded
    with blanks and never cut. *)
Theorem parse_floor_plan_rectangular (lines : list string) :
  lines ≠ [] →
  ∃ grid width,
    parse_floor_plan lines = Some grid
    ∧ Np.rectangular grid width
    ∧ length grid = length lines
    ∧ ∀ i line, lines !! i = Some line →
        ∃ blanks,
          grid !! i
          = Some (rstrip_newline (list_ascii_of_string line)
                  ++ replicate blanks " "%char).
Proof.
  intros Hne. rewrite parse_floor_plan_some by done.
  eexists _, _. split_and!; [done|apply ljust_rectangular| |].
  - by rewrite !length_fmap.
  - intros i line Hline. eexists.
    rewrite !list_lookup_fmap, Hline. simpl. reflexivity.
Qed.

Lemma parse_floor_plan_rectangular_witness :
  ["+--+" +:+ String "010" ""; "|W" +:+ String "010" ""] ≠ []
  ∧ ∃ grid width,
      parse_floor_plan ["+--+" +:+ String "010" ""; "|W" +:+ String "010" ""]
      = Some grid
      ∧ Np.rectangular grid width
      ∧ length grid
        = length ["+--+" +:+ String "010" ""; "|W" +:+ String "010" ""]
      ∧ ∀ i line,
          ["+--+" +:+ String "010" ""; "|W" +:+ String "010" ""] !! i
          = Some line →
          ∃ blanks,
            grid !! i
            = Some (rstrip_newline (list_ascii_of_string line)
                    ++ replicate blanks " "%char).
Proof.
  assert (H : ["+--+" +:+ String "010" ""; "|W" +:+ String "010" ""] ≠ [])
    by discriminate.
  split; [exact H|]. exact (parse_floor_plan_rectangular _ H).
Defined.

Example parse_floor_plan_two_lines :
  parse_floor_plan ["+--+" +:+ String "010" ""; "|W" +:+ String "010" ""]
  = Some (parse_lines ["+--+"; "|W  "]).
Proof. reflexivity. Qed.

(** From the lines of any non-empty file to the report: parsing gives a
    plan on which [main] succeeds. *)
Theorem parse_then_main_succeeds (lines : list string) :
  lines ≠ [] →
  ∃ grid report_lines,
    parse_floor_plan lines = Some grid ∧ main grid = Some report_lines.
Proof.
  intros Hne. rewrite parse_floor_plan_some by done.
  destruct (main_spec _ _ (ljust_rectangular
              ((λ line, rstrip_newline (list_ascii_of_string line)) <$> lines)))
    as (L & n & _ & Hmain).
  simpl in Hmain. eexists _, _. split; [done|exact Hmain].
Qed.

Lemma parse_then_main_succeeds_witness :
  ["(a)W" +:+ String "010" ""; "--" +:+ String "010" ""] ≠ []
  ∧ ∃ grid report_lines,
      parse_floor_plan ["(a)W" +:+ String "010" ""; "--" +:+ String "010" ""]
      = Some grid
      ∧ main grid = Some report_lines.
Proof.
  assert (H : ["(a)W" +:+ String "010" ""; "--" +:+ String "010" ""] ≠ [])
    by discriminate.
  split; [exact H|]. exact (parse_then_main_succeeds _ H).
Defined.

(** ** The debug output *)

Lemma join_ints_mask_row (row : list bool) :
  list_ascii_of_string
    (join_ints ((λ b : bool, if b then 1 else 0) <$> row))
  = (λ b : bool, if b then "1" else "0")%char <$> row.
Proof.
  unfold join_ints. induction row as [|b row IH]; [done|].
  rewrite !fmap_cons. destruct row as [|b' row].
  - by destruct b.
  - rewrite !fmap_cons in IH |- *. cbn [String.concat].
    rewrite list_ascii_app. cbn [String.concat] in IH.
    rewrite (list_ascii_app EmptyString), IH. by destruct b.
Qed.

(** The debug output has one line per row of the mask and of the label
    array besides its four fixed lines, and line [i + 1] spells row [i]
    of the mask cell by cell: the digit 1 for a walkable cell, the digit
    0 for a wall, and no other character. *)
Theorem print_debug_mask_lines (walkable : list (list bool))
    (labels : list (list Z)) :
  length (print_debug walkable labels)
  = (length walkable + length labels + 4)%nat
  ∧ ∀ i row, walkable !! i = Some row →
      print_debug walkable labels !! S i
      = Some (string_of_list_ascii
                ((λ b : bool, if b then "1" else "0")%char <$> row)).
Proof.
  split.
  - unfold print_debug. rewrite !length_app, !length_fmap.
    unfold Np.astype_int. rewrite length_map. simpl. lia.
  - intros i row Hrow.
    rewrite <- join_ints_mask_row, string_of_list_ascii_of_string.
    unfold print_debug, Np.astype_int. simpl.
    apply lookup_app_l_Some.
    change (map ?f walkable) with (f <$> walkable).
    by rewrite !list_lookup_fmap, Hrow.
Qed.

Example print_debug_two_rows :
  print_debug [[true; false]; [false; true]] [[1; 0]; [0; 12]]
  = ["Walkable areas (1 = walkable, 0 = wall):"; "10"; "01"; "";
     "Labeled regions:"; "10"; "012"; ""]%string.
Proof. reflexivity. Qed.

(** ** The program's flood fill *)

Lemma shape_of_lengths {A B} (a : list (list A)) (b : list (list B)) :
  length <$> a = length <$> b → Np.shape a = Np.shape b.
Proof.
  intros H. unfold Np.shape. destruct a as [|ra a], b as [|rb b]; try done.
  rewrite !fmap_cons in H. injection H as Hr Hl.
  apply (f_equal length) in Hl. rewrite !length_fmap in Hl.
  simpl. by rewrite Hr, Hl.
Qed.

Lemma rectangular_of_lengths {A B} (a : list (list A)) (b : list (list B)) cols :
  length <$> a = length <$> b → Np.rectangular a cols → Np.rectangular b cols.
Proof.
  unfold Np.rectangular. intros H Ha.
  apply (Forall_fmap length (λ n, n = cols)). rewrite <- H.
  by apply (Forall_fmap length (λ n, n = cols)).
Qed.

Lemma shape_cells_exact {A} (a : list (list A)) :
  length (Np.row_major (Z.to_nat (Np.shape a).1) (Z.to_nat (Np.shape a).2))
  = Z.to_nat ((Np.shape a).1 * (Np.shape a).2).
Proof.
  rewrite row_major_length. unfold Np.shape. cbn [fst snd].
  destruct a as [|row a]; [by rewrite Z.mul_0_r|].
  by rewrite <- Nat2Z.inj_mul, !Nat2Z.id.
Qed.

Lemma directions_adjacent p d :
  d ∈ DIRECTIONS → adjacent p (p.1 + d.1, p.2 + d.2).
Proof.
  unfold DIRECTIONS. rewrite !elem_of_cons, elem_of_nil. unfold adjacent.
  intros [->|[->|[->|[->|[]]]]]; simpl; lia.
Qed.

Lemma adjacent_directions p q :
  adjacent p q → ∃ d, d ∈ DIRECTIONS ∧ q = (p.1 + d.1, p.2 + d.2).
Proof.
  unfold adjacent, DIRECTIONS. destruct p as [r c], q as [r' c']. simpl.
  intros [[-> [->| ->]]|[-> [->| ->]]].
  - exists (0, 1). split; [rewrite !elem_of_cons; auto|]. simpl. f_equal; lia.
  - exists (0, -1). split; [rewrite !elem_of_cons; auto|]. simpl. f_equal; lia.
  - exists (1, 0). split; [rewrite !elem_of_cons; auto|]. simpl. f_equal; lia.
  - exists (-1, 0). split; [rewrite !elem_of_cons; auto|]. simpl. f_equal; lia.
Qed.

Lemma int64_in_range v : - 2 ^ 63 ≤ v < 2 ^ 63 → int64 v = Some v.
Proof.
  intros Hv. unfold int64.
  destruct (Z.leb_spec (- 2 ^ 63) v), (Z.ltb_spec v (2 ^ 63)); try done; lia.
Qed.

Lemma int64_out_of_range v : ¬ (- 2 ^ 63 ≤ v < 2 ^ 63) → int64 v = None.
Proof.
  intros Hv. unfold int64.
  destruct (Z.leb_spec (- 2 ^ 63) v), (Z.ltb_spec v (2 ^ 63)); try done; lia.
Qed.

Lemma flood_fold_None rows cols label row col ds :
  foldl (λ acc d, st ← acc; flood_visit rows cols label row col st d) None ds
  = None.
Proof. by induction ds. Qed.

Lemma flood_visits_cons rows cols label row col st d ds :
  flood_visits rows cols label row col st (d :: ds)
  = st' ← flood_visit rows cols label row col st d;
    flood_visits rows cols label row col st' ds.
Proof.
  unfold flood_visits. cbn [foldl mbind option_bind].
  destruct (flood_visit rows cols label row col st d); [done|].
  apply flood_fold_None.
Qed.

(** Inside a rectangular array the bounds test and the comparison of
    [flood_fill] come to: the neighbour holds 1. *)
Lemma flood_visit_cell (A : list (list Z)) c0 label row col Q d :
  Np.rectangular A c0 →
  flood_visit (Np.shape A).1 (Np.shape A).2 label row col (A, Q) d
  = if bool_decide (Np.cell A (row + d.1, col + d.2) = Some 1)
    then v ← int64 label;
         Some (Np.set A (row + d.1) (col + d.2) v,
               Q ++ [(row + d.1, col + d.2)])
    else Some (A, Q).
Proof.
  intros Hrect. unfold flood_visit. cbn [fst snd].
  set (nr := row + d.1). set (nc := col + d.2).
  destruct (decide (Np.cell A (nr, nc) = Some 1)) as [Hcell|Hcell].
  - rewrite (bool_decide_eq_true_2 (Np.cell A (nr, nc) = Some 1)) by done.
    destruct (cell_Some_nonneg _ _ _ Hcell) as [Hr Hc]. simpl in Hr, Hc.
    assert (Hin : (nr, nc) ∈ Np.row_major (Z.to_nat (Np.shape A).1)
                                          (Z.to_nat (Np.shape A).2)).
    { eapply rectangular_cells; [done|by eexists]. }
    apply row_major_elem in Hin as (r & c & Hr' & Hc' & [= Hnr Hnc]).
    rewrite get_cell, Hcell by done.
    rewrite bool_decide_eq_true_2 by done.
    destruct (Z.leb_spec 0 nr), (Z.ltb_spec nr (Np.shape A).1),
      (Z.leb_spec 0 nc), (Z.ltb_spec nc (Np.shape A).2); try done; lia.
  - rewrite (bool_decide_eq_false_2 (Np.cell A (nr, nc) = Some 1)) by done.
    destruct ((0 <=? nr) && (nr <? (Np.shape A).1) && (0 <=? nc)
              && (nc <? (Np.shape A).2)) eqn:Hb; [|done].
    simpl. rewrite bool_decide_eq_false_2; [done|].
    apply andb_prop in Hb as [[[Hr _]%andb_prop Hc]%andb_prop _].
    rewrite get_cell by lia. done.
Qed.

Lemma one_cells_set cells A p k :
  NoDup cells → p ∈ cells → Np.cell A p = Some 1 → k ≠ 1 →
  one_cells cells A = S (one_cells cells (Np.set A p.1 p.2 k)).
Proof.
  intros Hnd Hin H1 Hk. unfold one_cells.
  destruct (cell_Some_nonneg _ _ _ H1) as [Hr Hc].
  destruct p as [r c]. simpl in *.
  eapply (filter_length_drop _ _ _ (r, c)); try done.
  - rewrite cell_set_eq by eauto. congruence.
  - intros q Hq. by rewrite cell_set_ne.
Qed.

Lemma flooded_one array start p : flooded array start p → Np.cell array p = Some 1.
Proof. by destruct 1. Qed.

Section FloodFill.
Variables (A1 : list (list Z)) (c0 : nat) (cells : list (Z * Z)).
Variables (k : Z) (s : Z * Z).
Hypothesis Hk : k ≠ 1.
Hypothesis Hk64 : int64 k = Some k.
Hypothesis Hrect : Np.rectangular A1 c0.
Hypothesis cells_nodup : NoDup cells.
Hypothesis cells_all : ∀ p, is_Some (Np.cell A1 p) → p ∈ cells.

Lemma flood_visit_spec p0 A Q d :
  fill_inv A1 k s (Some p0) A Q → p0 = s ∨ flooded A1 s p0 →
  d ∈ DIRECTIONS →
  ∃ st,
    flood_visit (Np.shape A1).1 (Np.shape A1).2 k p0.1 p0.2 (A, Q) d = Some st
    ∧ fill_inv A1 k s (Some p0) st.1 st.2
    ∧ (∀ q, Np.cell A q ≠ Some 1 → Np.cell st.1 q ≠ Some 1)
    ∧ Np.cell st.1 (p0.1 + d.1, p0.2 + d.2) ≠ Some 1
    ∧ (length st.2 + one_cells cells st.1 = length Q + one_cells cells A)%nat.
Proof.
  intros Hinv Hsrc Hd.
  pose proof (directions_adjacent p0 d Hd) as Hadj.
  destruct Hinv as [Hshape Hframe Hqueue Hclosed].
  rewrite <- (shape_of_lengths A A1 Hshape).
  rewrite (flood_visit_cell A c0)
    by (eapply rectangular_of_lengths; [symmetry; exact Hshape|done]).
  rewrite Hk64. cbn [mbind option_bind].
  destruct p0 as [r0 c0'], d as [dr dc]. cbn [fst snd] in *.
  remember (r0 + dr) as nr eqn:Hnr. remember (c0' + dc) as nc eqn:Hnc.
  clear Hnr Hnc. set (n := (nr, nc)) in *.
  case_bool_decide as Hn.
  2:{ exists (A, Q). by split_and!. }
  eexists. split; [reflexivity|]. cbn [fst snd].
  destruct (cell_Some_nonneg _ _ _ Hn) as [Hn1 Hn2]. simpl in Hn1, Hn2.
  assert (Hn1' : Np.cell A1 n = Some 1).
  { destruct (Hframe n) as [<-|(_ & Hk' & _)]; [done|congruence]. }
  assert (Hfl : flooded A1 s n).
  { destruct Hsrc as [<-|Hp0]; [by apply flooded_first|by eapply flooded_next]. }
  assert (Hset : Np.cell (Np.set A nr nc k) n = Some k)
    by (apply cell_set_eq; eauto).
  assert (Hmono : ∀ q, Np.cell A q ≠ Some 1 →
                       Np.cell (Np.set A nr nc k) q ≠ Some 1).
  { intros q Hq. destruct (decide (n = q)) as [<-|Hne]; [congruence|].
    by rewrite cell_set_ne. }
  split; [split|split_and!].
  - by rewrite set_lengths.
  - intros p. destruct (decide (n = p)) as [<-|Hne].
    + right. by split_and!.
    + rewrite cell_set_ne by done. apply Hframe.
  - intros p [Hp| ->%list_elem_of_singleton]%elem_of_app; [by apply Hqueue|].
    by right.
  - intros p q Hp Hnin Hcur Hadj'.
    apply not_elem_of_app in Hnin as [HnQ Hpn%not_elem_of_cons].
    destruct Hpn as [Hpn _]. apply Hmono. apply (Hclosed p q); try done.
    destruct Hp as [->|[Hp1 Hpk]]; [by left|right].
    split; [done|]. by rewrite cell_set_ne in Hpk.
  - done.
  - congruence.
  - rewrite length_app. simpl.
    rewrite (one_cells_set cells A n k); try done; [simpl; lia|].
    apply cells_all. by eexists.
Qed.

Lemma flood_visits_spec p0 ds : ∀ A Q,
  (∀ d, d ∈ ds → d ∈ DIRECTIONS) →
  fill_inv A1 k s (Some p0) A Q → p0 = s ∨ flooded A1 s p0 →
  ∃ st,
    flood_visits (Np.shape A1).1 (Np.shape A1).2 k p0.1 p0.2 (A, Q) ds = Some st
    ∧ fill_inv A1 k s (Some p0) st.1 st.2
    ∧ (∀ q, Np.cell A q ≠ Some 1 → Np.cell st.1 q ≠ Some 1)
    ∧ (∀ d, d ∈ ds → Np.cell st.1 (p0.1 + d.1, p0.2 + d.2) ≠ Some 1)
    ∧ (length st.2 + one_cells cells st.1 = length Q + one_cells cells A)%nat.
Proof.
  induction ds as [|d ds IH]; intros A Q Hds Hinv Hsrc.
  { exists (A, Q). split_and!; try done. intros d Hd. inversion Hd. }
  destruct (flood_visit_spec p0 A Q d)
    as ([A' Q'] & Hst & Hinv' & Hmono & Hd & Hlen); try done.
  { apply Hds. by left. }
  cbn [fst snd] in *.
  destruct (IH A' Q') as (st & Hfold & Hinv'' & Hmono' & Hds' & Hlen');
    try done.
  { intros; apply Hds. by right. }
  exists st. split_and!; try done.
  - by rewrite flood_visits_cons, Hst.
  - intros q Hq. by apply Hmono', Hmono.
  - intros d' [->|Hd']%elem_of_cons; [by apply Hmono'|by apply Hds'].
  - lia.
Qed.

Lemma flood_loop_spec fuel : ∀ A Q,
  fill_inv A1 k s None A Q → (length Q + one_cells cells A ≤ fuel)%nat →
  ∃ A', flood_loop fuel (Np.shape A1).1 (Np.shape A1).2 k A Q = Some (Some A')
        ∧ fill_inv A1 k s None A' [].
Proof.
  induction fuel as [|fuel IH]; intros A Q Hinv Hfuel.
  { destruct Q; cbn [flood_loop]; [eauto|cbn [length] in Hfuel; lia]. }
  destruct Q as [|[row col] Q]; cbn [flood_loop]; [eauto|].
  assert (Hsrc : (row, col) = s ∨ flooded A1 s (row, col)).
  { apply Hinv. by left. }
  destruct (flood_visits_spec (row, col) DIRECTIONS A Q)
    as ([A' Q'] & Hfold & Hinv' & Hmono & Hds & Hlen); try done.
  { destruct Hinv as [Hshape Hframe Hqueue Hclosed]. split; try done.
    - intros p Hp. apply Hqueue. by right.
    - intros p q Hp HnQ Hcur. apply Hclosed; [done| |done].
      intros [->|?]%elem_of_cons; [by apply Hcur|done]. }
  cbn [fst snd] in Hfold, Hinv', Hmono, Hds, Hlen. rewrite Hfold.
  cbn [fst snd] in *. apply IH; [|cbn [length] in Hfuel; lia].
  destruct Hinv' as [Hshape Hframe Hqueue Hclosed]. split; try done.
  intros p q Hp HnQ _ Hadj. destruct (decide (p = (row, col))) as [->|Hne].
  - destruct (adjacent_directions _ _ Hadj) as (d & Hd & ->). by apply Hds.
  - apply (Hclosed p q); try done. congruence.
Qed.
End FloodFill.

(** [flood_fill] with a label other than 1 ends; it relabels the cells
    reached from the start through cells holding 1 and leaves every other
    cell as it was. *)
Lemma flood_fill_frame array c0 start label :
  Np.rectangular array c0 → label ≠ 1 → - 2 ^ 63 ≤ label < 2 ^ 63 →
  ∃ result,
    flood_fill array start label = Some result
    ∧ length <$> result = length <$> array
    ∧ (∀ p, Np.cell result p = Np.cell array p
            ∨ (Np.cell array p = Some 1 ∧ Np.cell result p = Some label
               ∧ flooded array start p))
    ∧ (∀ p, flooded array start p → Np.cell result p = Some label).
Proof.
  intros Hrect Hlabel Hrange%int64_in_range. unfold flood_fill.
  destruct (Np.shape array) as [rows cols] eqn:Hshape.
  pose proof (row_major_sorted (Z.to_nat rows) (Z.to_nat cols)) as Hsorted.
  destruct (flood_loop_spec array c0
              (Np.row_major (Z.to_nat rows) (Z.to_nat cols)) label start
              Hlabel Hrange Hrect (sorted_nodup _ Hsorted))
    with (fuel := S (Z.to_nat (rows * cols))) (A := array) (Q := [start])
    as (A' & Hloop & Hfin).
  - intros p Hp. pose proof (rectangular_cells array c0 p Hrect Hp) as Hin.
    by rewrite Hshape in Hin.
  - split; try done.
    + by left.
    + intros p ->%list_elem_of_singleton. by left.
    + intros p q [->|[H1 H2]] Hnin; [|congruence].
      destruct Hnin. by left.
  - pose proof (shape_cells_exact array) as Hf. rewrite Hshape in Hf.
    cbn [fst snd length] in Hf |- *.
    pose proof (length_filter (λ p, Np.cell array p = Some 1)
                  (Np.row_major (Z.to_nat rows) (Z.to_nat cols))) as Hle.
    unfold one_cells. lia.
  - rewrite Hshape in Hloop. cbn [fst snd] in Hloop. exists A'.
    destruct Hfin as [Hsh Hframe _ Hclosed].
    split; [by rewrite Hloop|]. split_and!; try done.
    assert (Hstep : ∀ p q,
              p = start ∨ (Np.cell array p = Some 1 ∧ Np.cell A' p = Some label) →
              adjacent p q → Np.cell array q = Some 1 →
              Np.cell A' q = Some label).
    { intros p q Hp Hadj Hq.
      pose proof (Hclosed p q Hp (not_elem_of_nil _) ltac:(done) Hadj) as Hne.
      destruct (Hframe q) as [Heq|(_ & ? & _)]; [congruence|done]. }
    induction 1 as [q Hadj Hq|p q Hp IH Hadj Hq].
    + apply (Hstep start q); auto.
    + apply (Hstep p q); [|done|done]. right. split; [|done].
      by apply (flooded_one _ start).
Qed.

(** [flood_fill] with a label other than 1 returns on every rectangular
    array.  The cells reached from the start through cells holding 1 take
    the label; every other cell, walls and labelled cells alike, keeps
    its value. *)
Theorem flood_fill_floods (array : list (list Z)) (cols : nat)
    (start : Z * Z) (label : Z) :
  Np.rectangular array cols → label ≠ 1 → - 2 ^ 63 ≤ label < 2 ^ 63 →
  ∃ result,
    flood_fill array start label = Some result
    ∧ length <$> result = length <$> array
    ∧ (∀ p, flooded array start p → Np.cell result p = Some label)
    ∧ (∀ p, ¬ flooded array start p → Np.cell result p = Np.cell array p).
Proof.
  intros Hrect Hlabel Hrange.
  destruct (flood_fill_frame array cols start label Hrect Hlabel Hrange)
    as (result & Hfill & Hshape & Hframe & Hfl).
  exists result. split_and!; try done.
  intros p Hp. by destruct (Hframe p) as [?|(_ & _ & ?)].
Qed.

Lemma flood_fill_floods_witness :
  Np.rectangular [[1; 1; 0; 1]] 4 ∧ 2 ≠ 1 ∧ - 2 ^ 63 ≤ 2 < 2 ^ 63
  ∧ ∃ result,
      flood_fill [[1; 1; 0; 1]] (0, 0) 2 = Some result
      ∧ length <$> result = length <$> [[1; 1; 0; 1]]
      ∧ (∀ p, flooded [[1; 1; 0; 1]] (0, 0) p → Np.cell result p = Some 2)
      ∧ (∀ p, ¬ flooded [[1; 1; 0; 1]] (0, 0) p →
              Np.cell result p = Np.cell [[1; 1; 0; 1]] p).
Proof.
  assert (H1 : Np.rectangular [[1; 1; 0; 1]] 4) by (repeat constructor).
  assert (H2 : 2 ≠ 1) by lia.
  assert (H3 : - 2 ^ 63 ≤ 2 < 2 ^ 63) by lia.
  split; [exact H1|]. split; [exact H2|]. split; [exact H3|].
  exact (flood_fill_floods [[1; 1; 0; 1]] 4 (0, 0) 2 H1 H2 H3).
Defined.

Example flood_fill_two_cells :
  flood_fill [[1; 1; 0; 1]] (0, 0) 2 = Some [[2; 2; 0; 1]].
Proof. reflexivity. Qed.

Lemma flood_visits_none (A : list (list Z)) c0 label row col Q ds :
  Np.rectangular A c0 →
  Forall (λ d : Z * Z, Np.cell A (row + d.1, col + d.2) ≠ Some 1) ds →
  flood_visits (Np.shape A).1 (Np.shape A).2 label row col (A, Q) ds
  = Some (A, Q).
Proof.
  intros Hrect. induction 1 as [|d ds Hd _ IH]; [done|].
  rewrite flood_visits_cons, (flood_visit_cell A c0) by done.
  by rewrite bool_decide_eq_false_2.
Qed.

Lemma flood_fill_unfold array start label :
  flood_fill array start label
  = r ← flood_loop (S (Z.to_nat ((Np.shape array).1 * (Np.shape array).2)))
                   (Np.shape array).1 (Np.shape array).2 label array [start];
    r.
Proof. unfold flood_fill. by destruct (Np.shape array). Qed.

(** From a start none of whose four neighbours holds 1, [flood_fill]
    returns the array unchanged, whatever the start cell holds and
    whatever the label is: a start that holds 1 is then left at 1. *)
Theorem flood_fill_isolated_start (array : list (list Z)) (cols : nat)
    (start : Z * Z) (label : Z) :
  Np.rectangular array cols →
  Forall (λ d : Z * Z, Np.cell array (start.1 + d.1, start.2 + d.2) ≠ Some 1)
         DIRECTIONS →
  flood_fill array start label = Some array.
Proof.
  intros Hrect Hiso. rewrite flood_fill_unfold. destruct start as [row col].
  cbn [flood_loop]. rewrite (flood_visits_none array cols) by done.
  cbn [fst snd]. by destruct (Z.to_nat _).
Qed.

Lemma flood_fill_isolated_start_witness :
  Np.rectangular [[1; 0; 1; 1]] 4
  ∧ Forall (λ d : Z * Z,
              Np.cell [[1; 0; 1; 1]] ((0, 0).1 + d.1, (0, 0).2 + d.2) ≠ Some 1)
           DIRECTIONS
  ∧ flood_fill [[1; 0; 1; 1]] (0, 0) 2 = Some [[1; 0; 1; 1]].
Proof.
  assert (H1 : Np.rectangular [[1; 0; 1; 1]] 4) by (repeat constructor).
  assert (H2 : Forall (λ d : Z * Z,
                  Np.cell [[1; 0; 1; 1]] ((0, 0).1 + d.1, (0, 0).2 + d.2) ≠ Some 1)
                  DIRECTIONS) by (repeat constructor; discriminate).
  split_and!; [exact H1|exact H2|].
  exact (flood_fill_isolated_start [[1; 0; 1; 1]] 4 (0, 0) 2 H1 H2).
Defined.

Lemma set_same {A} (a : list (list A)) r c v :
  Np.cell a (r, c) = Some v → Np.set a r c v = a.
Proof.
  intros Hv. destruct (cell_Some_nonneg _ _ _ Hv) as [Hr Hc]. simpl in Hr, Hc.
  apply array_ext; [apply set_lengths|]. intros p.
  destruct (decide ((r, c) = p)) as [<-|Hne].
  - rewrite cell_set_eq by eauto. done.
  - by rewrite cell_set_ne.
Qed.

Lemma flood_visits_label_one (A : list (list Z)) c0 row col ds : ∀ Q,
  Np.rectangular A c0 →
  flood_visits (Np.shape A).1 (Np.shape A).2 1 row col (A, Q) ds
  = Some (A, Q ++ filter (λ n, Np.cell A n = Some 1)
                         ((λ d : Z * Z, (row + d.1, col + d.2)) <$> ds)).
Proof.
  intros Q Hrect. revert Q. induction ds as [|d ds IH]; intros Q.
  { unfold flood_visits. cbn [foldl]. by rewrite app_nil_r. }
  rewrite flood_visits_cons, (flood_visit_cell A c0) by done.
  rewrite fmap_cons, filter_cons. case_bool_decide as Hd.
  - rewrite decide_True by done.
    rewrite (int64_in_range 1) by lia. cbn [mbind option_bind].
    rewrite set_same by done.
    rewrite IH, <- app_assoc. done.
  - rewrite decide_False by done. apply IH.
Qed.

Lemma flood_loop_label_one_stuck (A : list (list Z)) c0 fuel : ∀ Q,
  Np.rectangular A c0 →
  Q ≠ [] →
  Forall (λ p : Z * Z,
            Np.cell A p = Some 1
            ∧ Exists (λ d : Z * Z, Np.cell A (p.1 + d.1, p.2 + d.2) = Some 1)
                     DIRECTIONS) Q →
  flood_loop fuel (Np.shape A).1 (Np.shape A).2 1 A Q = None.
Proof.
  induction fuel as [|fuel IH]; intros Q Hrect Hne Hall.
  { by destruct Q as [|[] ?]. }
  destruct Q as [|[row col] Q]; [done|]. cbn [flood_loop].
  rewrite (flood_visits_label_one A c0) by done. cbn [fst snd].
  apply Forall_cons in Hall as [[Hp Hex] Hall]. cbn [fst snd] in Hex.
  apply Exists_exists in Hex as (d & Hd & Hn).
  assert (Hin : (row + d.1, col + d.2)
                ∈ filter (λ n, Np.cell A n = Some 1)
                    ((λ d : Z * Z, (row + d.1, col + d.2)) <$> DIRECTIONS)).
  { apply list_elem_of_filter. split; [done|].
    apply list_elem_of_fmap. by exists d. }
  apply IH; [done| |].
  - intros Happ. apply app_eq_nil in Happ as [_ Hnil].
    rewrite Hnil in Hin. by apply elem_of_nil in Hin.
  - apply Forall_app. split; [done|]. apply Forall_forall.
    intros n [Hn1 (d' & -> & Hd')%list_elem_of_fmap]%list_elem_of_filter.
    split; [done|]. apply Exists_exists.
    pose proof (directions_adjacent (row, col) d' Hd') as Hadj.
    apply adjacent_sym, adjacent_directions in Hadj as (e & He & Heq).
    exists e. split; [done|]. cbn [fst snd] in Heq |- *. by rewrite <- Heq.
Qed.

(** The label 1 is the mark of unlabelled cells and cannot be used as a
    label: from a start that holds 1 and has a neighbour holding 1 the
    loop of [flood_fill] with label 1 never empties its queue, however
    many iterations it is given. *)
Theorem flood_fill_label_one_diverges (array : list (list Z)) (cols : nat)
    (start : Z * Z) :
  Np.rectangular array cols →
  Np.cell array start = Some 1 →
  Exists (λ d : Z * Z, Np.cell array (start.1 + d.1, start.2 + d.2) = Some 1)
         DIRECTIONS →
  ∀ fuel,
    flood_loop fuel (Np.shape array).1 (Np.shape array).2 1 array [start] = None.
Proof.
  intros Hrect Hstart Hex fuel.
  apply (flood_loop_label_one_stuck array cols); [done|done|].
  constructor; [by split|constructor].
Qed.

Lemma flood_fill_label_one_diverges_witness :
  Np.rectangular [[1; 1]] 2
  ∧ Np.cell [[1; 1]] (0, 0) = Some 1
  ∧ Exists (λ d : Z * Z, Np.cell [[1; 1]] ((0, 0).1 + d.1, (0, 0).2 + d.2) = Some 1)
           DIRECTIONS
  ∧ ∀ fuel,
      flood_loop fuel (Np.shape [[1; 1]]).1 (Np.shape [[1; 1]]).2 1 [[1; 1]]
                 [(0, 0)] = None.
Proof.
  assert (H1 : Np.rectangular [[1; 1]] 2) by (repeat constructor).
  assert (H2 : Np.cell [[1; 1]] (0, 0) = Some 1) by reflexivity.
  assert (H3 : Exists (λ d : Z * Z,
                  Np.cell [[1; 1]] ((0, 0).1 + d.1, (0, 0).2 + d.2) = Some 1)
                  DIRECTIONS).
  { apply Exists_exists. exists (0, 1). split; [|reflexivity].
    unfold DIRECTIONS. rewrite !elem_of_cons. auto. }
  split_and!; [exact H1|exact H2|exact H3|].
  exact (flood_fill_label_one_diverges [[1; 1]] 2 (0, 0) H1 H2 H3).
Defined.

(** ** The program's own labelling *)

Lemma cell_astype_int (w : list (list bool)) p :
  Np.cell (Np.astype_int w) p
  = (λ b : bool, if b then 1 else 0) <$> Np.cell w p.
Proof. apply cell_map. Qed.

Lemma astype_int_lengths (w : list (list bool)) :
  length <$> Np.astype_int w = length <$> w.
Proof. apply map_map_lengths. Qed.

Lemma zero_iff_mask (w : list (list bool)) (L : list (list Z)) :
  length <$> L = length <$> w →
  (∀ p, Np.cell L p = Some 0 ↔ Np.cell w p = Some false) →
  Np.eq_scalar L 0 = map (map negb) w.
Proof.
  intros Hshape Hzero. apply array_ext.
  - by rewrite eq_scalar_lengths, map_map_lengths.
  - intros p. rewrite cell_eq_scalar, cell_map.
    destruct (Np.cell w p) as [b|] eqn:Hw.
    + destruct (cell_same_shape w L p) as [v Hv]; [done|by eexists|].
      rewrite Hv. simpl. f_equal. destruct b.
      * apply Z.eqb_neq. intros ->. apply Hzero in Hv. congruence.
      * apply Hzero in Hw. rewrite Hv in Hw. by injection Hw as ->.
    + destruct (Np.cell L p) as [v|] eqn:Hv; [|done].
      destruct (cell_same_shape L w p) as [x Hx]; [done|by eexists|congruence].
Qed.

Lemma label_rooms_basic (w : list (list bool)) c0 rooms : ∀ L c,
  Np.rectangular w c0 → 2 ≤ c → c + Z.of_nat (length rooms) ≤ 2 ^ 63 →
  length <$> L = length <$> w →
  (∀ p v, Np.cell L p = Some v → 0 ≤ v < c) →
  (∀ p, Np.cell L p = Some 0 ↔ Np.cell w p = Some false) →
  ∃ L',
    foldl (λ st (room : string * (Z * Z)),
             '(labels, current_label) ← st;
             labels' ← flood_fill labels room.2 current_label;
             Some (labels', current_label + 1))
          (Some (L, c)) rooms
    = Some (L', c + Z.of_nat (length rooms))
    ∧ length <$> L' = length <$> w
    ∧ (∀ p v, Np.cell L' p = Some v → 0 ≤ v < c + Z.of_nat (length rooms))
    ∧ (∀ p, Np.cell L' p = Some 0 ↔ Np.cell w p = Some false).
Proof.
  induction rooms as [|[name s] rooms IH];
    intros L c Hrect Hc Hmax Hshape Hrange Hzero.
  { exists L. simpl. rewrite Z.add_0_r. by split_and!. }
  cbn [foldl mbind option_bind snd]. cbn [length] in Hmax.
  destruct (flood_fill_frame L c0 s c) as (R & -> & HshR & Hframe & _).
  { by eapply rectangular_of_lengths. }
  { lia. }
  { lia. }
  cbn [mbind option_bind].
  destruct (IH R (c + 1)) as (L' & Hfold & Hsh' & Hrange' & Hzero'); try done.
  - lia.
  - lia.
  - congruence.
  - intros p v Hv. destruct (Hframe p) as [Heq|(_ & Hk & _)].
    + rewrite Heq in Hv. apply Hrange in Hv. lia.
    + rewrite Hk in Hv. injection Hv as <-. lia.
  - intros p. rewrite <- Hzero. destruct (Hframe p) as [->|(H1 & Hk & _)]; [done|].
    rewrite H1, Hk. split; intros [= ?]; lia.
  - exists L'. rewrite Hfold. split_and!; try done.
    + do 2 f_equal. cbn [length]. lia.
    + intros p v Hv. apply Hrange' in Hv. cbn [length]. lia.
Qed.

(** [label_rooms] returns for every rectangular mask and any rooms whose
    labels 2, 3, ... fit the 64-bit integers of the label array: the
    result has the shape of the mask, is 0 exactly on the non-walkable
    cells, and uses no value beyond the labels handed out to the
    rooms. *)
Theorem label_rooms_keeps_walls (walkable : list (list bool)) (cols : nat)
    (rooms : list (string * (Z * Z))) :
  Np.rectangular walkable cols →
  2 + Z.of_nat (length rooms) ≤ 2 ^ 63 →
  ∃ labels,
    label_rooms walkable rooms = Some labels
    ∧ length <$> labels = length <$> walkable
    ∧ (∀ p v, Np.cell labels p = Some v → 0 ≤ v < 2 + Z.of_nat (length rooms))
    ∧ Np.eq_scalar labels 0 = map (map negb) walkable.
Proof.
  intros Hrect Hmax. unfold label_rooms.
  destruct (label_rooms_basic walkable cols rooms (Np.astype_int walkable) 2)
    as (L & -> & Hshape & Hrange & Hzero); try done.
  - apply astype_int_lengths.
  - intros p v. rewrite cell_astype_int.
    destruct (Np.cell walkable p) as [[]|]; intros [= <-]; lia.
  - intros p. rewrite cell_astype_int.
    destruct (Np.cell walkable p) as [[]|]; split; try done.
  - exists L. split_and!; try done. by apply zero_iff_mask.
Qed.

Lemma label_rooms_keeps_walls_witness :
  Np.rectangular [[true; false; true]] 3
  ∧ 2 + Z.of_nat (length [("x"%string, (0, 5))]) ≤ 2 ^ 63
  ∧ ∃ labels,
      label_rooms [[true; false; true]] [("x"%string, (0, 5))] = Some labels
      ∧ length <$> labels = length <$> [[true; false; true]]
      ∧ (∀ p v, Np.cell labels p = Some v →
                0 ≤ v < 2 + Z.of_nat (length [("x"%string, (0, 5))]))
      ∧ Np.eq_scalar labels 0 = map (map negb) [[true; false; true]].
Proof.
  assert (H : Np.rectangular [[true; false; true]] 3) by (repeat constructor).
  assert (Hmax : 2 + Z.of_nat (length [("x"%string, (0, 5))]) ≤ 2 ^ 63)
    by (by vm_compute).
  split; [exact H|]. split; [exact Hmax|].
  exact (label_rooms_keeps_walls [[true; false; true]] 3
           [("x"%string, (0, 5))] H Hmax).
Defined.

(** ** The own labelling against the library labelling *)

Lemma exists_direction_adjacent (w : list (list bool)) p :
  Exists (λ d : Z * Z, walk w (p.1 + d.1, p.2 + d.2)) DIRECTIONS →
  ∃ q, adjacent p q ∧ walk w q.
Proof.
  intros (d & Hd & Hw)%Exists_exists. eexists. split; [|exact Hw].
  by apply directions_adjacent.
Qed.

Section OwnStep.
Variables (w : list (list bool)) (c0 : nat).
Hypothesis Hrect : Np.rectangular w c0.
Variables (done : list (string * (Z * Z))) (L : list (list Z)) (c : Z).
Hypothesis Hinv : own_inv w done L c.
Hypothesis Hmax : c < 2 ^ 63.
Variable s : Z * Z.
Hypothesis Hs : walk w s.

Lemma own_flooded_connected p :
  flooded L s p → Np.cell L s = Some 1 ∧ connected w s p.
Proof.
  induction 1 as [q Hadj Hq|p q Hp [Hs1 Hc] Hadj Hq].
  - assert (Hwq : walk w q) by (by eapply (oi_walk _ _ _ _ Hinv q 1)).
    split.
    + eapply (oi_closed _ _ _ _ Hinv q s 1); try done.
      by apply adjacent_sym.
    + eapply connected_step; [done|done|by constructor].
  - assert (Hwq : walk w q) by (by eapply (oi_walk _ _ _ _ Hinv q 1)).
    split; [done|]. by eapply connected_snoc.
Qed.

Lemma own_flooded_step p q :
  flooded L s p → adjacent p q → walk w q → flooded L s q.
Proof.
  intros Hp Hadj Hq. eapply flooded_next; [done|done|].
  eapply (oi_closed _ _ _ _ Hinv p q 1); try done.
  by apply (flooded_one _ s).
Qed.

Lemma own_inv_step name :
  ∃ R, flood_fill L s c = Some R ∧ own_inv w (done ++ [(name, s)]) R (c + 1).
Proof.
  pose proof Hinv as [Hnext Hshape Hrange Hwalk Hclosed Hsound Hdone].
  destruct (flood_fill_frame L c0 s c) as (R & Hfill & HshR & Hframe & Hfl).
  { by eapply rectangular_of_lengths. }
  { lia. }
  { lia. }
  exists R. split; [done|].
  assert (Hold : ∀ p v, v ≠ c → Np.cell R p = Some v → Np.cell L p = Some v).
  { intros p v Hv Hp. destruct (Hframe p) as [<-|(_ & ? & _)]; [done|congruence]. }
  assert (Hnew : ∀ p, Np.cell R p = Some c → flooded L s p).
  { intros p Hp. destruct (Hframe p) as [Heq|(_ & _ & ?)]; [|done].
    rewrite Hp in Heq. symmetry in Heq. apply Hrange in Heq. lia. }
  assert (Hkeep : ∀ p v, v ≠ 1 → Np.cell L p = Some v → Np.cell R p = Some v).
  { intros p v Hv Hp. destruct (Hframe p) as [->|(? & _ & _)]; [done|congruence]. }
  split.
  - lia.
  - congruence.
  - intros p v Hv. destruct (decide (v = c)) as [->|Hvc]; [lia|].
    apply Hold, Hrange in Hv; [lia|done].
  - intros p v Hv. destruct (Hframe p) as [Heq|(H1 & Hk & _)].
    + apply Hwalk. congruence.
    + rewrite Hk in Hv. injection Hv as <-.
      split; [intros _; by apply (Hwalk p 1)|lia].
  - intros p q v Hp Hv Hadj Hq. destruct (Hframe p) as [Heq|(H1 & Hk & Hflp)].
    + rewrite Hp in Heq. symmetry in Heq.
      pose proof (Hclosed p q v Heq Hv Hadj Hq) as HLq.
      destruct (Hframe q) as [->|(Hq1 & _ & Hflq)]; [done|].
      exfalso. rewrite HLq in Hq1. injection Hq1 as ->.
      assert (Hflp : flooded L s p).
      { eapply flooded_next; [exact Hflq|by apply adjacent_sym|done]. }
      apply Hfl in Hflp. rewrite Hp in Hflp. injection Hflp as Hc. lia.
    + rewrite Hk in Hp. injection Hp as <-.
      apply Hfl. by eapply own_flooded_step.
  - intros p q v Hp Hq Hv. destruct (decide (v = c)) as [->|Hvc].
    + apply Hnew, own_flooded_connected in Hp as [_ Hcp].
      apply Hnew, own_flooded_connected in Hq as [_ Hcq].
      eapply connected_trans; [by apply connected_sym|done].
    + eapply Hsound; [by apply Hold|by apply Hold|done].
  - intros room [Hroom| ->%list_elem_of_singleton]%elem_of_app Hnb.
    + destruct (Hdone room Hroom Hnb) as (v & Hv & Hv2).
      exists v. split; [|done]. apply Hkeep; [lia|done].
    + simpl in *. destruct Hnb as (q & Hadj & Hq).
      destruct (cell_same_shape w L s) as [v Hv]; [done|by eexists|].
      assert (Hv0 : v ≠ 0) by (by apply (Hwalk s v)).
      pose proof (Hrange s v Hv) as Hvr.
      destruct (decide (v = 1)) as [->|Hv1].
      * exists c. split; [|done]. apply Hfl.
        assert (Hflq : flooded L s q).
        { apply flooded_first; [done|]. by apply (Hclosed s q 1). }
        eapply flooded_next; [exact Hflq|by apply adjacent_sym|done].
      * exists v. split; [by apply Hkeep|lia].
Qed.
End OwnStep.

Lemma own_inv_init (w : list (list bool)) :
  own_inv w [] (Np.astype_int w) 2.
Proof.
  assert (Hcell : ∀ p v, Np.cell (Np.astype_int w) p = Some v →
            (v = 1 ∧ Np.cell w p = Some true) ∨ (v = 0 ∧ Np.cell w p = Some false)).
  { intros p v. rewrite cell_astype_int.
    destruct (Np.cell w p) as [[]|]; intros [= <-]; auto. }
  split.
  - done.
  - apply astype_int_lengths.
  - intros p v [[-> _]|[-> _]]%Hcell; lia.
  - intros p v [[-> Hw]|[-> Hw]]%Hcell; unfold walk; split; try done.
    congruence.
  - intros p q v [[-> _]|[-> _]]%Hcell Hv Hadj Hq; [|done].
    rewrite cell_astype_int, Hq. done.
  - intros p q v [[-> _]|[-> _]]%Hcell; lia.
  - intros room Hroom. inversion Hroom.
Qed.

Lemma own_inv_fold (w : list (list bool)) c0 rooms : ∀ done L c,
  Np.rectangular w c0 →
  Forall (λ room : string * (Z * Z), walk w room.2) rooms →
  c + Z.of_nat (length rooms) ≤ 2 ^ 63 →
  own_inv w done L c →
  ∃ L' c',
    foldl (λ st (room : string * (Z * Z)),
             '(labels, current_label) ← st;
             labels' ← flood_fill labels room.2 current_label;
             Some (labels', current_label + 1))
          (Some (L, c)) rooms
    = Some (L', c')
    ∧ own_inv w (done ++ rooms) L' c'.
Proof.
  induction rooms as [|[name s] rooms IH];
    intros done L c Hrect Hall Hmax Hinv.
  { exists L, c. by rewrite app_nil_r. }
  apply Forall_cons in Hall as [Hs Hall]. simpl in Hs.
  cbn [foldl mbind option_bind snd]. cbn [length] in Hmax.
  destruct (own_inv_step w c0 Hrect done L c Hinv ltac:(lia) s Hs name)
    as (R & -> & HinvR).
  cbn [mbind option_bind].
  destruct (IH (done ++ [(name, s)]) R (c + 1)) as (L' & c' & Hfold & Hinv');
    try done; [lia|].
  exists L', c'. split; [done|]. by rewrite <- app_assoc in Hinv'.
Qed.

(** With [label_rooms], a room with a walkable anchor that has a walkable
    neighbour is labelled with its whole 4-connected region. *)
Lemma label_rooms_regions (w : list (list bool)) c0 rooms :
  Np.rectangular w c0 →
  Forall (anchor_has_neighbour w) rooms →
  2 + Z.of_nat (length rooms) ≤ 2 ^ 63 →
  ∃ L',
    label_rooms w rooms = Some L'
    ∧ length <$> L' = length <$> w
    ∧ ∀ room, room ∈ rooms →
        ∃ v, Np.cell L' room.2 = Some v
             ∧ ∀ p, Np.cell L' p = Some v ↔ connected w room.2 p.
Proof.
  intros Hrect Hall Hmax. unfold label_rooms.
  destruct (own_inv_fold w c0 rooms [] (Np.astype_int w) 2)
    as (L' & c' & -> & Hinv); try done.
  { eapply Forall_impl; [exact Hall|]. by intros room [? _]. }
  { apply own_inv_init. }
  exists L'. split_and!; [done|apply Hinv|].
  intros room Hroom. rewrite Forall_forall in Hall.
  destruct (Hall room Hroom) as [Hw Hnb%exists_direction_adjacent].
  destruct (oi_done _ _ _ _ Hinv room Hroom Hnb) as (v & Hv & Hv2).
  exists v. split; [done|]. intros p. split.
  - intros Hp. by eapply (oi_sound _ _ _ _ Hinv).
  - induction 1 as [|a b r Ha Hadj Hbr IH]; [done|].
    apply IH.
    + by eapply connected_walk_l.
    + eexists. split; [by apply adjacent_sym|done].
    + eapply (oi_closed _ _ _ _ Hinv a b v); try done; [lia|].
      by eapply connected_walk_l.
Qed.

Lemma own_labels_same_counts room_array cols rooms :
  Np.rectangular room_array cols →
  Dict.wf rooms →
  Forall (anchor_has_neighbour (walkable room_array)) rooms →
  2 + Z.of_nat (length rooms) ≤ 2 ^ 63 →
  ∃ L n L',
    scipy_label (walkable room_array) CROSS = Some (L, n)
    ∧ label_rooms (walkable room_array) rooms = Some L'
    ∧ count_chairs room_array L' rooms = count_chairs room_array L rooms.
Proof.
  intros Hrect Hwf Hall Hmax.
  pose proof (walkable_rectangular _ _ Hrect) as Hrectw.
  destruct (scipy_label_scan _ _ Hrectw) as (L & n & Hlabel & Hinv).
  destruct (label_rooms_regions _ _ rooms Hrectw Hall Hmax)
    as (L' & Hown & Hsh' & Hreg).
  exists L, n, L'. split_and!; [done|done|].
  assert (HshL : length <$> L = length <$> walkable room_array) by apply Hinv.
  apply (count_chairs_same_masks _ cols); [done| |done|].
  { by rewrite Hsh', walkable_lengths. }
  apply Forall_forall. intros room Hroom.
  destruct (Hreg room Hroom) as (v & Hv & Hcomp).
  rewrite Forall_forall in Hall. destruct (Hall room Hroom) as [Hw _].
  destruct (labelled_walk _ _ L n Hrectw Hinv _ Hw) as (u & Hu & Hu0).
  destruct (cell_Some_nonneg _ _ _ Hv) as [Hr Hc].
  destruct room as [name [r c]]. simpl in *.
  rewrite !get_cell, Hv, Hu by done. split; [by eexists|]. simpl. f_equal.
  apply array_ext.
  { rewrite !eq_scalar_lengths. congruence. }
  intros p. rewrite !cell_eq_scalar.
  destruct (Np.cell L' p) as [x|] eqn:Hx.
  - destruct (cell_same_shape L' L p) as [y Hy]; [congruence|by eexists|].
    rewrite Hy. simpl. f_equal.
    destruct (Z.eqb_spec x v) as [->|Hxv], (Z.eqb_spec y u) as [->|Hyu];
      try done; exfalso.
    + apply Hcomp in Hx.
      pose proof (labelled_connected _ _ L n Hrectw Hinv _ _ Hx) as Heq.
      congruence.
    + assert (Hcon : connected (walkable room_array) (r, c) p).
      { eapply (labelled_same _ _ L n Hrectw Hinv); [done|congruence]. }
      apply Hcomp in Hcon. congruence.
  - destruct (Np.cell L p) as [y|] eqn:Hy; [|done].
    destruct (cell_same_shape L L' p) as [x' Hx']; [congruence|by eexists|congruence].
Qed.

(** On a plan whose room anchors are walkable cells with a walkable
    neighbour each, and whose labels 2, 3, ... fit the label array, the
    commented-out own labelling gives the report of the library
    labelling. *)
Theorem own_labels_same_report (room_array : list (list ascii)) (cols : nat) :
  Np.rectangular room_array cols →
  Forall (anchor_has_neighbour (walkable room_array)) (find_rooms room_array) →
  2 + Z.of_nat (length (find_rooms room_array)) ≤ 2 ^ 63 →
  main_own_labels room_array = main room_array.
Proof.
  intros Hrect Hall Hmax.
  destruct (own_labels_same_counts room_array cols (find_rooms room_array))
    as (L & n & L' & Hlabel & Hown & Hcount);
    [done|apply find_rooms_wf|done|done|].
  unfold main_own_labels, main. rewrite Hlabel, Hown.
  cbn [mbind option_bind]. by rewrite Hcount.
Qed.

Lemma own_labels_same_report_witness :
  Np.rectangular (parse_lines ["(a)W|(b)C"]) 9
  ∧ Forall (anchor_has_neighbour (walkable (parse_lines ["(a)W|(b)C"])))
           (find_rooms (parse_lines ["(a)W|(b)C"]))
  ∧ 2 + Z.of_nat (length (find_rooms (parse_lines ["(a)W|(b)C"]))) ≤ 2 ^ 63
  ∧ main_own_labels (parse_lines ["(a)W|(b)C"])
    = main (parse_lines ["(a)W|(b)C"]).
Proof.
  assert (H1 : Np.rectangular (parse_lines ["(a)W|(b)C"]) 9)
    by (repeat constructor).
  assert (H2 : Forall (anchor_has_neighbour (walkable (parse_lines ["(a)W|(b)C"])))
                      (find_rooms (parse_lines ["(a)W|(b)C"]))).
  { repeat (constructor;
              [split; [reflexivity|];
               apply Exists_exists; exists (0, 1);
               split; [unfold DIRECTIONS; rewrite !elem_of_cons; auto
                      |reflexivity]|]).
    constructor. }
  assert (H3 : 2 + Z.of_nat (length (find_rooms (parse_lines ["(a)W|(b)C"])))
               ≤ 2 ^ 63) by (by vm_compute).
  split; [exact H1|]. split; [exact H2|]. split; [exact H3|].
  exact (own_labels_same_report _ 9 H1 H2 H3).
Defined.

Lemma rows_full room_array r :
  Forall (λ row, "000"%char ∉ row) room_array → row_full room_array r.
Proof.
  intros Hall c Hc. unfold Np.cell in Hc. cbn [fst snd] in Hc.
  destruct ((0 <=? r) && (0 <=? c)); [|done].
  destruct (room_array !! Z.to_nat r) as [row|] eqn:Hrow; [|done].
  simpl in Hc. rewrite Forall_forall in Hall.
  apply (Hall row); [by eapply list_elem_of_lookup_2|].
  by eapply list_elem_of_lookup_2.
Qed.

Lemma first_character_neighbour room_array name pos :
  Dict.get name (find_rooms room_array) = Some pos →
  row_full room_array pos.1 →
  starts_off_wall name →
  Exists (λ d : Z * Z, walk (walkable room_array) (pos.1 + d.1, pos.2 + d.2))
         DIRECTIONS.
Proof.
  intros Hget Hfull Hname.
  assert (Hne : name ≠ EmptyString).
  { destruct pos as [r c]. by apply find_rooms_anchor in Hget as [? _]. }
  destruct (find_rooms_on_parenthesis _ _ _ Hget Hfull) as (_ & Hchars & _).
  destruct name as [|ch rest]; [done|]. simpl in Hname.
  specialize (Hchars 0%nat ch eq_refl).
  apply Exists_exists. exists (0, 1). split.
  { unfold DIRECTIONS. rewrite !elem_of_cons. auto. }
  unfold walk. rewrite cell_walkable. simpl.
  replace (pos.1 + 0, pos.2 + 1) with (pos.1, pos.2 + 1 + Z.of_nat 0)
    by (f_equal; lia).
  rewrite Hchars. simpl. by rewrite bool_decide_eq_false_2.
Qed.

(** On a plan without NUL characters in which no stored room name begins
    with a wall glyph, the own labelling and the library labelling give
    the same report: the anchor is the opening parenthesis and the first
    character of the name is a walkable neighbour of it. *)
Theorem own_labels_same_report_names (room_array : list (list ascii))
    (cols : nat) :
  Np.rectangular room_array cols →
  Forall (λ row, "000"%char ∉ row) room_array →
  Forall starts_off_wall (Dict.keys (find_rooms room_array)) →
  2 + Z.of_nat (length (find_rooms room_array)) ≤ 2 ^ 63 →
  main_own_labels room_array = main room_array.
Proof.
  intros Hrect Hfull Hnames Hmax.
  destruct (own_labels_same_counts room_array cols (find_rooms room_array))
    as (L & n & L' & Hlabel & Hown & Hcount);
    [done|apply find_rooms_wf| |done|].
  { apply Forall_forall. intros [name pos] Hroom.
    assert (Hget : Dict.get name (find_rooms room_array) = Some pos)
      by (apply dict_elem_get; [apply find_rooms_wf|done]).
    pose proof (rows_full room_array pos.1 Hfull) as Hrow.
    split; [by eapply find_rooms_walkable|].
    apply (first_character_neighbour room_array name pos Hget Hrow).
    rewrite Forall_forall in Hnames. apply Hnames.
    apply list_elem_of_fmap. by exists (name, pos). }
  unfold main_own_labels, main. rewrite Hlabel, Hown.
  cbn [mbind option_bind]. by rewrite Hcount.
Qed.

Lemma own_labels_same_report_names_witness :
  Np.rectangular (parse_lines ["(zoo)W|(bar)"]) 12
  ∧ Forall (λ row, "000"%char ∉ row) (parse_lines ["(zoo)W|(bar)"])
  ∧ Forall starts_off_wall (Dict.keys (find_rooms (parse_lines ["(zoo)W|(bar)"])))
  ∧ 2 + Z.of_nat (length (find_rooms (parse_lines ["(zoo)W|(bar)"]))) ≤ 2 ^ 63
  ∧ main_own_labels (parse_lines ["(zoo)W|(bar)"])
    = main (parse_lines ["(zoo)W|(bar)"]).
Proof.
  assert (H1 : Np.rectangular (parse_lines ["(zoo)W|(bar)"]) 12)
    by (repeat constructor).
  assert (H2 : Forall (λ row, "000"%char ∉ row) (parse_lines ["(zoo)W|(bar)"]))
    by (repeat constructor; by apply (bool_decide_unpack _)).
  assert (H3 : Forall starts_off_wall
                      (Dict.keys (find_rooms (parse_lines ["(zoo)W|(bar)"]))))
    by (repeat constructor; by apply (bool_decide_unpack _)).
  assert (H4 : 2 + Z.of_nat (length (find_rooms (parse_lines ["(zoo)W|(bar)"])))
               ≤ 2 ^ 63) by (by vm_compute).
  split; [exact H1|]. split; [exact H2|]. split; [exact H3|]. split; [exact H4|].
  exact (own_labels_same_report_names _ 12 H1 H2 H3 H4).
Defined.

(** ** The matches of one row *)

Lemma finditer_from_start_ge s : ∀ pos skip start name,
  (start, name) ∈ Re.finditer_from s pos skip → pos + Z.of_nat skip ≤ start.
Proof.
  induction s as [|c t IH]; intros pos skip start name;
    cbn [Re.finditer_from].
  { by intros ?%elem_of_nil. }
  destruct skip as [|k].
  - destruct (Re.match_here (String c t)) as [n|].
    + intros [[= -> ->]|Hin%IH]%elem_of_cons; lia.
    + intros Hin%IH. lia.
  - intros Hin%IH. lia.
Qed.

Lemma HdRel_all {A} (R : A → A → Prop) x l :
  (∀ y, y ∈ l → R x y) → HdRel R x l.
Proof. destruct l; constructor. apply H. by left. Qed.

Lemma finditer_from_sorted s : ∀ pos skip,
  Sorted match_before (Re.finditer_from s pos skip).
Proof.
  induction s as [|c t IH]; intros pos skip; cbn [Re.finditer_from];
    [constructor|].
  destruct skip as [|k]; [|apply IH].
  destruct (Re.match_here (String c t)) as [n|]; [|apply IH].
  constructor; [apply IH|]. apply HdRel_all. intros [start name] Hin.
  apply finditer_from_start_ge in Hin. unfold match_before. simpl. lia.
Qed.

Lemma string_length_app s1 s2 :
  String.length (s1 +:+ s2) = (String.length s1 + String.length s2)%nat.
Proof.
  rewrite <- !list_ascii_length, list_ascii_app. apply length_app.
Qed.

(** The matches of a row come in increasing column order, do not
    overlap, and each lies inside the row with its two parentheses. *)
Theorem finditer_matches_disjoint (line : string) :
  Sorted match_before (Re.finditer line)
  ∧ ∀ start name, (start, name) ∈ Re.finditer line →
      0 ≤ start
      ∧ start + Z.of_nat (String.length name) + 2
        ≤ Z.of_nat (String.length line).
Proof.
  split; [apply finditer_from_sorted|].
  intros start name (_ & _ & pre & post & -> & ->)%finditer_from_spec.
  split; [lia|].
  rewrite string_length_app. cbn [String.length].
  rewrite string_length_app. cbn [String.length]. lia.
Qed.

(** ** The run with the own labelling *)

Lemma label_rooms_some (w : list (list bool)) c0 rooms :
  Np.rectangular w c0 →
  2 + Z.of_nat (length rooms) ≤ 2 ^ 63 →
  ∃ L, label_rooms w rooms = Some L ∧ length <$> L = length <$> w.
Proof.
  intros Hrect Hmax. unfold label_rooms.
  destruct (label_rooms_basic w c0 rooms (Np.astype_int w) 2)
    as (L & -> & Hshape & _); try done.
  - apply astype_int_lengths.
  - intros p v. rewrite cell_astype_int.
    destruct (Np.cell w p) as [[]|]; intros [= <-]; lia.
  - intros p. rewrite cell_astype_int.
    destruct (Np.cell w p) as [[]|]; split; try done.
  - by exists L.
Qed.

Lemma report_after_count room_array cols labels :
  Np.rectangular room_array cols →
  length <$> labels = length <$> room_array →
  is_Some ('(total, room_counts) ←
             count_chairs room_array labels (find_rooms room_array);
           report total room_counts).
Proof.
  intros Hrect Hshape.
  rewrite (count_chairs_spec _ _ cols Hrect Hshape);
    [|apply find_rooms_wf|by apply find_rooms_readable].
  cbn [mbind option_bind].
  set (rooms := find_rooms room_array).
  set (room_counts := room_entry room_array labels <$> rooms).
  rewrite (report_spec _ room_counts
           (λ ch, default 0 (Dict.get ch
              (chair_counts (sum_type "W" room_counts) (sum_type "P" room_counts)
                            (sum_type "S" room_counts) (sum_type "C" room_counts))))
           (λ name ch, default 0 (Dict.get ch
              (region_counts room_array labels (room_label rooms labels name))))).
  - by eexists.
  - intros ch Hch. by apply chair_counts_get.
  - intros name Hname. unfold room_counts in Hname.
    rewrite room_entry_keys in Hname.
    destruct (Dict.get name rooms) as [pos|] eqn:Hpos;
      [|by apply dict_get_None in Hpos].
    assert (Hread : is_Some (Np.get labels pos.1 pos.2)).
    { pose proof (find_rooms_readable room_array labels Hshape) as Hall.
      rewrite Forall_forall in Hall.
      apply (Hall (name, pos)). by apply dict_get_elem. }
    destruct Hread as [lab Hlab].
    exists (region_counts room_array labels lab). split.
    + apply (room_entry_get _ _ _ _ pos); [apply find_rooms_wf|done|done].
    + intros ch Hch. unfold room_label. rewrite Hpos. cbn [mbind option_bind].
      rewrite Hlab. cbn [default]. by apply chair_counts_get.
Qed.

(** The run with [label_rooms] in place of the library call returns a
    report on every rectangular plan whose labels 2, 3, ... fit the label
    array, also where its counts differ. *)
Theorem main_own_labels_succeeds (room_array : list (list ascii)) (cols : nat) :
  Np.rectangular room_array cols →
  2 + Z.of_nat (length (find_rooms room_array)) ≤ 2 ^ 63 →
  ∃ lines, main_own_labels room_array = Some lines.
Proof.
  intros Hrect Hmax.
  destruct (label_rooms_some (walkable room_array) cols (find_rooms room_array))
    as (L & Hown & Hshape); [by apply walkable_rectangular|done|].
  rewrite walkable_lengths in Hshape.
  destruct (report_after_count room_array cols L Hrect Hshape) as [lines Hlines].
  exists lines. unfold main_own_labels. rewrite Hown. exact Hlines.
Qed.

Lemma main_own_labels_succeeds_witness :
  Np.rectangular (parse_lines ["(-)W"]) 4
  ∧ 2 + Z.of_nat (length (find_rooms (parse_lines ["(-)W"]))) ≤ 2 ^ 63
  ∧ ∃ lines, main_own_labels (parse_lines ["(-)W"]) = Some lines.
Proof.
  assert (H : Np.rectangular (parse_lines ["(-)W"]) 4) by (repeat constructor).
  assert (Hmax : 2 + Z.of_nat (length (find_rooms (parse_lines ["(-)W"])))
                 ≤ 2 ^ 63) by (by vm_compute).
  split; [exact H|]. split; [exact Hmax|].
  exact (main_own_labels_succeeds _ 4 H Hmax).
Defined.

(** ** Plans with NUL characters *)

Lemma filter_split {A} (P : A → Prop) `{!∀ x, Decision (P x)}
    (l : list A) : ∀ pre x rest,
  filter P l = pre ++ x :: rest →
  ∃ l1 l2, l = l1 ++ x :: l2 ∧ filter P l1 = pre ∧ filter P l2 = rest.
Proof.
  induction l as [|a l IH]; intros pre x rest Hl.
  { by destruct pre. }
  rewrite filter_cons in Hl. destruct (decide (P a)) as [Ha|Ha].
  - destruct pre as [|b pre]; injection Hl as -> Hl.
    + by exists [], l.
    + destruct (IH _ _ _ Hl) as (l1 & l2 & -> & <- & <-).
      exists (b :: l1), l2. split_and!; [done| |done].
      by rewrite filter_cons, decide_True.
  - destruct (IH _ _ _ Hl) as (l1 & l2 & -> & <- & <-).
    exists (a :: l1), l2. split_and!; [done| |done].
    by rewrite filter_cons, decide_False.
Qed.

(** The column stored for a room is a column of the joined line, not of
    the row: it counts the cells to the left of the opening parenthesis
    that do not hold NUL, so every NUL cell to the left moves the anchor
    one column to the left of the parenthesis.  The name is spelled by
    the cells after the parenthesis that do not hold NUL, up to the
    closing parenthesis. *)
Theorem anchor_skips_nul_cells (room_array : list (list ascii))
    (name : string) (r c : Z) :
  Dict.get name (find_rooms room_array) = Some (r, c) →
  ∃ row col post,
    0 ≤ r
    ∧ room_array !! Z.to_nat r = Some row
    ∧ row !! col = Some "("%char
    ∧ c = Z.of_nat (length (filter (λ ch, ch ≠ "000"%char) (take col row)))
    ∧ filter (λ ch, ch ≠ "000"%char) (drop (S col) row)
      = list_ascii_of_string name ++ ")"%char :: post.
Proof.
  intros (_ & _ & Hr & row & pre & post & Hrow & Hline & ->)%find_rooms_anchor.
  apply filter_split in Hline as (l1 & l2 & -> & <- & Hl2).
  exists (l1 ++ "("%char :: l2), (length l1), post.
  split_and!; [done|done|by apply list_lookup_middle| |].
  - by rewrite take_app_length.
  - rewrite drop_app_ge by lia.
    by replace (S (length l1) - length l1)%nat with 1%nat by lia.
Qed.

Lemma anchor_skips_nul_cells_witness :
  Dict.get "a"%string (find_rooms [["000"; "|"; "("; "a"; ")"; "W"]%char])
  = Some (0, 1)
  ∧ ∃ row col post,
      0 ≤ 0
      ∧ [["000"; "|"; "("; "a"; ")"; "W"]%char] !! Z.to_nat 0 = Some row
      ∧ row !! col = Some "("%char
      ∧ 1 = Z.of_nat (length (filter (λ ch, ch ≠ "000"%char) (take col row)))
      ∧ filter (λ ch, ch ≠ "000"%char) (drop (S col) row)
        = list_ascii_of_string "a" ++ ")"%char :: post.
Proof.
  split; [reflexivity|].
  exact (anchor_skips_nul_cells [["000"; "|"; "("; "a"; ")"; "W"]%char]
           "a" 0 1 eq_refl).
Defined.

(** In the row NUL [W|(a)(b)] both anchors are one column to the left of
    their parentheses: the room [a] is stored on the wall, the room [b]
    on the closing parenthesis of [a], and the run with [label_rooms]
    counts for [b] the chair on the other side of the wall. *)
Example rooms_after_nul :
  find_rooms [["000"; "W"; "|"; "("; "a"; ")"; "("; "b"; ")"]%char]
  = [("a"%string, (0, 2)); ("b"%string, (0, 5))]
  ∧ main [["000"; "W"; "|"; "("; "a"; ")"; "("; "b"; ")"]%char]
    = Some ["total:"; "W: 0, P: 0, S: 0, C: 0";
            "a:"; "W: 0, P: 0, S: 0, C: 0";
            "b:"; "W: 0, P: 0, S: 0, C: 0"]%string
  ∧ label_rooms (walkable [["000"; "W"; "|"; "("; "a"; ")"; "("; "b"; ")"]%char])
                [("a"%string, (0, 2)); ("b"%string, (0, 5))]
    = Some [[2; 2; 0; 2; 2; 2; 2; 2; 2]]
  ∧ main_own_labels [["000"; "W"; "|"; "("; "a"; ")"; "("; "b"; ")"]%char]
    = Some ["total:"; "W: 1, P: 0, S: 0, C: 0";
            "a:"; "W: 0, P: 0, S: 0, C: 0";
            "b:"; "W: 1, P: 0, S: 0, C: 0"]%string.
Proof. split_and!; vm_compute; reflexivity. Qed.

(** ** Labels beyond 64 bits *)

Lemma flood_visits_overflow (A : list (list Z)) c0 label row col ds : ∀ Q,
  Np.rectangular A c0 → int64 label = None →
  Exists (λ d : Z * Z, Np.cell A (row + d.1, col + d.2) = Some 1) ds →
  flood_visits (Np.shape A).1 (Np.shape A).2 label row col (A, Q) ds = None.
Proof.
  intros Q Hrect Hnone. induction 1 as [d ds Hd|d ds _ IH];
    rewrite flood_visits_cons, (flood_visit_cell A c0) by done.
  - rewrite bool_decide_eq_true_2 by done. by rewrite Hnone.
  - case_bool_decide; [by rewrite Hnone|exact IH].
Qed.

(** A label outside the range of 64-bit integers cannot be stored in the
    label array.  [flood_fill] raises at its first assignment, that is,
    exactly when one of the four neighbours of the start holds 1;
    otherwise it assigns nothing and returns the array unchanged. *)
Theorem flood_fill_label_overflow (array : list (list Z)) (cols : nat)
    (start : Z * Z) (label : Z) :
  Np.rectangular array cols →
  ¬ (- 2 ^ 63 ≤ label < 2 ^ 63) →
  (∀ fuel,
     flood_loop (S fuel) (Np.shape array).1 (Np.shape array).2 label array
                [start]
     = if decide (Exists (λ d : Z * Z,
                            Np.cell array (start.1 + d.1, start.2 + d.2) = Some 1)
                         DIRECTIONS)
       then Some None else Some (Some array))
  ∧ flood_fill array start label
    = if decide (Exists (λ d : Z * Z,
                           Np.cell array (start.1 + d.1, start.2 + d.2) = Some 1)
                        DIRECTIONS)
      then None else Some array.
Proof.
  intros Hrect Hrange%int64_out_of_range.
  assert (Hloop : ∀ fuel,
     flood_loop (S fuel) (Np.shape array).1 (Np.shape array).2 label array
                [start]
     = if decide (Exists (λ d : Z * Z,
                            Np.cell array (start.1 + d.1, start.2 + d.2) = Some 1)
                         DIRECTIONS)
       then Some None else Some (Some array)).
  { intros fuel. destruct start as [row col]. cbn [flood_loop fst snd].
    case_decide as Hex.
    - by rewrite (flood_visits_overflow array cols).
    - apply not_Exists_Forall in Hex; [|intros d; apply _].
      rewrite (flood_visits_none array cols) by done.
      cbn [fst snd]. by destruct fuel. }
  split; [exact Hloop|].
  rewrite flood_fill_unfold, Hloop. by case_decide.
Qed.

Lemma flood_fill_label_overflow_witness :
  Np.rectangular [[1; 1]] 2
  ∧ ¬ (- 2 ^ 63 ≤ 2 ^ 63 < 2 ^ 63)
  ∧ (∀ fuel,
       flood_loop (S fuel) (Np.shape [[1; 1]]).1 (Np.shape [[1; 1]]).2 (2 ^ 63)
                  [[1; 1]] [(0, 0)]
       = if decide (Exists (λ d : Z * Z,
                              Np.cell [[1; 1]] ((0, 0).1 + d.1, (0, 0).2 + d.2)
                              = Some 1)
                           DIRECTIONS)
         then Some None else Some (Some [[1; 1]]))
  ∧ flood_fill [[1; 1]] (0, 0) (2 ^ 63)
    = if decide (Exists (λ d : Z * Z,
                           Np.cell [[1; 1]] ((0, 0).1 + d.1, (0, 0).2 + d.2)
                           = Some 1)
                        DIRECTIONS)
      then None else Some [[1; 1]].
Proof.
  assert (H1 : Np.rectangular [[1; 1]] 2) by (repeat constructor).
  assert (H2 : ¬ (- 2 ^ 63 ≤ 2 ^ 63 < 2 ^ 63)) by lia.
  split; [exact H1|]. split; [exact H2|].
  exact (flood_fill_label_overflow [[1; 1]] 2 (0, 0) (2 ^ 63) H1 H2).
Defined.

Example flood_fill_overflow_raises :
  flood_fill [[1; 1]] (0, 0) (2 ^ 63) = None
  ∧ flood_fill [[1; 0; 1]] (0, 0) (2 ^ 63) = Some [[1; 0; 1]]
  ∧ flood_fill [[1; 1]] (0, 0) (2 ^ 63 - 1)
    = Some [[9223372036854775807; 9223372036854775807]].
Proof. split_and!; reflexivity. Qed.
